(** * FreeStream: the event-to-audio delivery core, embedded in Rocq

A shallow embedding of the parts of the FreeStream sources that the
specification talks about:

- [app/services/event_processor.py]: threshold gate and [_clean_text];
- [app/services/queue.py]: [RateLimiter], [DuplicateDetector],
  [PriorityItem] and [QueueService];
- [app/services/tts.py]: [TTSService.synthesize] with its on-disk cache;
- [app/routes/api.py]: the [/audio/<audio_id>] handler.

Python [str] values are sequences of Unicode code points and are modelled
as [list N].  Python [int] is [Z].  Python [float] is IEEE binary64 and is
modelled by Rocq's primitive floats.  Dictionaries are [gmap]s.  The
clock ([time.time()], [datetime.now()]) is an explicit argument of every
operation that reads it, one reading for each call; clock readings are
whole seconds. *)

From Stdlib Require Import ZArith NArith Ascii String List Lia.
From Stdlib Require Import Uint63 Floats.PrimFloat Floats.FloatOps Floats.SpecFloat.
From stdpp Require Import gmap list sorting.

Open Scope Z_scope.

(* ===================================================================== *)
(** ** Python strings *)
(* ===================================================================== *)

Module PyStr.

(** A code point. *)
Definition char := N.

(** An ASCII literal as a sequence of code points. *)
Fixpoint lit (s : string) : list N :=
  match s with
  | EmptyString => []
  | String a r => N_of_ascii a :: lit r
  end.

Definition chr (a : ascii) : N := N_of_ascii a.

(** [str.isspace] on one code point, which is also what [\s] matches in a
    [str] pattern: CPython's [_PyUnicode_IsWhitespace]. *)
Definition is_space (c : N) : bool :=
  ((9 <=? c) && (c <=? 13) || (28 <=? c) && (c <=? 32)
   || (c =? 133) || (c =? 160) || (c =? 5760)
   || (8192 <=? c) && (c <=? 8202)
   || (c =? 8232) || (c =? 8233) || (c =? 8239) || (c =? 8287)
   || (c =? 12288))%N.

(** [s.startswith(p)], returning the rest of [s] after [p]. *)
Fixpoint strip_prefix (p s : list N) : option (list N) :=
  match p with
  | [] => Some s
  | a :: p' =>
      match s with
      | b :: s' => if (a =? b)%N then strip_prefix p' s' else None
      | [] => None
      end
  end.

(** The scanning loop shared by [str.replace] and [re.sub]: at each
    position [m] is tried on the remaining text; a match gives the text to
    emit and the number of characters it covers (at least one), and the
    scan resumes after them; otherwise one character is copied. *)
Fixpoint scan (m : list N -> option (list N * nat)) (skip : nat)
    (s : list N) : list N :=
  match s with
  | [] => []
  | c :: r =>
      match skip with
      | S k => scan m k r
      | O =>
          match m s with
          | Some (out, len) => out ++ scan m (Nat.pred len) r
          | None => c :: scan m O r
          end
      end
  end.

(** [s.replace(old, new)] for a non-empty [old]. *)
Definition replace (old new s : list N) : list N :=
  scan (fun t => match strip_prefix old t with
                 | Some _ => Some (new, length old)
                 | None => None
                 end) O s.

(** [s.strip()]: drop leading and trailing whitespace. *)
Fixpoint lstrip (s : list N) : list N :=
  match s with
  | c :: r => if is_space c then lstrip r else s
  | [] => []
  end.

Definition rstrip (s : list N) : list N := rev (lstrip (rev s)).

Definition strip (s : list N) : list N := rstrip (lstrip s).

(** [s.split(sep)[-1]] for a one-character [sep]: the text after the last
    separator.  [cur] is the segment being read. *)
Fixpoint last_segment_from (sep : N) (cur s : list N) : list N :=
  match s with
  | [] => rev cur
  | c :: r =>
      if (c =? sep)%N then last_segment_from sep [] r
      else last_segment_from sep (c :: cur) r
  end.

Definition last_segment (sep : N) (s : list N) : list N :=
  last_segment_from sep [] s.

(** Truthiness of a [str]. *)
Definition truthy (s : list N) : bool :=
  match s with [] => false | _ => true end.

End PyStr.

(* ===================================================================== *)
(** ** The regular expressions of [_clean_text]

Each pattern is given as its matcher at one position, in the form
[PyStr.scan] expects.  None of them can match the empty string. *)
(* ===================================================================== *)

Module Re.
Import PyStr.

(** Length of the longest prefix whose characters satisfy [p] (a greedy
    [p+] or [p*]). *)
Fixpoint span (p : N -> bool) (s : list N) : nat :=
  match s with
  | c :: r => if p c then S (span p r) else O
  | [] => O
  end.

(** [[a-zA-Z0-9_]] *)
Definition is_word (c : N) : bool :=
  ((97 <=? c) && (c <=? 122) || (65 <=? c) && (c <=? 90)
   || (48 <=? c) && (c <=? 57) || (c =? 95))%N.

Definition colon : N := 58.
Definition newline : N := 10.
Definition space : N := 32.

(** [:[a-zA-Z0-9_]+:] replaced by nothing.  The greedy run of word
    characters cannot give back a character that is a colon, so there is
    one way to match. *)
Definition emote (s : list N) : option (list N * nat) :=
  match s with
  | c :: r =>
      if (c =? colon)%N then
        let n := span is_word r in
        match n, drop n r with
        | S _, d :: _ => if (d =? colon)%N then Some ([], S (S n)) else None
        | _, _ => None
        end
      else None
  | [] => None
  end.

(** The tail [://\S+] of the URL pattern, after [k] characters of scheme. *)
Definition url_tail (k : nat) (s : list N) : option (list N * nat) :=
  match strip_prefix (lit "://") s with
  | Some r =>
      match span (fun c => negb (is_space c)) r with
      | O => None
      | S n => Some ([], (k + 3 + S n)%nat)
      end
  | None => None
  end.

(** [https?://\S+] replaced by nothing: the greedy [s?] is tried with the
    [s] first and then without it. *)
Definition url (s : list N) : option (list N * nat) :=
  match strip_prefix (lit "http") s with
  | Some r =>
      let without_s := url_tail 4 r in
      match strip_prefix (lit "s") r with
      | Some r' =>
          match url_tail 5 r' with
          | Some res => Some res
          | None => without_s
          end
      | None => without_s
      end
  | None => None
  end.

(** [\s+] replaced by one space. *)
Definition spaces (s : list N) : option (list N * nat) :=
  match span is_space s with
  | O => None
  | S n => Some ([space], S n)
  end.

(** The class [[<>{}[\]|\\^~`]]. *)
Definition is_special (c : N) : bool :=
  ((c =? 60) || (c =? 62) || (c =? 123) || (c =? 125) || (c =? 91)
   || (c =? 93) || (c =? 124) || (c =? 92) || (c =? 94) || (c =? 126)
   || (c =? 96))%N.

Definition special (s : list N) : option (list N * nat) :=
  match s with
  | c :: _ => if is_special c then Some ([], 1%nat) else None
  | [] => None
  end.

(** [(.)\1{3,}] replaced by [\1\1]; [.] is any character but a newline. *)
Definition repeated (s : list N) : option (list N * nat) :=
  match s with
  | c :: r =>
      if (c =? newline)%N then None
      else
        let n := span (N.eqb c) r in
        if (3 <=? n)%nat then Some ([c; c], S n) else None
  | [] => None
  end.

(** [re.sub(pattern, repl, text)] *)
Definition sub (m : list N -> option (list N * nat)) (text : list N) : list N :=
  scan m O text.

End Re.

(* ===================================================================== *)
(** ** [app/models/events.py] *)
(* ===================================================================== *)

Module Events.
Import PyStr.

Inductive Platform := TWITCH | YOUTUBE.

Definition Platform_value (p : Platform) : list N :=
  match p with
  | TWITCH => lit "twitch"
  | YOUTUBE => lit "youtube"
  end.

Inductive EventType :=
| TWITCH_BITS | TWITCH_SUB_NEW | TWITCH_SUB_RESUB
| TWITCH_GIFT_SINGLE | TWITCH_GIFT_MULTI | TWITCH_CHANNEL_POINTS
| YOUTUBE_SUPERCHAT | YOUTUBE_SUPERSTICKER
| YOUTUBE_MEMBERSHIP_NEW | YOUTUBE_MEMBERSHIP_MILESTONE.

Definition EventType_value (t : EventType) : list N :=
  match t with
  | TWITCH_BITS => lit "twitch_bits"
  | TWITCH_SUB_NEW => lit "twitch_sub_new"
  | TWITCH_SUB_RESUB => lit "twitch_sub_resub"
  | TWITCH_GIFT_SINGLE => lit "twitch_gift_single"
  | TWITCH_GIFT_MULTI => lit "twitch_gift_multi"
  | TWITCH_CHANNEL_POINTS => lit "twitch_channel_points"
  | YOUTUBE_SUPERCHAT => lit "youtube_superchat"
  | YOUTUBE_SUPERSTICKER => lit "youtube_supersticker"
  | YOUTUBE_MEMBERSHIP_NEW => lit "youtube_membership_new"
  | YOUTUBE_MEMBERSHIP_MILESTONE => lit "youtube_membership_milestone"
  end.

(** The subclasses of [StreamEvent] with the fields each one adds;
    [Base] is a plain [StreamEvent]. *)
Inductive EventData :=
| TwitchBitsEvent (amount : Z) (message : list N) (is_anonymous : bool)
| TwitchSubEvent (tier : list N) (months : Z) (message : list N)
    (is_resub : bool)
| TwitchGiftSubEvent (tier : list N) (count : Z) (recipient : list N)
    (cumulative_total : Z) (is_anonymous : bool)
| TwitchChannelPointsEvent (reward_id reward_name : list N) (cost : Z)
    (user_input : list N)
| YouTubeSuperChatEvent (amount : float) (currency message : list N)
| YouTubeSuperStickerEvent (amount : float) (currency sticker_id : list N)
| YouTubeMembershipEvent (level : list N) (months : Z) (is_milestone : bool)
| Base.

(** The fields of the base class ([raw_data], kept for diagnostics only,
    is left out). *)
Module StreamEvent.
Record t := {
  id : list N;
  platform : Platform;
  event_type : EventType;
  username : list N;
  timestamp : Z;
  data : EventData
}.
End StreamEvent.

(** The class defaults of [platform] and [event_type], with the
    [__post_init__] adjustments of the subclasses. *)
Definition default_platform (d : EventData) : Platform :=
  match d with
  | YouTubeSuperChatEvent _ _ _ | YouTubeSuperStickerEvent _ _ _
  | YouTubeMembershipEvent _ _ _ => YOUTUBE
  | _ => TWITCH
  end.

Definition default_event_type (d : EventData) : EventType :=
  match d with
  | TwitchBitsEvent _ _ _ => TWITCH_BITS
  | TwitchSubEvent _ _ _ is_resub =>
      if is_resub then TWITCH_SUB_RESUB else TWITCH_SUB_NEW
  | TwitchGiftSubEvent _ count _ _ _ =>
      if 1 <? count then TWITCH_GIFT_MULTI else TWITCH_GIFT_SINGLE
  | TwitchChannelPointsEvent _ _ _ _ => TWITCH_CHANNEL_POINTS
  | YouTubeSuperChatEvent _ _ _ => YOUTUBE_SUPERCHAT
  | YouTubeSuperStickerEvent _ _ _ => YOUTUBE_SUPERSTICKER
  | YouTubeMembershipEvent _ _ is_milestone =>
      if is_milestone then YOUTUBE_MEMBERSHIP_MILESTONE
      else YOUTUBE_MEMBERSHIP_NEW
  | Base => TWITCH_BITS
  end.

(** Construction of an event from its identifier, user name, creation
    time and subclass fields. *)
Definition new_event (id username : list N) (timestamp : Z) (d : EventData)
  : StreamEvent.t :=
  {| StreamEvent.id := id;
     StreamEvent.platform := default_platform d;
     StreamEvent.event_type := default_event_type d;
     StreamEvent.username := username;
     StreamEvent.timestamp := timestamp;
     StreamEvent.data := d |}.

(** The result of [TTSMessage.to_dict]. *)
Module MessageDict.
Record t := {
  id : list N;
  text : list N;
  priority : Z;
  event_type : option (list N);
  platform : option (list N);
  created_at : Z
}.
End MessageDict.

Module TTSMessage.
Record t := {
  id : list N;
  text : list N;
  display_text : list N;
  priority : Z;
  event : option StreamEvent.t;
  audio_path : option (list N);
  created_at : Z
}.

(** [a or b] on strings. *)
Definition str_or (a b : list N) : list N :=
  if truthy a then a else b.

Definition to_dict (self : t) : MessageDict.t :=
  {| MessageDict.id := id self;
     MessageDict.text := str_or (display_text self) (text self);
     MessageDict.priority := priority self;
     MessageDict.event_type :=
       option_map (fun e => EventType_value (StreamEvent.event_type e))
         (event self);
     MessageDict.platform :=
       option_map (fun e => Platform_value (StreamEvent.platform e))
         (event self);
     MessageDict.created_at := created_at self |}.
End TTSMessage.

End Events.

(* ===================================================================== *)
(** ** [heapq] on a Python list

The functions of CPython's [Lib/heapq.py] that [queue.py] calls, on a
list indexed from 0.  The loops run on a counter that is large enough
for them to reach their exit test: [pos] strictly decreases in
[_siftdown] and strictly increases in [_siftup]. *)
(* ===================================================================== *)

Module Heapq.
Section heapq.
Context {A : Type} (lt : A -> A -> bool).

(** The [while pos > startpos] loop of [_siftdown]; [newitem] is placed
    when the loop ends. *)
Fixpoint _siftdown_loop (fuel : nat) (heap : list A) (startpos pos : nat)
    (newitem : A) : list A :=
  match fuel with
  | O => <[pos := newitem]> heap
  | S fuel' =>
      if (startpos <? pos)%nat then
        let parentpos := ((pos - 1) / 2)%nat in
        match heap !! parentpos with
        | Some parent =>
            if lt newitem parent then
              _siftdown_loop fuel' (<[pos := parent]> heap) startpos
                parentpos newitem
            else <[pos := newitem]> heap
        | None => <[pos := newitem]> heap
        end
      else <[pos := newitem]> heap
  end.

Definition _siftdown (heap : list A) (startpos pos : nat) : list A :=
  match heap !! pos with
  | Some newitem => _siftdown_loop pos heap startpos pos newitem
  | None => heap
  end.

(** The [while childpos < endpos] loop of [_siftup]: the smaller child
    moves up until [pos] is a leaf; the heap and the leaf are returned. *)
Fixpoint _siftup_loop (fuel : nat) (heap : list A) (endpos pos : nat)
  : list A * nat :=
  match fuel with
  | O => (heap, pos)
  | S fuel' =>
      let childpos := (2 * pos + 1)%nat in
      if (childpos <? endpos)%nat then
        let rightpos := (childpos + 1)%nat in
        let childpos :=
          if (rightpos <? endpos)%nat then
            match heap !! childpos, heap !! rightpos with
            | Some l, Some r => if negb (lt l r) then rightpos else childpos
            | _, _ => childpos
            end
          else childpos in
        match heap !! childpos with
        | Some c => _siftup_loop fuel' (<[pos := c]> heap) endpos childpos
        | None => (heap, pos)
        end
      else (heap, pos)
  end.

Definition _siftup (heap : list A) (pos : nat) : list A :=
  match heap !! pos with
  | Some newitem =>
      let '(heap', leaf) :=
        _siftup_loop (length heap) heap (length heap) pos in
      _siftdown (<[leaf := newitem]> heap') pos leaf
  | None => heap
  end.

Definition heappush (heap : list A) (item : A) : list A :=
  _siftdown (heap ++ [item]) 0 (length heap).

(** [heap.pop()]: the last element and the list without it; [None] is
    Python's [IndexError] on an empty list. *)
Definition pop_last (heap : list A) : option (A * list A) :=
  match heap !! (length heap - 1)%nat with
  | Some x => Some (x, take (length heap - 1) heap)
  | None => None
  end.

Definition heappop (heap : list A) : option (A * list A) :=
  match pop_last heap with
  | Some (lastelt, heap) =>
      match heap with
      | returnitem :: _ => Some (returnitem, _siftup (<[0%nat := lastelt]> heap) 0)
      | [] => Some (lastelt, [])
      end
  | None => None
  end.

End heapq.
End Heapq.

(** The heap order that [heapq] maintains, for items compared by an integer
    key: no item is smaller than its parent. *)
Module HeapOrder.
Section order.
Context {A : Type} (key : A -> Z).

Definition heap_ok (h : list A) : Prop :=
  forall i x p, (0 < i)%nat -> h !! i = Some x ->
    h !! ((i - 1) / 2)%nat = Some p -> key p <= key x.

(** The state of the loop of [_siftdown]: the order holds except at the
    position [pos] that waits for [new]; [new] and the parent of [pos] are
    no larger than the children of [pos]. *)
Definition hole_inv (h : list A) (pos : nat) (new : A) : Prop :=
  (forall i x p, (0 < i)%nat -> i ≠ pos -> h !! i = Some x ->
     h !! ((i - 1) / 2)%nat = Some p -> key p <= key x) ∧
  (forall i x, (0 < i)%nat -> ((i - 1) / 2)%nat = pos -> h !! i = Some x ->
     key new <= key x) ∧
  (forall i x g, (0 < i)%nat -> (0 < pos)%nat -> ((i - 1) / 2)%nat = pos ->
     h !! i = Some x -> h !! ((pos - 1) / 2)%nat = Some g -> key g <= key x).

(** The state of the loop of [_siftup]: the order holds except between
    [pos] and its children, and the parent of [pos] is no larger than the
    children of [pos]. *)
Definition up_inv (h : list A) (pos : nat) : Prop :=
  (forall i x p, (0 < i)%nat -> ((i - 1) / 2)%nat ≠ pos -> h !! i = Some x ->
     h !! ((i - 1) / 2)%nat = Some p -> key p <= key x) ∧
  (forall i x g, (0 < i)%nat -> (0 < pos)%nat -> ((i - 1) / 2)%nat = pos ->
     h !! i = Some x -> h !! ((pos - 1) / 2)%nat = Some g -> key g <= key x).

End order.
End HeapOrder.

(* ===================================================================== *)
(** ** [app/services/queue.py] *)
(* ===================================================================== *)

Module Queue.
Import PyStr Events.

(** The settings [queue.py] reads. *)
Record Config := {
  QUEUE_MAX_SIZE : Z;
  QUEUE_DUPLICATE_WINDOW : Z;
  RATE_LIMIT_TWITCH : Z;
  RATE_LIMIT_YOUTUBE : Z
}.

(** [@dataclass(order=True)] with [compare=False] on [timestamp] and
    [message]: items are ordered by [priority] alone. *)
Module PriorityItem.
Record t := {
  priority : Z;
  timestamp : Z;
  message : TTSMessage.t
}.

Definition init (message : TTSMessage.t) : t :=
  {| priority := - TTSMessage.priority message;
     timestamp := TTSMessage.created_at message;
     message := message |}.

Definition lt (a b : t) : bool := priority a <? priority b.
End PriorityItem.

Module RateLimiter.
Record t := {
  rate : Z;
  window : Z;
  tokens : gmap (list N) (list Z)
}.

Definition init (rate : Z) : t :=
  {| rate := rate; window := 60; tokens := ∅ |}.

Definition with_tokens (tk : gmap (list N) (list Z)) (self : t) : t :=
  {| rate := rate self; window := window self; tokens := tk |}.

(** [self.tokens[key] = [t for t in self.tokens[key] if t > cutoff]] *)
Definition prune (now : Z) (key : list N) (self : t) : t :=
  let cutoff := now - window self in
  with_tokens
    (<[key := filter (fun t => cutoff < t) (default [] (tokens self !! key))]>
       (tokens self))
    self.

Definition is_allowed (now : Z) (key : list N) (self : t) : bool * t :=
  let self := prune now key self in
  let l := default [] (tokens self !! key) in
  if Z.of_nat (length l) <? rate self then
    (true, with_tokens (<[key := l ++ [now]]> (tokens self)) self)
  else (false, self).

Definition get_remaining (now : Z) (key : list N) (self : t) : Z * t :=
  let self := prune now key self in
  let l := default [] (tokens self !! key) in
  (Z.max 0 (rate self - Z.of_nat (length l)), self).
End RateLimiter.

Module DuplicateDetector.
Record t := {
  window : Z;
  seen : gmap (list N) Z
}.

Definition init (window : Z) : t := {| window := window; seen := ∅ |}.

(** [md5] stands for [hashlib.md5(text.encode()).hexdigest()]. *)
Definition is_duplicate (md5 : list N -> list N) (now : Z) (text : list N)
    (self : t) : bool * t :=
  let text_hash := md5 text in
  let seen' :=
    filter (fun kv : list N * Z => now - kv.2 < window self) (seen self) in
  match seen' !! text_hash with
  | Some _ => (true, {| window := window self; seen := seen' |})
  | None =>
      (false, {| window := window self;
                 seen := <[text_hash := now]> seen' |})
  end.
End DuplicateDetector.

(** The result of [get_queue_status]. *)
Record Status := {
  size : nat;
  max_size : Z;
  current : option MessageDict.t;
  rate_limits_twitch : Z;
  rate_limits_youtube : Z
}.

(** What [socketio.emit] sends to the browser clients. *)
Inductive Emit :=
| tts_ready (id audio_id text : list N) (event_type platform : option (list N))
| skip
| queue_update (status : Status).

(** How a call ends: it returns a value, or the [del] on [_messages]
    raises. *)
Inductive outcome :=
| Return (b : bool)
| KeyError.

Module QueueService.
Record t := {
  config : Config;
  _queue : list PriorityItem.t;
  _current_message : option TTSMessage.t;
  _messages : gmap (list N) TTSMessage.t;
  _rate_limiter_twitch : RateLimiter.t;
  _rate_limiter_youtube : RateLimiter.t;
  _duplicate_detector : DuplicateDetector.t;
  emitted : list Emit
}.

Definition init (config : Config) : t :=
  {| config := config;
     _queue := [];
     _current_message := None;
     _messages := ∅;
     _rate_limiter_twitch := RateLimiter.init (RATE_LIMIT_TWITCH config);
     _rate_limiter_youtube := RateLimiter.init (RATE_LIMIT_YOUTUBE config);
     _duplicate_detector :=
       DuplicateDetector.init (QUEUE_DUPLICATE_WINDOW config);
     emitted := [] |}.

Definition with_queue (q : list PriorityItem.t) (self : t) : t :=
  {| config := config self; _queue := q;
     _current_message := _current_message self;
     _messages := _messages self;
     _rate_limiter_twitch := _rate_limiter_twitch self;
     _rate_limiter_youtube := _rate_limiter_youtube self;
     _duplicate_detector := _duplicate_detector self;
     emitted := emitted self |}.

Definition with_current (c : option TTSMessage.t) (self : t) : t :=
  {| config := config self; _queue := _queue self;
     _current_message := c;
     _messages := _messages self;
     _rate_limiter_twitch := _rate_limiter_twitch self;
     _rate_limiter_youtube := _rate_limiter_youtube self;
     _duplicate_detector := _duplicate_detector self;
     emitted := emitted self |}.

Definition with_messages (m : gmap (list N) TTSMessage.t) (self : t) : t :=
  {| config := config self; _queue := _queue self;
     _current_message := _current_message self;
     _messages := m;
     _rate_limiter_twitch := _rate_limiter_twitch self;
     _rate_limiter_youtube := _rate_limiter_youtube self;
     _duplicate_detector := _duplicate_detector self;
     emitted := emitted self |}.

Definition _rate_limiters (p : Platform) (self : t) : RateLimiter.t :=
  match p with
  | TWITCH => _rate_limiter_twitch self
  | YOUTUBE => _rate_limiter_youtube self
  end.

Definition with_rate_limiter (p : Platform) (rl : RateLimiter.t)
    (self : t) : t :=
  {| config := config self; _queue := _queue self;
     _current_message := _current_message self;
     _messages := _messages self;
     _rate_limiter_twitch :=
       match p with TWITCH => rl | YOUTUBE => _rate_limiter_twitch self end;
     _rate_limiter_youtube :=
       match p with YOUTUBE => rl | TWITCH => _rate_limiter_youtube self end;
     _duplicate_detector := _duplicate_detector self;
     emitted := emitted self |}.

Definition with_duplicate_detector (d : DuplicateDetector.t) (self : t) : t :=
  {| config := config self; _queue := _queue self;
     _current_message := _current_message self;
     _messages := _messages self;
     _rate_limiter_twitch := _rate_limiter_twitch self;
     _rate_limiter_youtube := _rate_limiter_youtube self;
     _duplicate_detector := d;
     emitted := emitted self |}.

(** [self.socketio.emit(...)] *)
Definition emit (e : Emit) (self : t) : t :=
  {| config := config self; _queue := _queue self;
     _current_message := _current_message self;
     _messages := _messages self;
     _rate_limiter_twitch := _rate_limiter_twitch self;
     _rate_limiter_youtube := _rate_limiter_youtube self;
     _duplicate_detector := _duplicate_detector self;
     emitted := emitted self ++ [e] |}.

Definition get_queue_status (now : Z) (self : t) : Status * t :=
  let '(tw, rl_tw) :=
    RateLimiter.get_remaining now (lit "twitch") (_rate_limiter_twitch self) in
  let '(yt, rl_yt) :=
    RateLimiter.get_remaining now (lit "youtube") (_rate_limiter_youtube self) in
  ({| size := length (_queue self);
      max_size := QUEUE_MAX_SIZE (config self);
      current := option_map TTSMessage.to_dict (_current_message self);
      rate_limits_twitch := tw;
      rate_limits_youtube := yt |},
   with_rate_limiter YOUTUBE rl_yt (with_rate_limiter TWITCH rl_tw self)).

Definition _notify_queue_update (now : Z) (self : t) : t :=
  let '(status, self) := get_queue_status now self in
  emit (queue_update status) self.

Definition get_next (self : t) : option TTSMessage.t * t :=
  match Heapq.heappop PriorityItem.lt (_queue self) with
  | None => (None, self)
  | Some (item, q) =>
      let message := PriorityItem.message item in
      let self := with_queue q self in
      let self :=
        with_messages (delete (TTSMessage.id message) (_messages self)) self in
      (Some message, with_current (Some message) self)
  end.

(** [message.audio_path.split("/")[-1].replace(".wav", "")] *)
Definition audio_id_of (audio_path : list N) : list N :=
  replace (lit ".wav") [] (last_segment (chr "/") audio_path).

Definition _send_next (self : t) : t :=
  let '(message, self) := get_next self in
  match message with
  | Some message =>
      match TTSMessage.audio_path message with
      | Some audio_path =>
          if truthy audio_path then
            emit
              (tts_ready (TTSMessage.id message) (audio_id_of audio_path)
                 (TTSMessage.str_or (TTSMessage.display_text message)
                    (TTSMessage.text message))
                 (option_map
                    (fun e => EventType_value (StreamEvent.event_type e))
                    (TTSMessage.event message))
                 (option_map
                    (fun e => Platform_value (StreamEvent.platform e))
                    (TTSMessage.event message)))
              self
          else self
      | None => self
      end
  | None => self
  end.

(** The body of [with self._queue_lock] in [add_message] up to the
    push: [inr] is the state in which [del] raised. *)
Definition make_room (self : t) : t + t :=
  if QUEUE_MAX_SIZE (config self) <=? Z.of_nat (length (_queue self)) then
    match Heapq.heappop PriorityItem.lt (_queue self) with
    | Some (removed, q) =>
        let self := with_queue q self in
        let rid := TTSMessage.id (PriorityItem.message removed) in
        match _messages self !! rid with
        | Some _ => inl (with_messages (delete rid (_messages self)) self)
        | None => inr self
        end
    | None => inl self
    end
  else inl self.

Section with_md5.
Variable md5 : list N -> list N.

Definition add_message (now : Z) (message : TTSMessage.t) (self : t)
  : outcome * t :=
  let '(dup, dd) :=
    DuplicateDetector.is_duplicate md5 now (TTSMessage.text message)
      (_duplicate_detector self) in
  let self := with_duplicate_detector dd self in
  if dup then (Return false, self)
  else
    let '(allowed, self) :=
      match TTSMessage.event message with
      | Some ev =>
          let platform := StreamEvent.platform ev in
          let '(ok, rl) :=
            RateLimiter.is_allowed now (Platform_value platform)
              (_rate_limiters platform self) in
          (ok, with_rate_limiter platform rl self)
      | None => (true, self)
      end in
    if negb allowed then (Return false, self)
    else
      match make_room self with
      | inr self => (KeyError, self)
      | inl self =>
          let self :=
            with_queue
              (Heapq.heappush PriorityItem.lt (_queue self)
                 (PriorityItem.init message)) self in
          let self :=
            with_messages
              (<[TTSMessage.id message := message]> (_messages self))
              self in
          let self := _notify_queue_update now self in
          let self :=
            match _current_message self with
            | None => _send_next self
            | Some _ => self
            end in
          (Return true, self)
      end.
End with_md5.

Definition mark_complete (message_id : list N) (self : t) : t :=
  let self :=
    match _current_message self with
    | Some m =>
        if bool_decide (TTSMessage.id m = message_id)
        then with_current None self
        else self
    | None => self
    end in
  _send_next self.

Definition skip_current (self : t) : t :=
  let self :=
    match _current_message self with
    | Some _ => with_current None self
    | None => self
    end in
  let self := emit skip self in
  _send_next self.

Definition clear_queue (now : Z) (self : t) : t :=
  let self := with_messages ∅ (with_queue [] self) in
  _notify_queue_update now self.

Definition get_message (message_id : list N) (self : t)
  : option TTSMessage.t :=
  match _current_message self with
  | Some m =>
      if bool_decide (TTSMessage.id m = message_id) then Some m
      else _messages self !! message_id
  | None => _messages self !! message_id
  end.
End QueueService.

(** [app/routes/websocket.py]: the handlers of the client events
    [play_complete] and [error]; [None] is a payload without an [id]. *)
Definition handle_play_complete (id : option (list N)) (q : QueueService.t)
  : QueueService.t :=
  match id with
  | Some message_id =>
      if truthy message_id then QueueService.mark_complete message_id q else q
  | None => q
  end.

Definition handle_error (id : option (list N)) (q : QueueService.t)
  : QueueService.t :=
  match id with
  | Some message_id =>
      if truthy message_id then QueueService.mark_complete message_id q else q
  | None => q
  end.

End Queue.

(* ===================================================================== *)
(** ** Files

A path is the list of its components below the root.  The file system
maps the resolved path of each regular file to its bytes and
modification time; symbolic links are not modelled. *)
(* ===================================================================== *)

Module FS.
Import PyStr.

Abbreviation Path := (list (list N)).

Record File := {
  content : list Byte.byte;
  st_mtime : Z
}.

Definition st_size (f : File) : Z := Z.of_nat (length (content f)).

(** [s.split("/")], with the segment being read in [cur]. *)
Fixpoint split_slash (cur s : list N) : list (list N) :=
  match s with
  | [] => [rev cur]
  | c :: r =>
      if (c =? chr "/")%N then rev cur :: split_slash [] r
      else split_slash (c :: cur) r
  end.

(** The components [pathlib] keeps of a string: empty ones and [.] are
    dropped. *)
Definition parts (s : list N) : list (list N) :=
  List.filter
    (fun p => negb (bool_decide (p = []) || bool_decide (p = lit ".")))
    (split_slash [] s).

Definition is_absolute (s : list N) : bool :=
  match s with
  | c :: _ => (c =? chr "/")%N
  | [] => false
  end.

(** [base / s]: an absolute [s] replaces [base]. *)
Definition joinpath (base : Path) (s : list N) : Path :=
  if is_absolute s then parts s else base ++ parts s.

(** What the operating system does with [..] when it walks a path. *)
Fixpoint resolve_from (acc : Path) (p : Path) : Path :=
  match p with
  | [] => rev acc
  | c :: r =>
      if bool_decide (c = lit "..") then resolve_from (tail acc) r
      else resolve_from (c :: acc) r
  end.

Definition resolve (p : Path) : Path := resolve_from [] p.

(** [str(path)] *)
Definition to_str (p : Path) : list N :=
  match p with
  | [] => lit "/"
  | _ => concat (map (fun c => chr "/" :: c) p)
  end.

Abbreviation t := (gmap (list (list N)) File).

Definition stat (fs : t) (p : Path) : option File := fs !! resolve p.

Definition exists_ (fs : t) (p : Path) : bool :=
  match stat fs p with Some _ => true | None => false end.

Definition write_bytes (now : Z) (p : Path) (data : list Byte.byte) (fs : t)
  : t :=
  <[resolve p := {| content := data; st_mtime := now |}]> fs.

Definition unlink (p : Path) (fs : t) : t := delete (resolve p) fs.

(** [s.endswith(suffix)] *)
Definition endswith (suffix s : list N) : bool :=
  match strip_prefix (rev suffix) (rev s) with
  | Some _ => true
  | None => false
  end.

(** [dir.glob("*.wav")]: the files directly in [dir] whose name ends in
    [.wav].  The operating system fixes no listing order; the model lists
    in the order in which the map enumerates its keys. *)
Definition glob_wav (dir : Path) (fs : t) : list Path :=
  List.filter
    (fun p =>
       match reverse p with
       | name :: parent =>
           bool_decide (reverse parent = resolve dir)
           && endswith (lit ".wav") name
       | [] => false
       end)
    (map fst (map_to_list fs)).

End FS.

(* ===================================================================== *)
(** ** [app/services/tts.py]: [TTSService] *)
(* ===================================================================== *)

Module TTS.
Import PyStr.

(** The settings [TTSService] reads.  [TTS_SPEED] is kept as the text
    that the f-string of [_get_cache_key] renders it to. *)
Record Config := {
  AUDIO_CACHE_MAX_SIZE_MB : Z;
  AUDIO_CACHE_TTL_HOURS : Z;
  TTS_VOICE : list N;
  TTS_SPEED : list N;
  TTS_MAX_MESSAGE_LENGTH : Z
}.

(** The service: its configuration, [Path(config.AUDIO_CACHE_PATH)], the
    file system it works on, and the requests made to the speech backend
    so far (text and voice of each call of [WyomingProtocol.synthesize]). *)
Record t := {
  config : Config;
  cache_path : FS.Path;
  fs : FS.t;
  backend_calls : list (list N * list N)
}.

Definition with_fs (f : FS.t) (self : t) : t :=
  {| config := config self; cache_path := cache_path self; fs := f;
     backend_calls := backend_calls self |}.

Definition with_call (c : list N * list N) (self : t) : t :=
  {| config := config self; cache_path := cache_path self; fs := fs self;
     backend_calls := backend_calls self ++ [c] |}.

(** How [synthesize] ends. *)
Inductive result :=
| Ok (path : list N)
| ValueError
| BackendError.

(** [text[:n]] *)
Definition slice_to (n : Z) (text : list N) : list N :=
  if 0 <=? n then take (Z.to_nat n) text
  else take (Z.to_nat (Z.of_nat (length text) + n)) text.

(** A stable sort by modification time, as [sorted(..., key=...)] is. *)
Fixpoint insert_by_mtime (x : FS.Path * FS.File) (l : list (FS.Path * FS.File))
  : list (FS.Path * FS.File) :=
  match l with
  | [] => [x]
  | y :: r =>
      if FS.st_mtime x.2 <? FS.st_mtime y.2 then x :: l
      else y :: insert_by_mtime x r
  end.

Definition sorted_by_mtime (l : list (FS.Path * FS.File))
  : list (FS.Path * FS.File) :=
  fold_left (fun acc x => insert_by_mtime x acc) l [].

(** The files of a listing with what [stat] says of each. *)
Definition with_stat (f : FS.t) (ps : list FS.Path)
  : list (FS.Path * FS.File) :=
  omap (fun p => match FS.stat f p with
                 | Some s => Some (p, s)
                 | None => None
                 end) ps.

(** [while total_size > max_size and sorted_files] *)
Fixpoint remove_oldest (total_size max_size : Z)
    (sorted_files : list (FS.Path * FS.File)) (f : FS.t) : FS.t :=
  match sorted_files with
  | [] => f
  | oldest :: rest =>
      if max_size <? total_size then
        remove_oldest (total_size - FS.st_size oldest.2) max_size rest
          (FS.unlink oldest.1 f)
      else f
  end.

Definition _cleanup_cache (now : Z) (self : t) : t :=
  let cache_files := with_stat (fs self) (FS.glob_wav (cache_path self) (fs self)) in
  let ttl := AUDIO_CACHE_TTL_HOURS (config self) * 3600 in
  let f :=
    fold_left
      (fun f pf => if ttl <? now - FS.st_mtime pf.2 then FS.unlink pf.1 f else f)
      cache_files (fs self) in
  let cache_files := with_stat f (FS.glob_wav (cache_path self) f) in
  let total_size := fold_right Z.add 0 (map (fun pf => FS.st_size pf.2) cache_files) in
  let max_size := AUDIO_CACHE_MAX_SIZE_MB (config self) * 1024 * 1024 in
  let f :=
    if max_size <? total_size then
      remove_oldest total_size max_size (sorted_by_mtime cache_files) f
    else f in
  with_fs f self.

Section with_backend.

(** [sha256] stands for [hashlib.sha256(s.encode()).hexdigest()]. *)
Variable sha256 : list N -> list N.

(** The speech backend: what the [n]-th call of
    [WyomingProtocol.synthesize] returns for a text and a voice, [None]
    when it raises. *)
Variable backend : nat -> list N -> list N -> option (list Byte.byte).

Definition _get_cache_key (self : t) (text : list N) : list N :=
  let key_data :=
    text ++ lit "|" ++ TTS_VOICE (config self) ++ lit "|"
      ++ TTS_SPEED (config self) in
  take 16 (sha256 key_data).

(** The text [synthesize] works on after its checks: [None] is the
    [ValueError] for an empty text. *)
Definition prepare (self : t) (text : list N) : option (list N) :=
  if negb (truthy text) || negb (truthy (strip text)) then None
  else if TTS_MAX_MESSAGE_LENGTH (config self) <? Z.of_nat (length text)
  then Some (slice_to (TTS_MAX_MESSAGE_LENGTH (config self)) text ++ lit "...")
  else Some text.

Definition cached_path_of (self : t) (text : list N) : FS.Path :=
  FS.joinpath (cache_path self) (_get_cache_key self text ++ lit ".wav").

(** [synthesize] up to the point where it calls the backend: either it
    is over ([inl]), or the backend is to be asked for the prepared
    text ([inr]). *)
Definition synthesize_begin (text : list N) (cache : bool) (self : t)
  : result + list N :=
  match prepare self text with
  | None => inl ValueError
  | Some text =>
      let cached_path := cached_path_of self text in
      if cache && FS.exists_ (fs self) cached_path
      then inl (Ok (FS.to_str cached_path))
      else inr text
  end.

(** The call of the backend for a prepared text. *)
Definition call_backend (text : list N) (self : t)
  : option (list Byte.byte) * t :=
  (backend (length (backend_calls self)) text (TTS_VOICE (config self)),
   with_call (text, TTS_VOICE (config self)) self).

(** [synthesize] from the answer of the backend on. *)
Definition synthesize_finish (now : Z) (text : list N)
    (answer : option (list Byte.byte)) (self : t) : result * t :=
  match answer with
  | None => (BackendError, self)
  | Some audio_data =>
      let cached_path := cached_path_of self text in
      let self :=
        with_fs (FS.write_bytes now cached_path audio_data (fs self)) self in
      let self := _cleanup_cache now self in
      (Ok (FS.to_str cached_path), self)
  end.

Definition synthesize (now : Z) (text : list N) (cache : bool) (self : t)
  : result * t :=
  match synthesize_begin text cache self with
  | inl r => (r, self)
  | inr text =>
      let '(answer, self) := call_backend text self in
      synthesize_finish now text answer self
  end.

Definition get_audio_path (self : t) (audio_id : list N) : option FS.Path :=
  let audio_path := FS.joinpath (cache_path self) (audio_id ++ lit ".wav") in
  if FS.exists_ (fs self) audio_path then Some audio_path else None.
End with_backend.

End TTS.

(* ===================================================================== *)
(** ** [app/routes/api.py]: [GET /api/audio/<audio_id>] *)
(* ===================================================================== *)

Module Api.
Import PyStr.

Inductive response :=
| R200 (body : list Byte.byte)
| R404
| R500.

Definition sanitize_audio_id (audio_id : list N) : list N :=
  replace (lit "..") [] (replace (lit "\") [] (replace (lit "/") [] audio_id)).

(** The handler, with the paths it hands to the file system: the one
    [exists] looks at and the one [send_file] opens. *)
Definition get_audio (tts_service : TTS.t) (audio_id : list N)
  : response * list FS.Path :=
  let audio_id := sanitize_audio_id audio_id in
  let probed := FS.joinpath (TTS.cache_path tts_service) (audio_id ++ lit ".wav") in
  match TTS.get_audio_path tts_service audio_id with
  | Some audio_path =>
      match FS.stat (TTS.fs tts_service) audio_path with
      | Some f => (R200 (FS.content f), [probed; audio_path])
      | None => (R500, [probed; audio_path])
      end
  | None => (R404, [probed])
  end.

End Api.

(* ===================================================================== *)
(** ** Python numbers on binary64 *)
(* ===================================================================== *)

Module PyFloat.

(** The integer part of [m * 2^e], rounded toward zero. *)
Definition trunc_mag (m : positive) (e : Z) : Z :=
  match e with
  | Z0 => Zpos m
  | Zpos p => Zpos m * 2 ^ Zpos p
  | Zneg p => Zpos m / 2 ^ Zpos p
  end.

(** [int(x)]: truncation toward zero; [None] is the [ValueError] or
    [OverflowError] that a NaN or an infinity raises. *)
Definition int (x : float) : option Z :=
  match Prim2SF x with
  | S754_zero _ => Some 0
  | S754_finite s m e =>
      Some (if s then - trunc_mag m e else trunc_mag m e)
  | S754_infinity _ | S754_nan => None
  end.

(** [m * 2^e] rounded to the nearest integer, ties to the even one. *)
Definition round_mag (m : positive) (e : Z) : Z :=
  match e with
  | Z0 => Zpos m
  | Zpos p => Zpos m * 2 ^ Zpos p
  | Zneg p =>
      let d := 2 ^ Zpos p in
      let q := Zpos m / d in
      let r := Zpos m mod d in
      if 2 * r <? d then q
      else if d <? 2 * r then q + 1
      else if Z.even q then q else q + 1
  end.

(** [round(x)] with one argument. *)
Definition round (x : float) : option Z :=
  match Prim2SF x with
  | S754_zero _ => Some 0
  | S754_finite s m e =>
      Some (if s then - round_mag m e else round_mag m e)
  | S754_infinity _ | S754_nan => None
  end.

(** [x * n] for an [int] literal [n] that binary64 holds exactly. *)
Definition mul_100 (x : float) : float := PrimFloat.mul x 100%float.

(** [a / b] on two [int]s that binary64 holds exactly (true division). *)
Definition div_int (a b : Z) : float :=
  PrimFloat.div (PrimFloat.of_uint63 (Uint63.of_Z a))
    (PrimFloat.of_uint63 (Uint63.of_Z b)).

End PyFloat.

(* ===================================================================== *)
(** ** [app/services/event_processor.py] *)
(* ===================================================================== *)

Module EventProcessor.
Import PyStr Events.

(** The settings [EventProcessor] and [StreamEvent.get_priority] read. *)
Record Config := {
  TWITCH_BITS_ENABLED : bool;
  TWITCH_BITS_MINIMUM : Z;
  TWITCH_SUBS_ENABLED : bool;
  TWITCH_GIFT_SUBS_ENABLED : bool;
  TWITCH_GIFT_SUBS_MINIMUM : Z;
  TWITCH_CHANNEL_POINTS_ENABLED : bool;
  TWITCH_CHANNEL_POINTS_REWARDS : list (list N);
  YOUTUBE_SUPERCHAT_ENABLED : bool;
  YOUTUBE_SUPERCHAT_MINIMUM_CENTS : Z;
  YOUTUBE_SUPERSTICKER_ENABLED : bool;
  YOUTUBE_MEMBERSHIP_ENABLED : bool;
  YOUTUBE_MEMBERSHIP_MILESTONE_ENABLED : bool;
  TTS_PROFANITY_FILTER : bool;
  PRIORITY_TWITCH_BITS : Z;
  PRIORITY_TWITCH_SUBS : Z;
  PRIORITY_TWITCH_GIFT_SUBS : Z;
  PRIORITY_TWITCH_CHANNEL_POINTS : Z;
  PRIORITY_YOUTUBE_SUPERCHAT : Z;
  PRIORITY_YOUTUBE_MEMBERSHIP : Z
}.

(** [StreamEvent.get_priority] *)
Definition get_priority (config : Config) (event : StreamEvent.t) : Z :=
  match StreamEvent.event_type event with
  | TWITCH_BITS => PRIORITY_TWITCH_BITS config
  | TWITCH_SUB_NEW | TWITCH_SUB_RESUB => PRIORITY_TWITCH_SUBS config
  | TWITCH_GIFT_SINGLE | TWITCH_GIFT_MULTI => PRIORITY_TWITCH_GIFT_SUBS config
  | TWITCH_CHANNEL_POINTS => PRIORITY_TWITCH_CHANNEL_POINTS config
  | YOUTUBE_SUPERCHAT | YOUTUBE_SUPERSTICKER => PRIORITY_YOUTUBE_SUPERCHAT config
  | YOUTUBE_MEMBERSHIP_NEW | YOUTUBE_MEMBERSHIP_MILESTONE =>
      PRIORITY_YOUTUBE_MEMBERSHIP config
  end.

Definition _is_event_enabled (config : Config) (event : StreamEvent.t) : bool :=
  match StreamEvent.event_type event with
  | TWITCH_BITS => TWITCH_BITS_ENABLED config
  | TWITCH_SUB_NEW | TWITCH_SUB_RESUB => TWITCH_SUBS_ENABLED config
  | TWITCH_GIFT_SINGLE | TWITCH_GIFT_MULTI => TWITCH_GIFT_SUBS_ENABLED config
  | TWITCH_CHANNEL_POINTS => TWITCH_CHANNEL_POINTS_ENABLED config
  | YOUTUBE_SUPERCHAT => YOUTUBE_SUPERCHAT_ENABLED config
  | YOUTUBE_SUPERSTICKER => YOUTUBE_SUPERSTICKER_ENABLED config
  | YOUTUBE_MEMBERSHIP_NEW => YOUTUBE_MEMBERSHIP_ENABLED config
  | YOUTUBE_MEMBERSHIP_MILESTONE => YOUTUBE_MEMBERSHIP_MILESTONE_ENABLED config
  end.

(** [int(event.amount * 100) >= YOUTUBE_SUPERCHAT_MINIMUM_CENTS] *)
Definition amount_meets (config : Config) (amount : float) : option bool :=
  match PyFloat.int (PyFloat.mul_100 amount) with
  | Some amount_cents =>
      Some (YOUTUBE_SUPERCHAT_MINIMUM_CENTS config <=? amount_cents)
  | None => None
  end.

(** [None] is the exception [int] raises on a NaN or an infinity. *)
Definition _meets_threshold (config : Config) (event : StreamEvent.t)
  : option bool :=
  match StreamEvent.data event with
  | TwitchBitsEvent amount _ _ =>
      Some (TWITCH_BITS_MINIMUM config <=? amount)
  | TwitchGiftSubEvent _ count _ _ _ =>
      Some (TWITCH_GIFT_SUBS_MINIMUM config <=? count)
  | TwitchChannelPointsEvent reward_id _ _ _ =>
      match TWITCH_CHANNEL_POINTS_REWARDS config with
      | [] => Some true
      | rewards => Some (bool_decide (reward_id ∈ rewards))
      end
  | YouTubeSuperChatEvent amount _ _ => amount_meets config amount
  | YouTubeSuperStickerEvent amount _ _ => amount_meets config amount
  | _ => Some true
  end.

Definition _clean_text (text : list N) : list N :=
  (* Remove Twitch emotes (words in the format :word:) *)
  let text := Re.sub Re.emote text in
  (* Remove URLs *)
  let text := Re.sub Re.url text in
  (* Remove excessive whitespace *)
  let text := strip (Re.sub Re.spaces text) in
  (* Remove special characters that might cause TTS issues *)
  let text := Re.sub Re.special text in
  (* Limit repeated characters *)
  let text := Re.sub Re.repeated text in
  text.

(** The processor with the two services it drives. *)
Record t := {
  config : Config;
  tts_service : TTS.t;
  queue_service : Queue.QueueService.t
}.

(** How [process_event] ends: with a value, or with an exception that
    it does not catch. *)
Inductive outcome :=
| Return (b : bool)
| Raise.

Section with_env.
Variable md5 sha256 : list N -> list N.
Variable backend : nat -> list N -> list N -> option (list Byte.byte).
    (** [_format_message] (template lookup and [str.format]) and
        [profanity.censor] are taken as given. *)
Variable _format_message : Config -> StreamEvent.t -> option (list N).
Variable censor : list N -> list N.

(** [message_id] is the UUID that the new [TTSMessage] draws. *)
Definition process_event (now : Z) (message_id : list N)
    (event : StreamEvent.t) (self : t) : outcome * t :=
  if negb (_is_event_enabled (config self) event) then (Return false, self)
  else
    match _meets_threshold (config self) event with
    | None => (Raise, self)
    | Some false => (Return false, self)
    | Some true =>
        match _format_message (config self) event with
        | None => (Return false, self)
        | Some text =>
            if negb (truthy text) then (Return false, self)
            else
              let text :=
                if TTS_PROFANITY_FILTER (config self) then censor text
                else text in
              let text := _clean_text text in
              match TTS.synthesize sha256 backend now text true
                      (tts_service self) with
              | (TTS.Ok audio_path, tts) =>
                  let message :=
                    {| TTSMessage.id := message_id;
                       TTSMessage.text := text;
                       TTSMessage.display_text := text;
                       TTSMessage.priority := get_priority (config self) event;
                       TTSMessage.event := Some event;
                       TTSMessage.audio_path := Some audio_path;
                       TTSMessage.created_at := now |} in
                  match Queue.QueueService.add_message md5 now message
                          (queue_service self) with
                  | (Queue.Return b, q) =>
                      (Return b,
                       {| config := config self; tts_service := tts;
                          queue_service := q |})
                  | (Queue.KeyError, q) =>
                      (Raise,
                       {| config := config self; tts_service := tts;
                          queue_service := q |})
                  end
              | (_, tts) =>
                  (Return false,
                   {| config := config self; tts_service := tts;
                      queue_service := queue_service self |})
              end
        end
    end.
End with_env.

End EventProcessor.

(* ===================================================================== *)
(** ** Runs of the queue service and what is observed of them *)
(* ===================================================================== *)

Module Session.
Import PyStr Events Queue Queue.QueueService.

(** The calls a client of the service can make, with the clock reading of
    those that read the clock. *)
Inductive call :=
| Offer (now : Z) (message : TTSMessage.t)
| Poll
| Complete (message_id : list N)
| Skip
| Clear (now : Z)
| Status (now : Z).

Definition step (md5 : list N -> list N) (s : t) (c : call) : t :=
  match c with
  | Offer now message => (add_message md5 now message s).2
  | Poll => (get_next s).2
  | Complete message_id => mark_complete message_id s
  | Skip => skip_current s
  | Clear now => clear_queue now s
  | Status now => (get_queue_status now s).2
  end.

(** The service after a sequence of calls, from its initial state. *)
Definition run (md5 : list N -> list N) (cfg : Config) (calls : list call) : t :=
  fold_left (step md5) calls (init cfg).

Definition is_queue_update (e : Emit) : bool :=
  match e with queue_update _ => true | _ => false end.

(** The size that a [queue_update] reports is within the bound it
    reports. *)
Definition status_ok (e : Emit) : Prop :=
  match e with
  | queue_update st => Z.of_nat (size st) <= max_size st
  | _ => True
  end.

(** The queue is within its bound, and so was every size reported to the
    clients. *)
Definition bounded (s : t) : Prop :=
  Z.of_nat (length (_queue s)) <= QUEUE_MAX_SIZE (config s) ∧
  Forall status_ok (emitted s).

(** The heap order of the queue, on the key its items are compared by. *)
Definition queue_heap (q : list PriorityItem.t) : Prop :=
  HeapOrder.heap_ok PriorityItem.priority q.

(** Every item of the queue is the [PriorityItem] of its message. *)
Definition queue_items (q : list PriorityItem.t) : Prop :=
  Forall (fun i => i = PriorityItem.init (PriorityItem.message i)) q.

Definition queue_ok (q : list PriorityItem.t) : Prop :=
  queue_heap q ∧ queue_items q.

(** What [_send_next] emits for the message it dispatches. *)
Definition ready_of (m : TTSMessage.t) : list Emit :=
  match TTSMessage.audio_path m with
  | Some audio_path =>
      if truthy audio_path then
        [tts_ready (TTSMessage.id m) (audio_id_of audio_path)
           (TTSMessage.str_or (TTSMessage.display_text m) (TTSMessage.text m))
           (option_map (fun e => EventType_value (StreamEvent.event_type e))
              (TTSMessage.event m))
           (option_map (fun e => Platform_value (StreamEvent.platform e))
              (TTSMessage.event m))]
      else []
  | None => []
  end.

(** The rate-limit check of [add_message] lets the message through. *)
Definition rate_check_passes (now : Z) (m : TTSMessage.t) (s : t) : Prop :=
  match TTSMessage.event m with
  | Some ev =>
      (RateLimiter.is_allowed now (Platform_value (StreamEvent.platform ev))
         (_rate_limiters (StreamEvent.platform ev) s)).1 = true
  | None => True
  end.

(** The priorities of the queued messages, in heap order. *)
Definition priorities (s : t) : list Z :=
  map (fun i => TTSMessage.priority (PriorityItem.message i)) (_queue s).

End Session.

(* ===================================================================== *)
(** ** The specification's own words, for comparison *)
(* ===================================================================== *)

Module Spec.
Import Events.

(** Section 4.4: "evict the entry with the lowest priority (and, on tie,
    the oldest)". *)
Definition lower (a b : TTSMessage.t) : bool :=
  (TTSMessage.priority a <? TTSMessage.priority b)
  || (TTSMessage.priority a =? TTSMessage.priority b)
     && (TTSMessage.created_at a <? TTSMessage.created_at b).

Fixpoint lowest (q : list TTSMessage.t) : option TTSMessage.t :=
  match q with
  | [] => None
  | m :: r =>
      match lowest r with
      | Some l => if lower l m then Some l else Some m
      | None => Some m
      end
  end.

(** Section 4.4: "When full, evict the entry with the lowest priority to
    make room for a new one if the new one has strictly higher priority;
    otherwise reject the new one."  The result says whether the message
    was accepted and what the queue then holds. *)
Definition offer (bound : Z) (q : list TTSMessage.t) (m : TTSMessage.t)
  : bool * list TTSMessage.t :=
  if Z.of_nat (length q) <? bound then (true, q ++ [m])
  else
    match lowest q with
    | Some l =>
        if TTSMessage.priority l <? TTSMessage.priority m then
          (true,
           List.filter
             (fun x => negb (bool_decide (TTSMessage.id x = TTSMessage.id l))) q
           ++ [m])
        else (false, q)
    | None => (false, q)
    end.

(** Section 4.1, step 2: "round(amount x 100) >= min_cents". *)
Definition amount_meets (min_cents : Z) (amount : float) : option bool :=
  match PyFloat.round (PyFloat.mul_100 amount) with
  | Some cents => Some (min_cents <=? cents)
  | None => None
  end.

End Spec.

(* ===================================================================== *)
(** ** Shapes of text *)
(* ===================================================================== *)

Module Text.
Import PyStr.

(** No colon and none of the characters that [_clean_text] removes as
    special. *)
Definition plain_char (c : N) : Prop :=
  c ≠ Re.colon ∧ Re.is_special c = false.

Definition plain (s : list N) : Prop := Forall plain_char s.

(** The matcher [m] matches at no position of [s]. *)
Fixpoint unmatched (m : list N -> option (list N * nat)) (s : list N) : Prop :=
  match s with
  | [] => True
  | _ :: r => m s = None ∧ unmatched m r
  end.

(** [s] is empty or starts with a character that is not whitespace. *)
Definition starts_solid (s : list N) : bool :=
  match s with
  | c :: _ => negb (is_space c)
  | [] => true
  end.

(** Every whitespace character of [s] is one space that is not followed
    by whitespace. *)
Fixpoint collapsed (s : list N) : bool :=
  match s with
  | [] => true
  | c :: r =>
      (if is_space c then (c =? Re.space)%N && starts_solid r else true)
      && collapsed r
  end.

(** As [collapsed], and no space ends the text. *)
Fixpoint spaced (s : list N) : bool :=
  match s with
  | [] => true
  | c :: r =>
      (if is_space c
       then (c =? Re.space)%N && starts_solid r && negb (bool_decide (r = []))
       else true)
      && spaced r
  end.

(** Text as the whitespace step of [_clean_text] leaves it. *)
Definition normalized (s : list N) : bool := starts_solid s && spaced s.

End Text.

(* ===================================================================== *)
(** ** Shapes of identifiers and of the cache directory *)
(* ===================================================================== *)

Module Layout.
Import PyStr.

Definition dot : N := chr ".".
Definition slash : N := chr "/".
Definition backslash : N := chr "\".

(** No two dots in a row. *)
Fixpoint no_dotdot (s : list N) : bool :=
  match s with
  | a :: r =>
      negb ((a =? dot)%N
            && match r with b :: _ => (b =? dot)%N | [] => false end)
      && no_dotdot r
  | [] => true
  end.

Definition is_hex (c : N) : bool :=
  ((48 <=? c) && (c <=? 57) || (97 <=? c) && (c <=? 102))%N.

(** Section 6, persisted state layout: "the cache directory contains
    [<16-hex>.wav] files". *)
Definition cache_layout (tts : TTS.t) : Prop :=
  forall name f,
    TTS.fs tts !! (FS.resolve (TTS.cache_path tts) ++ [name]) = Some f ->
    exists key,
      name = key ++ lit ".wav" ∧ length key = 16%nat ∧
      forallb is_hex key = true.

End Layout.

(* ===================================================================== *)
(** ** Concrete inputs *)
(* ===================================================================== *)

Module Examples.
Import PyStr Events Queue.

(** A stand-in for the hash functions that makes no two texts collide. *)
Definition hash (s : list N) : list N := s.

Definition config_of (bound : Z) : Config :=
  {| QUEUE_MAX_SIZE := bound;
     QUEUE_DUPLICATE_WINDOW := 5;
     RATE_LIMIT_TWITCH := 1;
     RATE_LIMIT_YOUTUBE := 30 |}.

Definition bits_event (name : string) : StreamEvent.t :=
  new_event (lit name) (lit "Alice") 0
    (TwitchBitsEvent 100 (lit name) false).

(** A message whose text and identifier are [name], with a synthesized
    artifact. *)
Definition message (name : string) (priority : Z)
    (event : option StreamEvent.t) : TTSMessage.t :=
  {| TTSMessage.id := lit name;
     TTSMessage.text := lit name;
     TTSMessage.display_text := [];
     TTSMessage.priority := priority;
     TTSMessage.event := event;
     TTSMessage.audio_path :=
       Some (lit "/app/data/audio_cache/" ++ lit name ++ lit ".wav");
     TTSMessage.created_at := 0 |}.

Definition M1 : TTSMessage.t := message "M1" 1 None.
Definition M2 : TTSMessage.t := message "M2" 2 None.
Definition M3 : TTSMessage.t := message "M3" 3 None.
Definition M4 : TTSMessage.t := message "M4" 1 None.

(** Scenario S5: bound 2, offers of priorities 1, 3, 2 on a new service. *)
Definition after_S5 : QueueService.t :=
  Session.run hash (config_of 2)
    [Session.Offer 0 M1; Session.Offer 0 M3; Session.Offer 0 M2].

(** Scenario S6: [M1] is in flight and [M3] waits in the queue. *)
Definition pending_M1 : QueueService.t :=
  Session.run hash (config_of 5) [Session.Offer 0 M1; Session.Offer 0 M3].

(** A service with nothing in flight and two messages in its heap. *)
Definition idle_with_two : QueueService.t :=
  QueueService.with_queue [PriorityItem.init M3; PriorityItem.init M2]
    (QueueService.init (config_of 5)).

(** Twitch alerts under a rate of one per minute. *)
Definition T0 : TTSMessage.t := message "T0" 2 (Some (bits_event "T0")).
Definition T1 : TTSMessage.t := message "T1" 2 (Some (bits_event "T1")).
Definition T1_again : TTSMessage.t := message "T1" 2 (Some (bits_event "T1b")).

Definition after_T0 : QueueService.t :=
  Session.run hash (config_of 5) [Session.Offer 0 T0].


(** The processor settings of the tests, with a Super Chat minimum of
    [min_cents]. *)
Definition processor_config (min_cents : Z) : EventProcessor.Config :=
  {| EventProcessor.TWITCH_BITS_ENABLED := true;
     EventProcessor.TWITCH_BITS_MINIMUM := 100;
     EventProcessor.TWITCH_SUBS_ENABLED := true;
     EventProcessor.TWITCH_GIFT_SUBS_ENABLED := true;
     EventProcessor.TWITCH_GIFT_SUBS_MINIMUM := 1;
     EventProcessor.TWITCH_CHANNEL_POINTS_ENABLED := false;
     EventProcessor.TWITCH_CHANNEL_POINTS_REWARDS := [];
     EventProcessor.YOUTUBE_SUPERCHAT_ENABLED := true;
     EventProcessor.YOUTUBE_SUPERCHAT_MINIMUM_CENTS := min_cents;
     EventProcessor.YOUTUBE_SUPERSTICKER_ENABLED := true;
     EventProcessor.YOUTUBE_MEMBERSHIP_ENABLED := true;
     EventProcessor.YOUTUBE_MEMBERSHIP_MILESTONE_ENABLED := true;
     EventProcessor.TTS_PROFANITY_FILTER := false;
     EventProcessor.PRIORITY_TWITCH_BITS := 2;
     EventProcessor.PRIORITY_TWITCH_SUBS := 3;
     EventProcessor.PRIORITY_TWITCH_GIFT_SUBS := 2;
     EventProcessor.PRIORITY_TWITCH_CHANNEL_POINTS := 1;
     EventProcessor.PRIORITY_YOUTUBE_SUPERCHAT := 2;
     EventProcessor.PRIORITY_YOUTUBE_MEMBERSHIP := 3 |}.

Definition superchat (amount : float) : StreamEvent.t :=
  new_event (lit "e1") (lit "BigDonor") 0
    (YouTubeSuperChatEvent amount (lit "$") (lit "Amazing content!")).

Definition supersticker (amount : float) : StreamEvent.t :=
  new_event (lit "e2") (lit "BigDonor") 0
    (YouTubeSuperStickerEvent amount (lit "$") (lit "sticker")).

(** 1.15, as [from_livechat] gets it from [amountMicros = 1150000]. *)
Definition amount_1_15 : float := PyFloat.div_int 1150000 1000000.

(** A speech backend whose [n]-th answer is [n + 1] zero bytes, so that no
    two answers are the same. *)
Definition backend (n : nat) (text voice : list N) : option (list Byte.byte) :=
  Some (repeat Byte.x00 (S n)).

Definition tts_config (max_size_mb : Z) : TTS.Config :=
  {| TTS.AUDIO_CACHE_MAX_SIZE_MB := max_size_mb;
     TTS.AUDIO_CACHE_TTL_HOURS := 24;
     TTS.TTS_VOICE := lit "en_GB-alan-medium";
     TTS.TTS_SPEED := lit "1.0";
     TTS.TTS_MAX_MESSAGE_LENGTH := 300 |}.

Definition cache_dir : FS.Path := [lit "app"; lit "data"; lit "audio_cache"].

(** A service on an empty cache directory. *)
Definition tts_empty (max_size_mb : Z) : TTS.t :=
  {| TTS.config := tts_config max_size_mb;
     TTS.cache_path := cache_dir;
     TTS.fs := ∅;
     TTS.backend_calls := [] |}.

(** A service whose cache holds one artifact. *)
Definition tts_one : TTS.t :=
  {| TTS.config := tts_config 100;
     TTS.cache_path := cache_dir;
     TTS.fs :=
       {[ cache_dir ++ [lit "0123456789abcdef.wav"]
          := {| FS.content := [Byte.x52; Byte.x49; Byte.x46; Byte.x46];
                FS.st_mtime := 0 |} ]};
     TTS.backend_calls := [] |}.

End Examples.

(* ===================================================================== *)
(** ** What is observed of the dispatch of messages *)
(* ===================================================================== *)

Module Dispatch.
Import PyStr Events Queue Queue.QueueService Session.

(** Nothing waits in the queue while no message is in flight. *)
Definition busy (s : t) : Prop :=
  _current_message s = None -> _queue s = [].

(** The identifier of the message of a queue entry. *)
Definition item_id (i : PriorityItem.t) : list N :=
  TTSMessage.id (PriorityItem.message i).

Definition ids (q : list PriorityItem.t) : list (list N) := map item_id q.

(** The registry [_messages] holds exactly the queued messages, under
    their identifiers, and no identifier is queued twice. *)
Definition registry_ok (s : t) : Prop :=
  NoDup (ids (_queue s)) ∧
  (forall item, item ∈ _queue s ->
     _messages s !! item_id item = Some (PriorityItem.message item)) ∧
  (forall k m, _messages s !! k = Some m ->
     exists item,
       item ∈ _queue s ∧ PriorityItem.message item = m ∧ TTSMessage.id m = k).

(** The identifiers of the messages that a sequence of calls offers. *)
Definition offered (calls : list call) : list (list N) :=
  omap (fun c => match c with
                 | Offer _ m => Some (TTSMessage.id m)
                 | _ => None
                 end) calls.

(** The call raises [KeyError]. *)
Definition raises (md5 : list N -> list N) (s : t) (c : call) : bool :=
  match c with
  | Offer now m =>
      match (add_message md5 now m s).1 with
      | KeyError => true
      | Return _ => false
      end
  | _ => false
  end.

(** Some call of the sequence raises, when the calls are made one after
    the other from [s]. *)
Fixpoint any_raises (md5 : list N -> list N) (s : t) (calls : list call)
  : bool :=
  match calls with
  | [] => false
  | c :: r => raises md5 s c || any_raises md5 (step md5 s c) r
  end.

(** The identifiers that the service has announced to the clients with
    [tts_ready], in the order of the announcements. *)
Definition announced (s : t) : list (list N) :=
  omap (fun e => match e with
                 | tts_ready id _ _ _ _ => Some id
                 | _ => None
                 end) (emitted s).

End Dispatch.

(* ===================================================================== *)
(** ** What is observed of a rate limiter *)
(* ===================================================================== *)

Module Limits.
Import Queue.

(** One call of [is_allowed] for [key] at the clock reading [now], with
    the readings at which the calls so far were allowed. *)
Definition ask (key : list N) (st : RateLimiter.t * list Z) (now : Z)
  : RateLimiter.t * list Z :=
  let '(ok, r) := RateLimiter.is_allowed now key st.1 in
  (r, if ok then st.2 ++ [now] else st.2).

(** A new limiter after calls of [is_allowed] for [key] at the readings
    [times], and the readings at which it allowed the call. *)
Definition asks (rate : Z) (key : list N) (times : list Z)
  : RateLimiter.t * list Z :=
  fold_left (ask key) times (RateLimiter.init rate, []).

(** The allowed calls that the window ending at [now] still covers. *)
Definition recent (window now : Z) (granted : list Z) : list Z :=
  filter (fun t => now - window < t) granted.

End Limits.

(* ===================================================================== *)
(** ** What is observed of the audio cache *)
(* ===================================================================== *)

Module Cache.
Import PyStr.

(** The test that [glob_wav] applies to a path: a file directly in
    [dir] whose name ends in [.wav]. *)
Definition is_artifact (dir : FS.Path) (p : FS.Path) : bool :=
  match reverse p with
  | name :: parent =>
      bool_decide (reverse parent = FS.resolve dir)
      && FS.endswith (lit ".wav") name
  | [] => false
  end.

(** The artifacts of the cache directory with what [stat] says of each,
    as [_cleanup_cache] lists them. *)
Definition listing (dir : FS.Path) (f : FS.t) : list (FS.Path * FS.File) :=
  TTS.with_stat f (FS.glob_wav dir f).

Definition sizes (l : list (FS.Path * FS.File)) : Z :=
  fold_right Z.add 0 (map (fun pf => FS.st_size pf.2) l).


(** [now - mtime > ttl] *)
Definition expired (self : TTS.t) (now : Z) (f : FS.File) : bool :=
  TTS.AUDIO_CACHE_TTL_HOURS (TTS.config self) * 3600 <? now - FS.st_mtime f.

(** [max_size] of [_cleanup_cache], in bytes. *)
Definition max_size (self : TTS.t) : Z :=
  TTS.AUDIO_CACHE_MAX_SIZE_MB (TTS.config self) * 1024 * 1024.

(** The file system without the files at the paths [ps]. *)
Definition unlink_all (ps : list FS.Path) (f : FS.t) : FS.t :=
  fold_left (fun f p => FS.unlink p f) ps f.


End Cache.

(* ===================================================================== *)
(** ** A processor on concrete services *)
(* ===================================================================== *)

Module Samples.
Import PyStr Events.

(** A stand-in for [_format_message] that announces who cheered. *)
Definition format_event (config : EventProcessor.Config)
    (event : StreamEvent.t) : option (list N) :=
  Some (StreamEvent.username event ++ lit " cheered!").

(** A profanity filter that finds nothing to censor. *)
Definition censor (text : list N) : list N := text.

(** A processor on an empty cache and a new queue. *)
Definition processor : EventProcessor.t :=
  {| EventProcessor.config := Examples.processor_config 100;
     EventProcessor.tts_service := Examples.tts_empty 100;
     EventProcessor.queue_service :=
       Queue.QueueService.init (Examples.config_of 5) |}.

End Samples.

(* ===================================================================== *)
(** ** What is observed of the checks of [add_message] over a run *)
(* ===================================================================== *)

Module Guards.
Import PyStr Events Queue Queue.QueueService Session.

(** The clock reading of a call that reads the clock. *)
Definition clock (c : call) : option Z :=
  match c with
  | Offer now _ | Clear now | Status now => Some now
  | _ => None
  end.

Definition clocks (calls : list call) : list Z := omap clock calls.

(** The clock readings of the offers. *)
Definition offer_clocks (calls : list call) : list Z :=
  omap (fun c => match c with Offer now _ => Some now | _ => None end) calls.

(** The setting that limits the alerts of a platform. *)
Definition rate_limit (p : Platform) (cfg : Config) : Z :=
  match p with
  | TWITCH => RATE_LIMIT_TWITCH cfg
  | YOUTUBE => RATE_LIMIT_YOUTUBE cfg
  end.

Definition same_platform (a b : Platform) : bool :=
  match a, b with
  | TWITCH, TWITCH | YOUTUBE, YOUTUBE => true
  | _, _ => false
  end.

(** [[now]] when the offer of [m] at [now] was an alert of platform [p]
    that [add_message] accepted. *)
Definition accepted_here (p : Platform) (now : Z) (m : TTSMessage.t)
    (o : outcome) : list Z :=
  match TTSMessage.event m, o with
  | Some ev, Return true =>
      if same_platform (StreamEvent.platform ev) p then [now] else []
  | _, _ => []
  end.

(** The clock readings at which alerts of platform [p] were accepted,
    when the calls are made one after the other from [s]. *)
Fixpoint accepted (md5 : list N -> list N) (p : Platform) (s : t)
    (calls : list call) : list Z :=
  match calls with
  | [] => []
  | c :: r =>
      match c with
      | Offer now m => accepted_here p now m (add_message md5 now m s).1
      | _ => []
      end ++ accepted md5 p (step md5 s c) r
  end.

(** What a limiter holds for [key] covers the accepted calls [a] of the
    last [window] seconds before [c], and is within the rate [R]. *)
Definition covers (R c : Z) (key : list N) (a : list Z) (rl : RateLimiter.t)
  : Prop :=
  RateLimiter.window rl = 60 ∧ RateLimiter.rate rl = R ∧
  Limits.recent 60 c a
    `sublist_of` default [] (RateLimiter.tokens rl !! key) ∧
  Z.of_nat (length (default [] (RateLimiter.tokens rl !! key)))
  <= Z.max 0 R.

End Guards.

(* ===================================================================== *)
(** * Theory *)
(* ===================================================================== *)

(* ===================================================================== *)
(** ** The binary heap of [heapq]

    [heappush] and [heappop] permute the elements they are given and keep
    the heap order, for any ordering [lt] that compares an integer key. *)
(* ===================================================================== *)

Import Heapq.

Lemma parent_spec (pos : nat) :
  (0 < pos)%nat ->
  (2 * ((pos - 1) / 2) + 1 = pos ∨ 2 * ((pos - 1) / 2) + 2 = pos)%nat.
Proof.
  intros H. pose proof (Nat.div_mod_eq (pos - 1) 2).
  pose proof (Nat.mod_upper_bound (pos - 1) 2). lia.
Qed.

Section heap_theory.
Context {A : Type} (lt : A -> A -> bool) (key : A -> Z).
Hypothesis lt_key : forall a b, lt a b = (key a <? key b).

Local Abbreviation heap_ok := (HeapOrder.heap_ok key).
Local Abbreviation hole_inv := (HeapOrder.hole_inv key).
Local Abbreviation up_inv := (HeapOrder.up_inv key).

(** *** Exchanging two positions of a list *)

Lemma insert_cons_perm (l : list A) (j : nat) (a b : A) :
  l !! j = Some b -> b :: <[j := a]> l ≡ₚ a :: l.
Proof.
  revert j. induction l as [|x l IH]; intros [|j] H; simplify_eq/=.
  - apply perm_swap.
  - rewrite (perm_swap x b), (IH j H). apply perm_swap.
Qed.

Lemma insert_cons_swap_perm (l : list A) (i : nat) (a b : A) :
  (i < length l)%nat -> a :: <[i := b]> l ≡ₚ b :: <[i := a]> l.
Proof.
  revert i. induction l as [|x l IH]; intros [|i] H; simpl in *; try lia.
  - apply perm_swap.
  - rewrite (perm_swap x a), (IH i) by lia. rewrite (perm_swap x b). done.
Qed.

Lemma insert_swap_perm (l : list A) (i j : nat) (a b : A) :
  i ≠ j -> l !! j = Some b -> (i < length l)%nat ->
  <[j := a]> (<[i := b]> l) ≡ₚ <[i := a]> l.
Proof.
  revert i j. induction l as [|x l IH]; intros [|i] [|j] Hne Hj Hi;
    simplify_eq/=; try lia.
  - by apply insert_cons_perm.
  - apply insert_cons_swap_perm. lia.
  - f_equiv. apply IH; [congruence|done|lia].
Qed.

(** *** The equations of the loops *)

Lemma _siftdown_loop_0 (h : list A) start pos new :
  _siftdown_loop lt 0 h start pos new = <[pos := new]> h.
Proof. reflexivity. Qed.

Lemma _siftdown_loop_S f (h : list A) start pos new :
  _siftdown_loop lt (S f) h start pos new =
  if (start <? pos)%nat then
    match h !! ((pos - 1) / 2)%nat with
    | Some parent =>
        if lt new parent then
          _siftdown_loop lt f (<[pos := parent]> h) start ((pos - 1) / 2) new
        else <[pos := new]> h
    | None => <[pos := new]> h
    end
  else <[pos := new]> h.
Proof. reflexivity. Qed.

Lemma _siftup_loop_S f (h : list A) endpos pos :
  _siftup_loop lt (S f) h endpos pos =
  if (2 * pos + 1 <? endpos)%nat then
    let cp :=
      if (2 * pos + 1 + 1 <? endpos)%nat then
        match h !! (2 * pos + 1)%nat, h !! (2 * pos + 1 + 1)%nat with
        | Some l, Some r =>
            if negb (lt l r) then (2 * pos + 1 + 1)%nat else (2 * pos + 1)%nat
        | _, _ => (2 * pos + 1)%nat
        end
      else (2 * pos + 1)%nat in
    match h !! cp with
    | Some c => _siftup_loop lt f (<[pos := c]> h) endpos cp
    | None => (h, pos)
    end
  else (h, pos).
Proof. reflexivity. Qed.

(** *** [heappush] and [heappop] permute *)

Lemma _siftdown_loop_length fuel (h : list A) start pos new :
  length (_siftdown_loop lt fuel h start pos new) = length h.
Proof.
  revert h pos. induction fuel as [|f IH]; intros h pos.
  - by rewrite _siftdown_loop_0, length_insert.
  - rewrite _siftdown_loop_S. repeat case_match; rewrite ?IH, ?length_insert; done.
Qed.

Lemma _siftdown_loop_perm fuel (h : list A) start pos new :
  (pos < length h)%nat ->
  _siftdown_loop lt fuel h start pos new ≡ₚ <[pos := new]> h.
Proof.
  revert h pos. induction fuel as [|f IH]; intros h pos Hpos; [done|].
  rewrite _siftdown_loop_S.
  destruct (start <? pos)%nat eqn:Hs; [|done].
  destruct (h !! ((pos - 1) / 2)%nat) as [parent|] eqn:Hp; [|done].
  destruct (lt new parent); [|done].
  apply Nat.ltb_lt in Hs. pose proof (parent_spec pos).
  rewrite IH by (rewrite length_insert; lia).
  apply insert_swap_perm; [lia|done|done].
Qed.

Lemma heappush_perm (h : list A) x : heappush lt h x ≡ₚ x :: h.
Proof.
  unfold heappush, _siftdown.
  rewrite lookup_app_r, Nat.sub_diag by lia. simpl.
  rewrite _siftdown_loop_perm by (rewrite length_app; simpl; lia).
  rewrite insert_app_r_alt, Nat.sub_diag by lia. simpl.
  by rewrite Permutation_app_comm.
Qed.

Lemma heappush_length (h : list A) x :
  length (heappush lt h x) = S (length h).
Proof. by rewrite heappush_perm. Qed.

Lemma _siftup_loop_spec fuel (h : list A) pos h' leaf :
  (pos < length h)%nat ->
  _siftup_loop lt fuel h (length h) pos = (h', leaf) ->
  length h' = length h ∧ (leaf < length h)%nat ∧
  forall new, <[leaf := new]> h' ≡ₚ <[pos := new]> h.
Proof.
  revert h pos. induction fuel as [|f IH]; intros h pos Hpos.
  - intros [= <- <-]. done.
  - rewrite _siftup_loop_S.
    destruct (2 * pos + 1 <? length h)%nat eqn:Hc; [|by intros [= <- <-]].
    cbv zeta. set (cp := if (_ <? _)%nat then _ else _).
    destruct (h !! cp) as [c|] eqn:Hcp; [|by intros [= <- <-]].
    intros Hloop.
    assert (Hcpl : (cp < length h)%nat) by (by eapply lookup_lt_Some).
    assert (Hne : pos ≠ cp).
    { subst cp. repeat case_match; lia. }
    rewrite <-(length_insert h pos c) in Hloop.
    apply IH in Hloop as (Hl & Hleaf & Hperm); [|by rewrite length_insert].
    rewrite length_insert in Hl, Hleaf. split_and!; [done..|].
    intros new. rewrite Hperm. by apply insert_swap_perm.
Qed.

Lemma _siftup_perm (h : list A) pos : _siftup lt h pos ≡ₚ h.
Proof.
  unfold _siftup. destruct (h !! pos) as [new|] eqn:Hpos; [|done].
  destruct (_siftup_loop _ _ _ _ _) as [h' leaf] eqn:Hloop.
  apply _siftup_loop_spec in Hloop as (Hl & Hleaf & Hperm);
    [|by eapply lookup_lt_Some].
  unfold _siftdown. rewrite list_lookup_insert_eq by lia.
  rewrite _siftdown_loop_perm by (rewrite length_insert; lia).
  rewrite list_insert_insert_eq, Hperm. by rewrite list_insert_id.
Qed.

Lemma pop_last_Some (h : list A) x b :
  pop_last h = Some (x, b) -> h = b ++ [x].
Proof.
  unfold pop_last. destruct (h !! _) as [y|] eqn:Hy; [|done].
  intros [= -> <-].
  assert (length h - 1 < length h)%nat by (by eapply lookup_lt_Some).
  rewrite <-(take_drop (length h - 1) h) at 1. f_equal.
  apply list_eq. intros [|i]; rewrite lookup_drop; simpl.
  - by rewrite Nat.add_0_r.
  - apply lookup_ge_None. lia.
Qed.

Lemma pop_last_None (h : list A) : pop_last h = None -> h = [].
Proof.
  unfold pop_last. destruct (h !! _) eqn:Hy; [done|]. intros _.
  apply lookup_ge_None in Hy. destruct h; [done|simpl in *; lia].
Qed.

Lemma heappop_perm (h : list A) x h' :
  heappop lt h = Some (x, h') -> h ≡ₚ x :: h'.
Proof.
  unfold heappop. destruct (pop_last h) as [[l b]|] eqn:Hp; [|done].
  apply pop_last_Some in Hp as ->.
  destruct b as [|r b]; intros [= <- <-]; [done|].
  rewrite _siftup_perm. simpl. f_equiv.
  by rewrite Permutation_app_comm.
Qed.

Lemma heappop_None (h : list A) : heappop lt h = None <-> h = [].
Proof.
  split.
  - unfold heappop. destruct (pop_last h) as [[l b]|] eqn:Hp.
    + by destruct b.
    + intros _. by apply pop_last_None.
  - by intros ->.
Qed.

(** *** [heappush] and [heappop] keep the heap order *)

(** Placing [new] in the hole ends the loop of [_siftdown] in heap order. *)
Lemma hole_fill (h : list A) pos new :
  (pos < length h)%nat -> hole_inv h pos new ->
  (pos = 0%nat ∨ exists p, h !! ((pos - 1) / 2)%nat = Some p ∧ key p <= key new) ->
  heap_ok (<[pos := new]> h).
Proof.
  intros Hlen (Ha & Hb & Hc) Hex i x p Hi Hx Hp.
  pose proof (parent_spec i Hi).
  destruct (decide (i = pos)) as [->|Hne].
  - rewrite list_lookup_insert_eq in Hx by done. injection Hx as <-.
    rewrite list_lookup_insert_ne in Hp by lia.
    destruct Hex as [->|(p' & Hp' & Hle)]; [lia|]. by simplify_eq.
  - rewrite list_lookup_insert_ne in Hx by done.
    destruct (decide (((i - 1) / 2)%nat = pos)) as [Hpar|Hpar].
    + rewrite Hpar, list_lookup_insert_eq in Hp by done. simplify_eq.
      by eapply Hb.
    + rewrite list_lookup_insert_ne in Hp by done. by eapply Ha.
Qed.

(** Moving the parent down keeps the invariant of the loop. *)
Lemma hole_step (h : list A) pos new par :
  (0 < pos)%nat -> (pos < length h)%nat -> hole_inv h pos new ->
  h !! ((pos - 1) / 2)%nat = Some par -> key new < key par ->
  hole_inv (<[pos := par]> h) ((pos - 1) / 2) new.
Proof.
  intros H0 Hlen (Ha & Hb & Hc) Hpar Hlt.
  pose proof (parent_spec pos H0) as Hpp.
  split_and!.
  - intros i x p Hi Hne Hx Hp. pose proof (parent_spec i Hi).
    destruct (decide (i = pos)) as [->|Hip].
    + rewrite list_lookup_insert_eq in Hx by done.
      rewrite list_lookup_insert_ne in Hp by lia. simplify_eq. lia.
    + rewrite list_lookup_insert_ne in Hx by done.
      destruct (decide (((i - 1) / 2)%nat = pos)) as [Hpi|Hpi].
      * rewrite Hpi, list_lookup_insert_eq in Hp by done. simplify_eq.
        by eapply (Hc i).
      * rewrite list_lookup_insert_ne in Hp by done. by eapply Ha.
  - intros i x Hi Hpi Hx. pose proof (parent_spec i Hi).
    destruct (decide (i = pos)) as [->|Hip].
    + rewrite list_lookup_insert_eq in Hx by done. simplify_eq. lia.
    + rewrite list_lookup_insert_ne in Hx by done.
      assert (key par <= key x); [|lia].
      eapply (Ha i); [done..|]. by rewrite Hpi.
  - intros i x g Hi Hpp0 Hpi Hx Hg. pose proof (parent_spec i Hi).
    pose proof (parent_spec _ Hpp0).
    rewrite list_lookup_insert_ne in Hg by lia.
    assert (key g <= key par).
    { eapply (Ha ((pos - 1) / 2)%nat); [done|lia|done..]. }
    destruct (decide (i = pos)) as [->|Hip].
    + rewrite list_lookup_insert_eq in Hx by done. by simplify_eq.
    + rewrite list_lookup_insert_ne in Hx by done.
      assert (key par <= key x); [|lia].
      eapply (Ha i); [done..|]. by rewrite Hpi.
Qed.

Lemma _siftdown_loop_heap fuel (h : list A) pos new :
  (pos <= fuel)%nat -> (pos < length h)%nat -> hole_inv h pos new ->
  heap_ok (_siftdown_loop lt fuel h 0 pos new).
Proof.
  revert h pos. induction fuel as [|f IH]; intros h pos Hf Hlen Hinv.
  - rewrite _siftdown_loop_0. apply hole_fill; [done..|]. left. lia.
  - rewrite _siftdown_loop_S.
    destruct (0 <? pos)%nat eqn:H0.
    2:{ apply Nat.ltb_ge in H0. apply hole_fill; [done..|]. left. lia. }
    apply Nat.ltb_lt in H0. pose proof (parent_spec pos H0).
    destruct (h !! ((pos - 1) / 2)%nat) as [par|] eqn:Hpar.
    2:{ apply lookup_ge_None in Hpar. lia. }
    rewrite lt_key. destruct (key new <? key par) eqn:Hlt.
    + apply Z.ltb_lt in Hlt. apply IH; [lia|rewrite length_insert; lia|].
      by apply hole_step.
    + apply Z.ltb_ge in Hlt. apply hole_fill; [done..|]. right. eauto.
Qed.

Lemma heappush_heap (h : list A) x : heap_ok h -> heap_ok (heappush lt h x).
Proof.
  intros Hh. unfold heappush, _siftdown.
  rewrite lookup_app_r, Nat.sub_diag by lia. simpl.
  apply _siftdown_loop_heap; [done|rewrite length_app; simpl; lia|].
  split_and!.
  - intros i y p Hi Hne Hy Hp. pose proof (parent_spec i Hi).
    assert (i < length h)%nat.
    { apply lookup_lt_Some in Hy. rewrite length_app in Hy. simpl in Hy. lia. }
    rewrite lookup_app_l in Hy, Hp by lia. by eapply Hh.
  - intros i y Hi Hpi Hy. pose proof (parent_spec i Hi).
    apply lookup_lt_Some in Hy. rewrite length_app in Hy. simpl in Hy. lia.
  - intros i y g Hi _ Hpi Hy _. pose proof (parent_spec i Hi).
    apply lookup_lt_Some in Hy. rewrite length_app in Hy. simpl in Hy. lia.
Qed.

(** The child chosen by the loop of [_siftup] is the smaller one. *)
Lemma smaller_child (h : list A) pos c :
  let cp :=
    if (2 * pos + 1 + 1 <? length h)%nat then
      match h !! (2 * pos + 1)%nat, h !! (2 * pos + 1 + 1)%nat with
      | Some l, Some r =>
          if negb (lt l r) then (2 * pos + 1 + 1)%nat else (2 * pos + 1)%nat
      | _, _ => (2 * pos + 1)%nat
      end
    else (2 * pos + 1)%nat in
  h !! cp = Some c ->
  ((cp - 1) / 2)%nat = pos ∧
  forall i y, (0 < i)%nat -> ((i - 1) / 2)%nat = pos -> h !! i = Some y ->
    key c <= key y.
Proof.
  intros cp Hc.
  assert (forall i, (0 < i)%nat -> ((i - 1) / 2)%nat = pos ->
            i = (2 * pos + 1)%nat ∨ i = (2 * pos + 1 + 1)%nat) as Hkids.
  { intros i Hi Hpi. pose proof (parent_spec i Hi). lia. }
  assert (((cp - 1) / 2)%nat = pos) as Hcp.
  { assert (cp = (2 * pos + 1)%nat ∨ cp = (2 * pos + 1 + 1)%nat) as Hor.
    { subst cp. repeat case_match; auto. }
    assert (0 < cp)%nat as H0 by lia.
    pose proof (parent_spec cp H0). lia. }
  split; [done|]. intros i y Hi Hpi Hy.
  specialize (Hkids i Hi Hpi). subst cp.
  destruct (2 * pos + 1 + 1 <? length h)%nat eqn:Hr.
  - destruct (h !! (2 * pos + 1)%nat) as [l|] eqn:Hl;
      [|destruct Hkids as [-> | ->]; simplify_eq].
    destruct (h !! (2 * pos + 1 + 1)%nat) as [r|] eqn:Hrr.
    2:{ apply lookup_ge_None in Hrr. apply Nat.ltb_lt in Hr. lia. }
    rewrite lt_key in Hc.
    destruct (key l <? key r) eqn:Hlr; cbn [negb] in Hc;
      [apply Z.ltb_lt in Hlr|apply Z.ltb_ge in Hlr];
      destruct Hkids as [-> | ->]; simplify_eq; lia.
  - apply Nat.ltb_ge in Hr. destruct Hkids as [-> | ->]; simplify_eq; [lia|].
    apply lookup_lt_Some in Hy. lia.
Qed.

Lemma _siftup_loop_heap fuel (h : list A) pos h' leaf :
  (pos < length h)%nat -> (length h <= fuel + pos)%nat -> up_inv h pos ->
  _siftup_loop lt fuel h (length h) pos = (h', leaf) ->
  up_inv h' leaf ∧ (length h <= 2 * leaf + 1)%nat.
Proof.
  revert h pos. induction fuel as [|f IH]; intros h pos Hpos Hf Hinv; [lia|].
  rewrite _siftup_loop_S.
  destruct (2 * pos + 1 <? length h)%nat eqn:Hc.
  2:{ apply Nat.ltb_ge in Hc. by intros [= <- <-]. }
  cbv zeta. set (cp := if (_ <? _)%nat then _ else _).
  destruct (h !! cp) as [c|] eqn:Hcp.
  2:{ intros [= <- <-]. apply lookup_ge_None in Hcp. subst cp.
      apply Nat.ltb_lt in Hc. repeat case_match; try lia.
      - apply Nat.ltb_lt in H. lia. }
  pose proof (smaller_child h pos c Hcp) as [Hpar Hmin]. fold cp in Hpar.
  assert (Hcpl : (cp < length h)%nat) by (by eapply lookup_lt_Some).
  assert (0 < cp)%nat as Hcp0.
  { subst cp. repeat case_match; lia. }
  pose proof (parent_spec cp Hcp0) as Hps.
  intros Hloop. rewrite <-(length_insert h pos c) in Hloop.
  apply IH in Hloop; [by rewrite length_insert in Hloop
                     |by rewrite length_insert|rewrite length_insert; lia|].
  destruct Hinv as [Ha Hg]. split.
  - intros i x p Hi Hne Hx Hp. pose proof (parent_spec i Hi).
    destruct (decide (i = pos)) as [->|Hip].
    + rewrite list_lookup_insert_eq in Hx by done.
      rewrite list_lookup_insert_ne in Hp by lia. simplify_eq.
      by eapply (Hg cp).
    + rewrite list_lookup_insert_ne in Hx by done.
      destruct (decide (((i - 1) / 2)%nat = pos)) as [Hpi|Hpi].
      * rewrite Hpi, list_lookup_insert_eq in Hp by done. simplify_eq.
        by eapply Hmin.
      * rewrite list_lookup_insert_ne in Hp by done. by eapply Ha.
  - intros i x g Hi _ Hpi Hx Hgp. pose proof (parent_spec i Hi).
    rewrite list_lookup_insert_ne in Hx by lia.
    rewrite Hpar, list_lookup_insert_eq in Hgp by done. simplify_eq.
    eapply (Ha i); [done|lia|done|]. by rewrite Hpi.
Qed.

(** The root of a heap is a smallest element. *)
Lemma root_minimal (h : list A) r :
  heap_ok h -> h !! 0%nat = Some r -> forall y, y ∈ h -> key r <= key y.
Proof.
  intros Hh Hr y Hy. apply list_elem_of_lookup in Hy as [i Hi].
  revert y Hi. induction (lt_wf i) as [i _ IH]. intros y Hi.
  destruct (decide (i = 0%nat)) as [->|Hne]; [simplify_eq; lia|].
  assert (0 < i)%nat as H0 by lia. pose proof (parent_spec i H0).
  destruct (h !! ((i - 1) / 2)%nat) as [p|] eqn:Hp.
  2:{ apply lookup_ge_None in Hp. apply lookup_lt_Some in Hi. lia. }
  assert (key r <= key p) by (eapply (IH ((i - 1) / 2)%nat); [lia|done]).
  assert (key p <= key y) by (by eapply Hh). lia.
Qed.

Lemma heappop_heap (h : list A) x h' :
  heap_ok h -> heappop lt h = Some (x, h') ->
  heap_ok h' ∧ forall y, y ∈ h -> key x <= key y.
Proof.
  intros Hh. unfold heappop.
  destruct (pop_last h) as [[l b]|] eqn:Hp; [|done].
  apply pop_last_Some in Hp as ->.
  destruct b as [|r b]; intros [= <- <-].
  { split; [intros i ?? _ Hi; by rewrite lookup_nil in Hi|].
    intros y Hy. apply list_elem_of_singleton in Hy as ->. lia. }
  split; [|by apply (root_minimal _ r Hh)].
  change (<[0%nat := l]> (r :: b)) with (l :: b).
  unfold _siftup. change ((l :: b) !! 0%nat) with (Some l).
  destruct (_siftup_loop _ _ _ _ _) as [h' leaf] eqn:Hloop.
  pose proof Hloop as Hloop'.
  apply _siftup_loop_spec in Hloop as (Hl & Hleaf & _); [|simpl; lia].
  apply _siftup_loop_heap in Hloop' as [[Ha Hg] Hlf]; [|simpl; lia..|].
  2:{ split; [|intros; lia].
      intros i y p Hi Hne Hy Hpp. pose proof (parent_spec i Hi).
      destruct i as [|i]; [lia|]. simpl in Hy.
      destruct ((S i - 1) / 2)%nat as [|j] eqn:Hj; [lia|]. simpl in Hpp.
      apply (Hh (S i) y p); [lia|..].
      - simpl. rewrite lookup_app_l; [done|by eapply lookup_lt_Some].
      - rewrite Hj. simpl. rewrite lookup_app_l; [done|by eapply lookup_lt_Some]. }
  unfold _siftdown. rewrite list_lookup_insert_eq by lia.
  apply _siftdown_loop_heap; [done|rewrite length_insert; lia|].
  split_and!.
  - intros i y p Hi Hne Hy Hpp. pose proof (parent_spec i Hi).
    rewrite list_lookup_insert_ne in Hy by done.
    destruct (decide (((i - 1) / 2)%nat = leaf)) as [Hpi|Hpi].
    + apply lookup_lt_Some in Hy. lia.
    + rewrite list_lookup_insert_ne in Hpp by done. by eapply Ha.
  - intros i y Hi Hpi Hy. pose proof (parent_spec i Hi).
    apply lookup_lt_Some in Hy. rewrite length_insert in Hy. lia.
  - intros i y g Hi _ Hpi Hy _. pose proof (parent_spec i Hi).
    apply lookup_lt_Some in Hy. rewrite length_insert in Hy. lia.
Qed.
End heap_theory.

(* ===================================================================== *)
(** ** The queue service *)
(* ===================================================================== *)

Import PyStr Events Queue Queue.QueueService HeapOrder Session.

Lemma PriorityItem_lt_key a b :
  PriorityItem.lt a b = (PriorityItem.priority a <? PriorityItem.priority b).
Proof. reflexivity. Qed.

Lemma queue_ok_nil : queue_ok [].
Proof.
  split; [|constructor]. intros i x p _ Hi. by rewrite lookup_nil in Hi.
Qed.

Lemma queue_ok_push q m :
  queue_ok q -> queue_ok (heappush PriorityItem.lt q (PriorityItem.init m)).
Proof.
  intros [Hh Hi]. split.
  - by apply heappush_heap; [apply PriorityItem_lt_key|].
  - unfold queue_items. rewrite heappush_perm. by constructor.
Qed.

Lemma queue_ok_pop q item q' :
  queue_ok q -> heappop PriorityItem.lt q = Some (item, q') ->
  queue_ok q' ∧ q ≡ₚ item :: q' ∧
  item = PriorityItem.init (PriorityItem.message item) ∧
  forall other, other ∈ q ->
    TTSMessage.priority (PriorityItem.message other)
    <= TTSMessage.priority (PriorityItem.message item).
Proof.
  intros [Hh Hi] Hpop.
  pose proof (heappop_perm _ _ _ _ Hpop) as Hperm.
  pose proof (heappop_heap _ _ PriorityItem_lt_key _ _ _ Hh Hpop) as [Hh' Hmin].
  unfold queue_items in Hi. rewrite Hperm in Hi.
  apply Forall_cons in Hi as [Hitem Hi'].
  split_and!; [by split|done|done|].
  intros other Ho. specialize (Hmin other Ho).
  assert (other = PriorityItem.init (PriorityItem.message other)) as Hother.
  { rewrite Hperm in Ho. apply elem_of_cons in Ho as [->|Ho]; [done|].
    by eapply Forall_forall in Hi'. }
  rewrite Hitem, Hother in Hmin. simpl in Hmin. lia.
Qed.

(** *** [get_next] and [_send_next] *)

Lemma get_next_empty s : _queue s = [] -> get_next s = (None, s).
Proof. intros H. unfold get_next. by rewrite H. Qed.

Lemma get_next_pop s item q :
  heappop PriorityItem.lt (_queue s) = Some (item, q) ->
  get_next s =
    (Some (PriorityItem.message item),
     with_current (Some (PriorityItem.message item))
       (with_messages
          (delete (TTSMessage.id (PriorityItem.message item)) (_messages s))
          (with_queue q s))).
Proof. intros H. unfold get_next. by rewrite H. Qed.

Lemma _send_next_empty s : _queue s = [] -> _send_next s = s.
Proof. intros H. unfold _send_next. by rewrite get_next_empty. Qed.

Lemma _send_next_pop s item q :
  heappop PriorityItem.lt (_queue s) = Some (item, q) ->
  let m := PriorityItem.message item in
  let s' := _send_next s in
  _queue s' = q ∧ _current_message s' = Some m ∧
  _messages s' = delete (TTSMessage.id m) (_messages s) ∧
  emitted s' = emitted s ++ ready_of m ∧
  config s' = config s ∧
  _duplicate_detector s' = _duplicate_detector s ∧
  _rate_limiter_twitch s' = _rate_limiter_twitch s ∧
  _rate_limiter_youtube s' = _rate_limiter_youtube s.
Proof.
  intros H m s'. subst s'. unfold _send_next. rewrite (get_next_pop _ _ _ H).
  fold m. unfold ready_of.
  destruct (TTSMessage.audio_path m) as [p|]; [destruct (truthy p)|];
    simpl; rewrite ?app_nil_r; done.
Qed.

Lemma _send_next_frame s :
  (length (_queue (_send_next s)) <= length (_queue s))%nat ∧
  config (_send_next s) = config s ∧
  exists l, emitted (_send_next s) = emitted s ++ l ∧
            forallb (fun e => negb (is_queue_update e)) l = true.
Proof.
  destruct (heappop PriorityItem.lt (_queue s)) as [[item q]|] eqn:Hpop.
  - pose proof (heappop_perm _ _ _ _ Hpop) as Hperm.
    destruct (_send_next_pop _ _ _ Hpop) as (Hq & _ & _ & He & Hc & _).
    rewrite Hq, He, Hc, Hperm. simpl. split_and!; [lia|done|].
    eexists; split; [done|]. unfold ready_of. by repeat case_match.
  - apply heappop_None in Hpop. rewrite _send_next_empty by done.
    split_and!; [lia|done|]. exists []. by rewrite app_nil_r.
Qed.

Lemma _send_next_queue_ok s :
  queue_ok (_queue s) -> queue_ok (_queue (_send_next s)).
Proof.
  intros Hok.
  destruct (heappop PriorityItem.lt (_queue s)) as [[item q]|] eqn:Hpop.
  - destruct (_send_next_pop _ _ _ Hpop) as (Hq & _). rewrite Hq.
    by apply (queue_ok_pop _ _ _ Hok) in Hpop as [? _].
  - apply heappop_None in Hpop. by rewrite _send_next_empty.
Qed.

(** *** The bound on the queue *)

Section bound.
Variable md5 : list N -> list N.

Lemma status_ok_others l :
  forallb (fun e => negb (is_queue_update e)) l = true -> Forall status_ok l.
Proof.
  intros H. apply Forall_forall. intros e He.
  rewrite forallb_forall in H. apply list_elem_of_In in He.
  specialize (H e He). by destruct e.
Qed.

Lemma bounded_send_next s : bounded s -> bounded (_send_next s).
Proof.
  intros [Hq He].
  destruct (_send_next_frame s) as (Hl & Hc & l & Hem & Hno).
  split.
  - rewrite Hc. lia.
  - rewrite Hem. apply Forall_app. split; [done|by apply status_ok_others].
Qed.

Lemma get_queue_status_frame now s :
  let '(st, s') := get_queue_status now s in
  size st = length (_queue s) ∧ max_size st = QUEUE_MAX_SIZE (config s) ∧
  _queue s' = _queue s ∧ config s' = config s ∧ emitted s' = emitted s ∧
  _current_message s' = _current_message s ∧ _messages s' = _messages s ∧
  _duplicate_detector s' = _duplicate_detector s.
Proof.
  unfold get_queue_status.
  destruct (RateLimiter.get_remaining now (lit "twitch") _) as [tw rl_tw].
  destruct (RateLimiter.get_remaining now (lit "youtube") _) as [yt rl_yt].
  done.
Qed.

Lemma _notify_queue_update_frame now s :
  let s' := _notify_queue_update now s in
  _queue s' = _queue s ∧ config s' = config s ∧
  _current_message s' = _current_message s ∧ _messages s' = _messages s ∧
  _duplicate_detector s' = _duplicate_detector s ∧
  exists st, emitted s' = emitted s ++ [queue_update st] ∧
    size st = length (_queue s) ∧ max_size st = QUEUE_MAX_SIZE (config s).
Proof.
  unfold _notify_queue_update.
  pose proof (get_queue_status_frame now s) as H.
  destruct (get_queue_status now s) as [st s'].
  destruct H as (?&?&?&?&He&?&?&?). simpl. rewrite He.
  split_and!; [done..|]. by exists st.
Qed.

Lemma bounded_notify now s : bounded s -> bounded (_notify_queue_update now s).
Proof.
  intros [Hq He].
  destruct (_notify_queue_update_frame now s) as (Hq' & Hc & _ & _ & _ & st & Hem & Hs & Hm).
  split.
  - by rewrite Hq', Hc.
  - rewrite Hem. apply Forall_app. split; [done|].
    constructor; [|constructor]. simpl. rewrite Hs, Hm. done.
Qed.

(** [make_room] leaves room for one more item when the bound is at least
    one. *)
Lemma make_room_spec s :
  1 <= QUEUE_MAX_SIZE (config s) -> bounded s ->
  match make_room s with
  | inl s' =>
      Z.of_nat (length (_queue s')) + 1 <= QUEUE_MAX_SIZE (config s') ∧
      config s' = config s ∧ emitted s' = emitted s
  | inr s' => bounded s' ∧ config s' = config s
  end.
Proof.
  intros Hmax [Hq He]. unfold make_room.
  destruct (QUEUE_MAX_SIZE (config s) <=? Z.of_nat (length (_queue s))) eqn:Hfull.
  - apply Z.leb_le in Hfull.
    destruct (heappop PriorityItem.lt (_queue s)) as [[removed q]|] eqn:Hpop.
    + pose proof (heappop_perm _ _ _ _ Hpop) as Hperm.
      rewrite Hperm in Hq. simpl in Hq.
      simpl. destruct (_messages s !! _); simpl.
      * split_and!; [lia|done..].
      * split; [split; simpl; [lia|done]|done].
    + apply heappop_None in Hpop. rewrite Hpop in Hfull. simpl in Hfull. lia.
  - apply Z.leb_gt in Hfull. split_and!; [lia|done..].
Qed.

Lemma bounded_add_message now m s :
  1 <= QUEUE_MAX_SIZE (config s) -> bounded s ->
  bounded (add_message md5 now m s).2 ∧
  config (add_message md5 now m s).2 = config s.
Proof.
  intros Hmax Hb. unfold add_message.
  destruct (DuplicateDetector.is_duplicate _ _ _ _) as [dup dd].
  set (s1 := with_duplicate_detector dd s).
  assert (bounded s1 ∧ config s1 = config s) as [Hb1 Hc1] by done.
  destruct dup; [done|].
  set (r := match TTSMessage.event m with Some _ => _ | None => _ end).
  assert (bounded r.2 ∧ config r.2 = config s) as [Hb2 Hc2].
  { subst r. destruct (TTSMessage.event m) as [ev|]; [|done].
    destruct (RateLimiter.is_allowed _ _ _) as [ok rl]. done. }
  destruct r as [allowed s2]. simpl in Hb2, Hc2.
  destruct allowed; simpl; [|done].
  pose proof (make_room_spec s2) as Hroom. rewrite Hc2 in Hroom.
  specialize (Hroom Hmax Hb2).
  destruct (make_room s2) as [s3|s3]; simpl.
  2:{ destruct Hroom. split; [done|congruence]. }
  destruct Hroom as (Hlen & Hc3 & He3).
  set (s4 := with_messages _ (with_queue _ s3)).
  assert (bounded s4 ∧ config s4 = config s) as [Hb4 Hc4].
  { split; [split|]; simpl.
    - rewrite heappush_length. lia.
    - rewrite He3. apply Hb2.
    - congruence. }
  pose proof (bounded_notify now s4 Hb4) as Hb5.
  destruct (_notify_queue_update_frame now s4) as (_ & Hc5 & _).
  simpl. destruct (_current_message _).
  - split; [done|congruence].
  - split; [by apply bounded_send_next|].
    destruct (_send_next_frame (_notify_queue_update now s4)) as (_ & -> & _).
    congruence.
Qed.

Lemma bounded_step c s :
  1 <= QUEUE_MAX_SIZE (config s) -> bounded s ->
  bounded (step md5 s c) ∧ config (step md5 s c) = config s.
Proof.
  intros Hmax Hb. destruct c as [now m| |mid| |now|now]; cbn [step].
  2:{ unfold get_next.
      destruct (heappop PriorityItem.lt (_queue s)) as [[item q]|] eqn:Hpop;
        [|done].
      pose proof (heappop_perm _ _ _ _ Hpop) as Hperm.
      destruct Hb as [Hq He]. rewrite Hperm in Hq. simpl in Hq.
      split; [split|]; simpl; [lia|done..]. }
  5:{ pose proof (get_queue_status_frame now s) as H.
      destruct (get_queue_status now s) as [st s'].
      destruct H as (_ & _ & Hq & Hc & He & _). destruct Hb as [Hb1 Hb2].
      change (bounded s' ∧ config s' = config s).
      split; [|done]. split; [by rewrite Hq, Hc|by rewrite He]. }
  - by apply bounded_add_message.
  - unfold mark_complete.
    set (s1 := match _current_message s with Some _ => _ | None => _ end).
    assert (bounded s1 ∧ config s1 = config s) as [Hb1 Hc1].
    { subst s1. by repeat case_match. }
    split; [by apply bounded_send_next|].
    destruct (_send_next_frame s1) as (_ & -> & _). done.
  - unfold skip_current.
    set (s1 := match _current_message s with Some _ => _ | None => _ end).
    assert (bounded s1 ∧ config s1 = config s) as [[Hq1 He1] Hc1].
    { subst s1. by repeat case_match. }
    assert (bounded (emit skip s1)) as Hb2.
    { split; [done|]. simpl. apply Forall_app. split; [done|].
      by repeat constructor. }
    split; [by apply bounded_send_next|].
    destruct (_send_next_frame (emit skip s1)) as (_ & -> & _). done.
  - unfold clear_queue.
    set (s1 := with_messages _ _).
    assert (bounded s1) as Hb1.
    { destruct Hb as [Hq He]. split; simpl; [lia|done]. }
    split; [by apply bounded_notify|].
    destruct (_notify_queue_update_frame now s1) as (_ & Hc & _).
    exact Hc.
Qed.

Lemma bounded_steps calls s :
  1 <= QUEUE_MAX_SIZE (config s) -> bounded s ->
  bounded (fold_left (step md5) calls s) ∧
  config (fold_left (step md5) calls s) = config s.
Proof.
  revert s. induction calls as [|c calls IH]; intros s Hmax Hb; [done|].
  simpl. destruct (bounded_step c s Hmax Hb) as [Hb' Hc'].
  destruct (IH (step md5 s c)) as [Hb'' Hc'']; [by rewrite Hc'|done|].
  split; [done|congruence].
Qed.

End bound.

(** C6, as amended: when the configured bound is at least 1, after every
    sequence of offers, polls, completions, skips and clears on a new
    service the queue holds no more messages than the bound, and every
    size that a [queue_update] reported to the clients on the way was
    within the bound. *)
Theorem queue_within_bound md5 cfg calls :
  1 <= QUEUE_MAX_SIZE cfg ->
  Z.of_nat (length (_queue (run md5 cfg calls))) <= QUEUE_MAX_SIZE cfg ∧
  Forall status_ok (emitted (run md5 cfg calls)).
Proof.
  intros Hmax. unfold run.
  destruct (bounded_steps md5 calls (init cfg)) as [[Hq He] Hc]; [done|..].
  - split; simpl; [lia|constructor].
  - rewrite Hc in Hq. done.
Qed.

Lemma queue_within_bound_witness :
  1 <= QUEUE_MAX_SIZE (Examples.config_of 2) ∧
  Z.of_nat (length (_queue Examples.after_S5)) <= 2 ∧
  Forall status_ok (emitted Examples.after_S5).
Proof.
  split; [vm_compute; discriminate|].
  apply (queue_within_bound Examples.hash (Examples.config_of 2)
           [Offer 0 Examples.M1; Offer 0 Examples.M3; Offer 0 Examples.M2]).
  vm_compute. discriminate.
Defined.

(** C6, as stated, fails for a bound of 0: the second offer on a new
    service leaves one message in the queue, and the first one already
    reports a size of 1 against a maximum of 0. *)
Lemma queue_exceeds_bound_zero :
  let s :=
    run Examples.hash (Examples.config_of 0)
      [Offer 0 Examples.M1; Offer 0 Examples.M2] in
  ¬ (Z.of_nat (length (_queue s)) <= QUEUE_MAX_SIZE (config s))
  ∧ ¬ Forall status_ok (emitted s).
Proof.
  intros s.
  assert (length (_queue s) = 1%nat) as Hlen by (vm_compute; reflexivity).
  assert (QUEUE_MAX_SIZE (config s) = 0) as Hmax by (vm_compute; reflexivity).
  assert (exists st rest,
            emitted s = queue_update st :: rest ∧ size st = 1%nat ∧
            max_size st = 0) as (st & rest & Hem & Hsize & Hms).
  { eexists _, _. vm_compute. split_and!; reflexivity. }
  split.
  - rewrite Hlen, Hmax. lia.
  - rewrite Hem. intros H. apply Forall_inv in H. simpl in H.
    rewrite Hsize, Hms in H. lia.
Qed.

(** *** Duplicates and the rate limit *)

Lemma is_duplicate_false_records md5 now text d :
  (DuplicateDetector.is_duplicate md5 now text d).1 = false ->
  DuplicateDetector.seen (DuplicateDetector.is_duplicate md5 now text d).2
    !! md5 text = Some now ∧
  DuplicateDetector.window (DuplicateDetector.is_duplicate md5 now text d).2
    = DuplicateDetector.window d ∧
  forall v, DuplicateDetector.seen d !! md5 text = Some v ->
    DuplicateDetector.window d <= now - v.
Proof.
  unfold DuplicateDetector.is_duplicate.
  destruct (filter _ (DuplicateDetector.seen d) !! md5 text) as [v|] eqn:Hf;
    [done|].
  intros _. simpl. rewrite lookup_insert_eq. split_and!; [done..|].
  intros v Hv. destruct (decide (now - v < DuplicateDetector.window d)); [|lia].
  by rewrite (map_lookup_filter_Some_2 _ _ _ v Hv) in Hf.
Qed.

Lemma is_duplicate_fresh md5 now text d v :
  DuplicateDetector.seen d !! md5 text = Some v ->
  now - v < DuplicateDetector.window d ->
  (DuplicateDetector.is_duplicate md5 now text d).1 = true.
Proof.
  intros Hv Hfresh. unfold DuplicateDetector.is_duplicate.
  by rewrite (map_lookup_filter_Some_2 _ _ _ v Hv).
Qed.

Lemma add_message_duplicate md5 now m s :
  (DuplicateDetector.is_duplicate md5 now (TTSMessage.text m)
     (_duplicate_detector s)).1 = true ->
  add_message md5 now m s =
    (Return false,
     with_duplicate_detector
       (DuplicateDetector.is_duplicate md5 now (TTSMessage.text m)
          (_duplicate_detector s)).2 s).
Proof.
  intros H. unfold add_message.
  destruct (DuplicateDetector.is_duplicate _ _ _ _) as [dup dd].
  simpl in H. by subst dup.
Qed.

Lemma add_message_rate_limited md5 now m s ev :
  (DuplicateDetector.is_duplicate md5 now (TTSMessage.text m)
     (_duplicate_detector s)).1 = false ->
  TTSMessage.event m = Some ev ->
  (RateLimiter.is_allowed now (Platform_value (StreamEvent.platform ev))
     (_rate_limiters (StreamEvent.platform ev) s)).1 = false ->
  add_message md5 now m s =
    (Return false,
     with_rate_limiter (StreamEvent.platform ev)
       (RateLimiter.is_allowed now (Platform_value (StreamEvent.platform ev))
          (_rate_limiters (StreamEvent.platform ev) s)).2
       (with_duplicate_detector
          (DuplicateDetector.is_duplicate md5 now (TTSMessage.text m)
             (_duplicate_detector s)).2 s)).
Proof.
  intros Hdup Hev Hrate. unfold add_message.
  destruct (DuplicateDetector.is_duplicate _ _ _ _) as [dup dd].
  simpl in Hdup. subst dup. rewrite Hev.
  replace (_rate_limiters (StreamEvent.platform ev)
             (with_duplicate_detector dd s))
    with (_rate_limiters (StreamEvent.platform ev) s)
    by (by destruct (StreamEvent.platform ev)).
  destruct (RateLimiter.is_allowed _ _ _) as [ok rl].
  simpl in Hrate. by subst ok.
Qed.

(** C10: [add_message] checks for a duplicate before it checks the rate
    limit, and the duplicate check records the text.  So when an offer at
    [now1] is not a duplicate but is refused by the rate limiter, it
    returns false and leaves the queue alone, yet its text hash is now in
    the detector, whose state has changed; and an offer of the same text
    at [now2], within the duplicate window, is refused as a duplicate
    whatever the rate limiters hold by then (the state [s_later] shares
    only the detector with the state after the first offer), without
    touching queue or rate limiters. *)
Theorem rate_limited_offer_registers_text md5 now1 now2 m1 m2 ev s s_later :
  (DuplicateDetector.is_duplicate md5 now1 (TTSMessage.text m1)
     (_duplicate_detector s)).1 = false ->
  TTSMessage.event m1 = Some ev ->
  (RateLimiter.is_allowed now1 (Platform_value (StreamEvent.platform ev))
     (_rate_limiters (StreamEvent.platform ev) s)).1 = false ->
  TTSMessage.text m2 = TTSMessage.text m1 ->
  now1 <= now2 ->
  now2 - now1 < DuplicateDetector.window (_duplicate_detector s) ->
  _duplicate_detector s_later
    = _duplicate_detector (add_message md5 now1 m1 s).2 ->
  (add_message md5 now1 m1 s).1 = Return false ∧
  _queue (add_message md5 now1 m1 s).2 = _queue s ∧
  DuplicateDetector.seen (_duplicate_detector (add_message md5 now1 m1 s).2)
    !! md5 (TTSMessage.text m1) = Some now1 ∧
  _duplicate_detector (add_message md5 now1 m1 s).2 ≠ _duplicate_detector s ∧
  (add_message md5 now2 m2 s_later).1 = Return false ∧
  _queue (add_message md5 now2 m2 s_later).2 = _queue s_later ∧
  _rate_limiter_twitch (add_message md5 now2 m2 s_later).2
    = _rate_limiter_twitch s_later ∧
  _rate_limiter_youtube (add_message md5 now2 m2 s_later).2
    = _rate_limiter_youtube s_later.
Proof.
  intros Hdup Hev Hrate Htext Hle Hwin Hlater.
  rewrite (add_message_rate_limited _ _ _ _ _ Hdup Hev Hrate) in *.
  destruct (is_duplicate_false_records _ _ _ _ Hdup) as (Hseen & Hw & Hold).
  simpl in Hlater.
  assert ((DuplicateDetector.is_duplicate md5 now2 (TTSMessage.text m2)
             (_duplicate_detector s_later)).1 = true) as Hdup2.
  { rewrite Htext. eapply is_duplicate_fresh.
    - by rewrite Hlater.
    - by rewrite Hlater, Hw. }
  rewrite (add_message_duplicate _ _ _ _ Hdup2).
  split_and!; try done.
  simpl. intros Heq. rewrite Heq in Hseen. specialize (Hold _ Hseen). lia.
Qed.

(** One Twitch alert per minute is allowed and [T0] took it at time 0.
    [T1] at 59 is refused by the rate limiter; the same text at 61 meets a
    rate limiter that would let it through, and is refused as a
    duplicate. *)
Lemma rate_limited_offer_registers_text_witness :
  let s1 := (add_message Examples.hash 59 Examples.T1 Examples.after_T0).2 in
  (RateLimiter.is_allowed 61 (lit "twitch") (_rate_limiter_twitch s1)).1 = true
  ∧ (add_message Examples.hash 59 Examples.T1 Examples.after_T0).1
    = Return false
  ∧ (add_message Examples.hash 61 Examples.T1_again s1).1 = Return false.
Proof.
  intros s1. split; [by vm_compute|].
  pose proof (rate_limited_offer_registers_text Examples.hash 59 61
                Examples.T1 Examples.T1_again (Examples.bits_event "T1")
                Examples.after_T0 s1) as H.
  destruct H as (H1 & _ & _ & _ & H2 & _);
    [by vm_compute|reflexivity|by vm_compute|reflexivity|lia
    |vm_compute; reflexivity|reflexivity|].
  split; [exact H1|exact H2].
Defined.

(** *** Skipping while idle *)

(** Every state that a run reaches has its queue in heap order. *)
Lemma queue_ok_make_room s :
  queue_ok (_queue s) ->
  match make_room s with
  | inl s' | inr s' => queue_ok (_queue s')
  end.
Proof.
  intros Hok. unfold make_room.
  destruct (_ <=? _); [|done].
  destruct (heappop PriorityItem.lt (_queue s)) as [[removed q]|] eqn:Hpop;
    [|done].
  destruct (queue_ok_pop _ _ _ Hok Hpop) as [Hok' _].
  simpl. by destruct (_messages s !! _).
Qed.

Lemma queue_ok_add_message md5 now m s :
  queue_ok (_queue s) -> queue_ok (_queue (add_message md5 now m s).2).
Proof.
  intros Hok. unfold add_message.
  destruct (DuplicateDetector.is_duplicate _ _ _ _) as [dup dd].
  destruct dup; [done|].
  set (r := match TTSMessage.event m with Some _ => _ | None => _ end).
  assert (queue_ok (_queue r.2)) as Hok2.
  { subst r. destruct (TTSMessage.event m) as [ev|]; [|done].
    by destruct (RateLimiter.is_allowed _ _ _) as [ok rl]. }
  destruct r as [allowed s2]. simpl in Hok2. destruct allowed; [|done].
  simpl. pose proof (queue_ok_make_room s2 Hok2) as Hroom.
  destruct (make_room s2) as [s3|s3]; [|done].
  set (s4 := with_messages _ (with_queue _ s3)).
  assert (queue_ok (_queue s4)) as Hok4 by (by apply queue_ok_push).
  destruct (_notify_queue_update_frame now s4) as (Hq5 & _).
  assert (queue_ok (_queue (_notify_queue_update now s4))) as Hok5
    by (by rewrite Hq5).
  simpl. destruct (_current_message _).
  - exact Hok5.
  - exact (_send_next_queue_ok _ Hok5).
Qed.

Lemma queue_ok_step md5 c s :
  queue_ok (_queue s) -> queue_ok (_queue (step md5 s c)).
Proof.
  intros Hok. destruct c as [now m| |mid| |now|now]; cbn [step].
  6:{ pose proof (get_queue_status_frame now s) as H.
      destruct (get_queue_status now s) as [st s'].
      destruct H as (_ & _ & Hq & _).
      change (queue_ok (_queue s')). by rewrite Hq. }
  - by apply queue_ok_add_message.
  - unfold get_next.
    destruct (heappop PriorityItem.lt (_queue s)) as [[item q]|] eqn:Hpop;
      [|done].
    by destruct (queue_ok_pop _ _ _ Hok Hpop) as [Hok' _].
  - unfold mark_complete. apply _send_next_queue_ok. by repeat case_match.
  - unfold skip_current. apply _send_next_queue_ok. by repeat case_match.
  - apply queue_ok_nil.
Qed.

Lemma queue_ok_run md5 cfg calls : queue_ok (_queue (run md5 cfg calls)).
Proof.
  unfold run. generalize (init cfg) (queue_ok_nil : queue_ok (_queue (init cfg))).
  induction calls as [|c calls IH]; intros s Hok; [done|].
  simpl. apply IH. by apply queue_ok_step.
Qed.

(** C9: [skip_current] with no message in flight is not a no-op.  On a
    queue in heap order it emits [skip]; with an empty queue that is all it
    does, and otherwise it takes out of the queue a message whose priority
    no queued message exceeds, makes it the current message and emits its
    [tts_ready] after the [skip] (when the message has an audio path). *)
Theorem skip_while_idle_advances s :
  _current_message s = None ->
  queue_ok (_queue s) ->
  match _queue s with
  | [] => skip_current s = emit skip s
  | _ :: _ =>
      exists item,
        item ∈ _queue s ∧
        (forall other, other ∈ _queue s ->
           TTSMessage.priority (PriorityItem.message other)
           <= TTSMessage.priority (PriorityItem.message item)) ∧
        _queue s ≡ₚ item :: _queue (skip_current s) ∧
        _current_message (skip_current s) = Some (PriorityItem.message item) ∧
        emitted (skip_current s)
          = emitted s ++ skip :: ready_of (PriorityItem.message item)
  end.
Proof.
  intros Hidle Hok. unfold skip_current. rewrite Hidle.
  destruct (_queue s) as [|i0 q0] eqn:Hq.
  - by rewrite _send_next_empty.
  - destruct (heappop PriorityItem.lt (_queue (emit skip s)))
      as [[item q]|] eqn:Hpop.
    2:{ apply heappop_None in Hpop. simpl in Hpop. congruence. }
    destruct (_send_next_pop _ _ _ Hpop) as (Hq' & Hcur & _ & Hem & _).
    simpl in Hpop. rewrite <-Hq in Hok.
    destruct (queue_ok_pop _ _ _ Hok Hpop) as (_ & Hperm & _ & Hmax).
    rewrite Hq in Hperm, Hmax.
    exists item. split_and!.
    + rewrite Hperm. by left.
    + done.
    + by rewrite Hq'.
    + done.
    + rewrite Hem. simpl. by rewrite <-app_assoc.
Qed.

Lemma skip_while_idle_advances_witness :
  _current_message Examples.idle_with_two = None ∧
  queue_ok (_queue Examples.idle_with_two) ∧
  exists item,
    item ∈ _queue Examples.idle_with_two ∧
    (forall other, other ∈ _queue Examples.idle_with_two ->
       TTSMessage.priority (PriorityItem.message other)
       <= TTSMessage.priority (PriorityItem.message item)) ∧
    _queue Examples.idle_with_two
      ≡ₚ item :: _queue (skip_current Examples.idle_with_two) ∧
    _current_message (skip_current Examples.idle_with_two)
      = Some (PriorityItem.message item) ∧
    emitted (skip_current Examples.idle_with_two)
      = emitted Examples.idle_with_two
        ++ skip :: ready_of (PriorityItem.message item).
Proof.
  assert (queue_ok (_queue Examples.idle_with_two)) as Hok.
  { exact (queue_ok_push _ Examples.M2
             (queue_ok_push _ Examples.M3 queue_ok_nil)). }
  split; [reflexivity|]. split; [exact Hok|].
  exact (skip_while_idle_advances Examples.idle_with_two eq_refl Hok).
Defined.

(** *** Offering to a full queue *)

Lemma make_room_full s :
  QUEUE_MAX_SIZE (config s) <= Z.of_nat (length (_queue s)) ->
  (forall item, item ∈ _queue s ->
     is_Some (_messages s !! TTSMessage.id (PriorityItem.message item))) ->
  _queue s ≠ [] ->
  exists removed rest,
    heappop PriorityItem.lt (_queue s) = Some (removed, rest) ∧
    make_room s =
      inl (with_messages
             (delete (TTSMessage.id (PriorityItem.message removed)) (_messages s))
             (with_queue rest s)).
Proof.
  intros Hfull Hreg Hne. unfold make_room.
  apply Z.leb_le in Hfull. rewrite Hfull.
  destruct (heappop PriorityItem.lt (_queue s)) as [[removed rest]|] eqn:Hpop.
  2:{ by apply heappop_None in Hpop. }
  exists removed, rest. split; [done|]. simpl.
  destruct (Hreg removed) as [x Hx].
  { rewrite (heappop_perm _ _ _ _ Hpop). by left. }
  by rewrite Hx.
Qed.

Lemma offer_to_full_queue_accepted md5 now m s c :
  _current_message s = Some c ->
  QUEUE_MAX_SIZE (config s) <= Z.of_nat (length (_queue s)) ->
  _queue s ≠ [] ->
  (forall item, item ∈ _queue s ->
     is_Some (_messages s !! TTSMessage.id (PriorityItem.message item))) ->
  (DuplicateDetector.is_duplicate md5 now (TTSMessage.text m)
     (_duplicate_detector s)).1 = false ->
  rate_check_passes now m s ->
  exists removed rest,
    _queue s ≡ₚ removed :: rest ∧
    (add_message md5 now m s).1 = Return true ∧
    _queue (add_message md5 now m s).2 ≡ₚ PriorityItem.init m :: rest ∧
    length (_queue (add_message md5 now m s).2) = length (_queue s) ∧
    _current_message (add_message md5 now m s).2 = Some c.
Proof.
  intros Hcur Hfull Hne Hreg Hdup Hrate. unfold add_message.
  destruct (DuplicateDetector.is_duplicate _ _ _ _) as [dup dd].
  simpl in Hdup. subst dup.
  set (r := match TTSMessage.event m with Some _ => _ | None => _ end).
  assert (r.1 = true ∧ _queue r.2 = _queue s ∧ _messages r.2 = _messages s ∧
          _current_message r.2 = Some c ∧ config r.2 = config s)
    as (Hok & Hq2 & Hm2 & Hc2 & Hcfg2).
  { subst r. unfold rate_check_passes in Hrate.
    destruct (TTSMessage.event m) as [ev|]; [|done].
    replace (_rate_limiters (StreamEvent.platform ev)
               (with_duplicate_detector dd s))
      with (_rate_limiters (StreamEvent.platform ev) s)
      by (by destruct (StreamEvent.platform ev)).
    destruct (RateLimiter.is_allowed _ _ _) as [ok rl]. simpl in Hrate.
    by subst ok. }
  destruct r as [allowed s2]. simpl in Hok, Hq2, Hm2, Hc2, Hcfg2. subst allowed.
  simpl.
  destruct (make_room_full s2) as (removed & rest & Hpop & Hroom).
  { by rewrite Hcfg2, Hq2. }
  { by rewrite Hq2, Hm2. }
  { by rewrite Hq2. }
  rewrite Hroom. rewrite Hq2 in Hpop.
  pose proof (heappop_perm _ _ _ _ Hpop) as Hperm.
  exists removed, rest. simpl. rewrite Hc2. simpl.
  split_and!; [done|done| |  |done].
  - apply heappush_perm.
  - rewrite heappush_length, Hperm. done.
Qed.

(** C1, as amended: when a message is in flight, the queue is full and an
    offered message passes the duplicate and rate checks, [add_message]
    accepts it whatever the priorities are: it returns true, one queued
    entry leaves the heap and the new message enters it, so the size is
    unchanged and the message in flight stays.  On a new service with
    bound 2, offers of priorities 1, 3, 2 leave exactly the messages of
    priorities 3 and 2 in the queue, the first one having been dispatched
    as the current message. *)
Theorem offer_to_full_queue md5 now m s c :
  _current_message s = Some c ->
  QUEUE_MAX_SIZE (config s) <= Z.of_nat (length (_queue s)) ->
  _queue s ≠ [] ->
  (forall item, item ∈ _queue s ->
     is_Some (_messages s !! TTSMessage.id (PriorityItem.message item))) ->
  (DuplicateDetector.is_duplicate md5 now (TTSMessage.text m)
     (_duplicate_detector s)).1 = false ->
  rate_check_passes now m s ->
  (exists removed rest,
     _queue s ≡ₚ removed :: rest ∧
     (add_message md5 now m s).1 = Return true ∧
     _queue (add_message md5 now m s).2 ≡ₚ PriorityItem.init m :: rest ∧
     length (_queue (add_message md5 now m s).2) = length (_queue s) ∧
     _current_message (add_message md5 now m s).2 = Some c)
  ∧ priorities Examples.after_S5 = [3; 2]
  ∧ _current_message Examples.after_S5 = Some Examples.M1.
Proof.
  intros Hcur Hfull Hne Hreg Hdup Hrate.
  split; [by eapply offer_to_full_queue_accepted|].
  split; by vm_compute.
Qed.

Lemma offer_to_full_queue_witness :
  _current_message Examples.after_S5 = Some Examples.M1 ∧
  length (_queue Examples.after_S5) = 2%nat ∧
  (add_message Examples.hash 0 Examples.M4 Examples.after_S5).1 = Return true ∧
  length (_queue (add_message Examples.hash 0 Examples.M4 Examples.after_S5).2)
    = 2%nat.
Proof.
  pose proof (offer_to_full_queue Examples.hash 0 Examples.M4
                Examples.after_S5 Examples.M1) as H.
  destruct H as [(removed & rest & _ & Hacc & _ & Hlen & _) _].
  - by vm_compute.
  - by vm_compute.
  - by vm_compute.
  - assert (_queue Examples.after_S5
            = [PriorityItem.init Examples.M3; PriorityItem.init Examples.M2])
      as -> by (vm_compute; reflexivity).
    intros item Hin.
    repeat (apply elem_of_cons in Hin as [->|Hin]);
      try (vm_compute; eexists; reflexivity).
    by apply elem_of_nil in Hin.
  - by vm_compute.
  - exact I.
  - split_and!; [by vm_compute|by vm_compute|exact Hacc|exact Hlen].
Defined.

(** C1, as stated, fails on the queue of scenario S5 itself: it is full
    with priorities 3 and 2, and a message of priority 1 is offered.  The
    specification rejects it; the code accepts it and evicts the message
    of priority 3. *)
Lemma full_queue_offer_is_not_priority_aware :
  let q := map PriorityItem.message (_queue Examples.after_S5) in
  Z.of_nat (length q) = QUEUE_MAX_SIZE (config Examples.after_S5) ∧
  (Spec.offer 2 q Examples.M4).1 = false ∧
  (add_message Examples.hash 0 Examples.M4 Examples.after_S5).1 = Return true ∧
  priorities (add_message Examples.hash 0 Examples.M4 Examples.after_S5).2
    = [2; 1].
Proof. by vm_compute. Qed.

(** *** Completion acknowledgements *)

(** A completion for the message in flight clears it and dispatches the
    next one. *)
Lemma mark_complete_current s m :
  _current_message s = Some m ->
  mark_complete (TTSMessage.id m) s = _send_next (with_current None s).
Proof.
  intros H. unfold mark_complete. rewrite H.
  by rewrite bool_decide_eq_true_2.
Qed.

(** A completion for another message leaves the message in flight alone
    when nothing is queued. *)
Lemma mark_complete_stale_empty s m message_id :
  _current_message s = Some m -> TTSMessage.id m ≠ message_id ->
  _queue s = [] ->
  mark_complete message_id s = s.
Proof.
  intros H Hne Hq. unfold mark_complete. rewrite H.
  rewrite bool_decide_eq_false_2 by done. by apply _send_next_empty.
Qed.

(** It is not ignored when a message is queued: the queued message
    replaces the one in flight. *)
Lemma mark_complete_stale_pop s m message_id item q :
  _current_message s = Some m -> TTSMessage.id m ≠ message_id ->
  heappop PriorityItem.lt (_queue s) = Some (item, q) ->
  _current_message (mark_complete message_id s)
    = Some (PriorityItem.message item) ∧
  _queue (mark_complete message_id s) = q ∧
  emitted (mark_complete message_id s)
    = emitted s ++ ready_of (PriorityItem.message item).
Proof.
  intros H Hne Hpop. unfold mark_complete. rewrite H.
  rewrite bool_decide_eq_false_2 by done.
  by destruct (_send_next_pop _ _ _ Hpop) as (? & ? & _ & ? & _).
Qed.

(** C2 on the code: [M1] is in flight and [M3] is queued.  A
    [play_complete] carrying the identifier of [M2] is not ignored: [M3]
    leaves the queue, becomes the current message in place of [M1], and
    its [tts_ready] is emitted. *)
Theorem stale_play_complete_advances :
  _current_message Examples.pending_M1 = Some Examples.M1 ∧
  priorities Examples.pending_M1 = [3] ∧
  let s := handle_play_complete (Some (lit "M2")) Examples.pending_M1 in
  _current_message s = Some Examples.M3 ∧
  _queue s = [] ∧
  emitted s = emitted Examples.pending_M1 ++ ready_of Examples.M3.
Proof. by vm_compute. Qed.

(* ===================================================================== *)
(** ** Text cleaning *)
(* ===================================================================== *)

Import PyStr Re Text EventProcessor.

(** *** The scanning loop *)

Lemma scan_skip m k s : scan m k s = scan m 0 (drop k s).
Proof.
  revert k. induction s as [|c r IH]; intros [|k]; try done.
  simpl. by rewrite IH.
Qed.

Lemma scan_cons m c r :
  scan m 0 (c :: r) =
  match m (c :: r) with
  | Some (out, len) => out ++ scan m 0 (drop (Nat.pred len) r)
  | None => c :: scan m 0 r
  end.
Proof.
  simpl. destruct (m (c :: r)) as [[out len]|]; [|done].
  by rewrite scan_skip.
Qed.

Lemma scan_unmatched m s : unmatched m s -> scan m 0 s = s.
Proof.
  induction s as [|c r IH]; [done|]. intros [Hm Hr].
  rewrite scan_cons, Hm. by rewrite IH.
Qed.

Lemma scan_Forall (Q : N -> Prop) m k s :
  (forall t out len, Forall Q t -> m t = Some (out, len) -> Forall Q out) ->
  Forall Q s -> Forall Q (scan m k s).
Proof.
  intros Hm. revert k. induction s as [|c r IH]; intros k Hs; [done|].
  pose proof (Forall_inv_tail Hs) as Hr. destruct k as [|k]; simpl.
  - destruct (m (c :: r)) as [[out len]|] eqn:Hmt.
    + apply Forall_app. split; [exact (Hm _ _ _ Hs Hmt)|by apply IH].
    + constructor; [by apply Forall_inv in Hs|by apply IH].
  - by apply IH.
Qed.

(** *** Spans *)

Lemma span_le p s : (span p s <= length s)%nat.
Proof. induction s as [|c r IH]; simpl; [lia|]. destruct (p c); simpl; lia. Qed.

Lemma span_drop p s : span p (drop (span p s) s) = 0%nat.
Proof.
  induction s as [|c r IH]; [done|]. simpl.
  destruct (p c) eqn:Hp; simpl; [done|by rewrite Hp].
Qed.

Lemma drop_Forall {A} (Q : A -> Prop) k (s : list A) :
  Forall Q s -> Forall Q (drop k s).
Proof. apply Forall_drop. Qed.

(** *** Text without colons and special characters *)

Lemma plain_space : plain_char space.
Proof. by split. Qed.

Lemma strip_prefix_Forall (Q : N -> Prop) p s r :
  strip_prefix p s = Some r -> Forall Q s -> Forall Q r.
Proof.
  revert s. induction p as [|a p IH]; intros s; simpl.
  - by intros [= ->].
  - destruct s as [|b s]; [done|]. destruct (a =? b)%N; [|done].
    intros H Hs. apply (IH _ H). by apply Forall_inv_tail in Hs.
Qed.

Lemma strip_prefix_cons a p b s :
  strip_prefix (a :: p) (b :: s) =
  if (a =? b)%N then strip_prefix p s else None.
Proof. reflexivity. Qed.

Lemma emote_plain t : plain t -> emote t = None.
Proof.
  destruct t as [|c r]; [done|]. intros H. apply Forall_inv in H as [Hc _].
  unfold emote. by apply N.eqb_neq in Hc as ->.
Qed.

Lemma url_tail_plain k t : plain t -> url_tail k t = None.
Proof.
  destruct t as [|c r]; [done|]. intros H. apply Forall_inv in H as [Hc _].
  unfold url_tail. change (lit "://") with (colon :: lit "//").
  rewrite strip_prefix_cons.
  destruct (colon =? c)%N eqn:E; [|done]. apply N.eqb_eq in E. congruence.
Qed.

Lemma url_plain t : plain t -> url t = None.
Proof.
  intros H. unfold url.
  destruct (strip_prefix (lit "http") t) as [r|] eqn:Hr; [|done].
  pose proof (strip_prefix_Forall _ _ _ _ Hr H) as Hpr.
  rewrite (url_tail_plain 4 r Hpr).
  destruct (strip_prefix (lit "s") r) as [r'|] eqn:Hr'; [|done].
  by rewrite (url_tail_plain 5 r' (strip_prefix_Forall _ _ _ _ Hr' Hpr)).
Qed.

Lemma special_plain t : plain t -> special t = None.
Proof.
  destruct t as [|c r]; [done|]. intros H. apply Forall_inv in H as [_ Hc].
  unfold special. by rewrite Hc.
Qed.

Lemma unmatched_plain m s :
  (forall t, plain t -> m t = None) -> plain s -> unmatched m s.
Proof.
  intros Hm. induction s as [|c r IH]; [done|]. intros H.
  split; [by apply Hm|]. apply IH. by apply Forall_inv_tail in H.
Qed.

Lemma sub_emote_plain s : plain s -> Re.sub emote s = s.
Proof. intros. by apply scan_unmatched, unmatched_plain; [apply emote_plain|]. Qed.

Lemma sub_url_plain s : plain s -> Re.sub url s = s.
Proof. intros. by apply scan_unmatched, unmatched_plain; [apply url_plain|]. Qed.

Lemma sub_special_plain s : plain s -> Re.sub special s = s.
Proof. intros. by apply scan_unmatched, unmatched_plain; [apply special_plain|]. Qed.

(** *** Induction on the length of the text *)

Lemma length_ind {A} (P : list A -> Prop) :
  (forall s, (forall t, (length t < length s)%nat -> P t) -> P s) ->
  forall s, P s.
Proof.
  intros H s. remember (length s) as n eqn:Hn. revert s Hn.
  induction (lt_wf n) as [n _ IH]. intros s ->.
  apply H. intros t Ht. by eapply IH.
Qed.

(** *** The whitespace step *)

Lemma span_cons p c r :
  span p (c :: r) = if p c then S (span p r) else 0%nat.
Proof. reflexivity. Qed.

Lemma span_0_solid t : span is_space t = 0%nat -> starts_solid t = true.
Proof.
  destruct t as [|c r]; [done|]. rewrite span_cons. simpl.
  by destruct (is_space c).
Qed.

Lemma solid_span_0 t : starts_solid t = true -> span is_space t = 0%nat.
Proof.
  destruct t as [|c r]; [done|]. rewrite span_cons. simpl.
  by destruct (is_space c).
Qed.

Lemma sub_spaces_cons c r :
  Re.sub spaces (c :: r) =
  if is_space c then space :: Re.sub spaces (drop (span is_space r) r)
  else c :: Re.sub spaces r.
Proof.
  unfold Re.sub. rewrite scan_cons. unfold spaces. rewrite span_cons.
  by destruct (is_space c).
Qed.

Lemma sub_spaces_solid s :
  starts_solid (Re.sub spaces s) = starts_solid s.
Proof.
  destruct s as [|c r]; [done|]. rewrite sub_spaces_cons.
  by destruct (is_space c) eqn:Hc; simpl; rewrite ?Hc.
Qed.

Lemma sub_spaces_collapsed s : collapsed (Re.sub spaces s) = true.
Proof.
  induction s as [s IH] using length_ind.
  destruct s as [|c r]; [done|]. rewrite sub_spaces_cons.
  destruct (is_space c) eqn:Hc.
  - change (collapsed (space :: ?y))
      with (starts_solid y && collapsed y).
    rewrite sub_spaces_solid, (span_0_solid _ (span_drop _ _)). simpl.
    apply IH. rewrite length_drop. simpl. lia.
  - simpl. rewrite Hc. apply IH. simpl. lia.
Qed.

Lemma lstrip_solid s : starts_solid (lstrip s) = true.
Proof.
  induction s as [|c r IH]; [done|]. simpl.
  destruct (is_space c) eqn:Hc; [done|]. simpl. by rewrite Hc.
Qed.

Lemma collapsed_tail c r : collapsed (c :: r) = true -> collapsed r = true.
Proof. simpl. by intros [_ ?]%andb_prop. Qed.

Lemma lstrip_collapsed s : collapsed s = true -> collapsed (lstrip s) = true.
Proof.
  induction s as [|c r IH]; [done|]. intros H. simpl.
  destruct (is_space c); [|done]. apply IH. by eapply collapsed_tail.
Qed.

Lemma lstrip_app_nonspace a c :
  is_space c = false -> lstrip (a ++ [c]) = lstrip a ++ [c].
Proof.
  intros Hc. induction a as [|x a IH]; simpl; [by rewrite Hc|].
  by destruct (is_space x).
Qed.

Lemma lstrip_app a c :
  lstrip (a ++ [c]) =
  match lstrip a with
  | [] => if is_space c then [] else [c]
  | t => t ++ [c]
  end.
Proof.
  induction a as [|x a IH]; simpl; [done|].
  destruct (is_space x); [done|]. done.
Qed.

Lemma rstrip_cons c r :
  rstrip (c :: r) =
  match rstrip r with
  | [] => if is_space c then [] else [c]
  | t => c :: t
  end.
Proof.
  unfold rstrip. simpl. rewrite lstrip_app.
  destruct (lstrip (rev r)) as [|x t] eqn:Hl; simpl.
  - by destruct (is_space c).
  - rewrite rev_app_distr. simpl.
    destruct (rev t ++ [x]) eqn:E; [by destruct (rev t)|done].
Qed.

Lemma rstrip_shape s :
  collapsed s = true ->
  spaced (rstrip s) = true ∧
  (starts_solid s = true -> starts_solid (rstrip s) = true).
Proof.
  induction s as [|c r IH]; [done|]. intros H.
  pose proof (collapsed_tail _ _ H) as Hr. destruct (IH Hr) as [IH1 IH2].
  rewrite rstrip_cons. simpl in H. simpl.
  destruct (is_space c) eqn:Hc.
  - apply andb_prop in H as [[Heq Hsolid]%andb_prop _].
    split; [|done].
    destruct (rstrip r) as [|x t] eqn:Ht; [done|].
    change (spaced (c :: x :: t))
      with ((if is_space c
             then (c =? space)%N && starts_solid (x :: t)
                  && negb (bool_decide (x :: t = []))
             else true) && spaced (x :: t)).
    rewrite Hc, Heq, IH1, (IH2 Hsolid). done.
  - split.
    + destruct (rstrip r) as [|x t] eqn:Ht; simpl; rewrite Hc; done.
    + intros _. destruct (rstrip r); simpl; by rewrite Hc.
Qed.

(** The whitespace step of [_clean_text] yields normalized text. *)
Lemma strip_sub_spaces_normalized s :
  normalized (strip (Re.sub spaces s)) = true.
Proof.
  unfold normalized, strip.
  destruct (rstrip_shape (lstrip (Re.sub spaces s))) as [H1 H2].
  { apply lstrip_collapsed, sub_spaces_collapsed. }
  rewrite H1, H2; [done|apply lstrip_solid].
Qed.

Lemma spaced_tail c r : spaced (c :: r) = true -> spaced r = true.
Proof. simpl. by intros [_ ?]%andb_prop. Qed.

Lemma sub_spaces_spaced s : spaced s = true -> Re.sub spaces s = s.
Proof.
  induction s as [|c r IH]; [done|]. intros H.
  pose proof (spaced_tail _ _ H) as Hr.
  rewrite sub_spaces_cons. simpl in H.
  destruct (is_space c) eqn:Hc; [|by rewrite IH].
  apply andb_prop in H as [[[Heq Hsolid]%andb_prop _]%andb_prop _].
  apply N.eqb_eq in Heq as ->.
  rewrite (solid_span_0 _ Hsolid), drop_0. by rewrite IH.
Qed.

Lemma lstrip_solid_id s : starts_solid s = true -> lstrip s = s.
Proof.
  destruct s as [|c r]; [done|]. simpl. by destruct (is_space c).
Qed.

Lemma rstrip_spaced s : spaced s = true -> rstrip s = s.
Proof.
  induction s as [|c r IH]; [done|]. intros H.
  pose proof (spaced_tail _ _ H) as Hr.
  rewrite rstrip_cons, (IH Hr). simpl in H.
  destruct r as [|x t]; [|done].
  destruct (is_space c); [|done].
  apply andb_prop in H as [[_ Hne]%andb_prop _]. done.
Qed.

(** On normalized text the whitespace step changes nothing. *)
Lemma strip_sub_spaces_id s :
  normalized s = true -> strip (Re.sub spaces s) = s.
Proof.
  unfold normalized, strip. intros [Hsolid Hsp]%andb_prop.
  by rewrite sub_spaces_spaced, lstrip_solid_id, rstrip_spaced.
Qed.

(** *** The repeated-character step *)

Lemma repeated_cons c r :
  repeated (c :: r) =
  if (c =? newline)%N then None
  else if (3 <=? span (N.eqb c) r)%nat
       then Some ([c; c], S (span (N.eqb c) r)) else None.
Proof. reflexivity. Qed.

Lemma sub_repeated_cons c r :
  Re.sub repeated (c :: r) =
  if negb (c =? newline)%N && (3 <=? span (N.eqb c) r)%nat
  then c :: c :: Re.sub repeated (drop (span (N.eqb c) r) r)
  else c :: Re.sub repeated r.
Proof.
  unfold Re.sub. rewrite scan_cons. unfold repeated.
  destruct (c =? newline)%N; [done|].
  by destruct (3 <=? span (N.eqb c) r)%nat.
Qed.

Lemma sub_repeated_solid s :
  starts_solid (Re.sub repeated s) = starts_solid s.
Proof.
  destruct s as [|c r]; [done|]. rewrite sub_repeated_cons.
  by destruct (_ && _).
Qed.

Lemma sub_repeated_nil s : Re.sub repeated s = [] -> s = [].
Proof.
  destruct s as [|c r]; [done|]. rewrite sub_repeated_cons.
  by destruct (_ && _).
Qed.

Lemma span_eqb_0 c d r : c ≠ d -> span (N.eqb c) (d :: r) = 0%nat.
Proof. intros H. rewrite span_cons. by apply N.eqb_neq in H as ->. Qed.

Lemma span_eqb_S c r : span (N.eqb c) (c :: r) = S (span (N.eqb c) r).
Proof. by rewrite span_cons, N.eqb_refl. Qed.

(** A run is not longer after the step than before. *)
Lemma sub_repeated_span c s :
  (span (N.eqb c) (Re.sub repeated s) <= span (N.eqb c) s)%nat.
Proof.
  induction s as [s IH] using length_ind.
  destruct s as [|d r]; [done|]. rewrite sub_repeated_cons.
  destruct (decide (c = d)) as [<-|Hne].
  2:{ destruct (_ && _); rewrite !span_eqb_0 by done; lia. }
  destruct (negb (c =? newline)%N && (3 <=? span (N.eqb c) r)%nat) eqn:Hm.
  - apply andb_prop in Hm as [_ Hn%Nat.leb_le].
    rewrite !span_eqb_S.
    pose proof (IH (drop (span (N.eqb c) r) r)) as Hd.
    rewrite span_drop in Hd. rewrite length_drop in Hd. simpl in Hd.
    pose proof (span_le (N.eqb c) r). lia.
  - rewrite !span_eqb_S. pose proof (IH r). simpl in *. lia.
Qed.

(** After the step no run of four is left. *)
Lemma sub_repeated_unmatched s : unmatched repeated (Re.sub repeated s).
Proof.
  induction s as [s IH] using length_ind.
  destruct s as [|c r]; [done|]. rewrite sub_repeated_cons.
  destruct (negb (c =? newline)%N && (3 <=? span (N.eqb c) r)%nat) eqn:Hm.
  - apply andb_prop in Hm as [Hnl%negb_true_iff Hn].
    set (y := Re.sub repeated (drop (span (N.eqb c) r) r)).
    assert (span (N.eqb c) y = 0%nat) as Hy.
    { pose proof (sub_repeated_span c (drop (span (N.eqb c) r) r)) as H.
      rewrite span_drop in H. subst y. lia. }
    assert (unmatched repeated y) as Hu.
    { apply IH. rewrite length_drop. simpl. lia. }
    split; [|split; [|done]].
    + by rewrite repeated_cons, Hnl, span_eqb_S, Hy.
    + by rewrite repeated_cons, Hnl, Hy.
  - split; [|apply IH; simpl; lia].
    rewrite repeated_cons. destruct (c =? newline)%N eqn:Hnl; [done|].
    cbn [negb andb] in Hm. apply Nat.leb_gt in Hm.
    pose proof (sub_repeated_span c r) as H.
    destruct (3 <=? _)%nat eqn:E; [|done]. apply Nat.leb_le in E. lia.
Qed.

Lemma sub_repeated_fixed s :
  Re.sub repeated (Re.sub repeated s) = Re.sub repeated s.
Proof. apply scan_unmatched, sub_repeated_unmatched. Qed.

Lemma spaced_drop k s : spaced s = true -> spaced (drop k s) = true.
Proof.
  revert s. induction k as [|k IH]; intros s H; [by rewrite drop_0|].
  destruct s as [|c r]; [done|]. simpl. apply IH. by eapply spaced_tail.
Qed.

(** The step keeps spaces single and inside the text. *)
Lemma sub_repeated_spaced s :
  spaced s = true -> spaced (Re.sub repeated s) = true.
Proof.
  induction s as [s IH] using length_ind. intros H.
  destruct s as [|c r]; [done|].
  pose proof (spaced_tail _ _ H) as Hr. rewrite sub_repeated_cons.
  destruct (negb (c =? newline)%N && (3 <=? span (N.eqb c) r)%nat) eqn:Hm.
  - apply andb_prop in Hm as [_ Hn%Nat.leb_le].
    assert (is_space c = false) as Hc.
    { destruct (is_space c) eqn:Hc; [|done]. simpl in H. rewrite Hc in H.
      apply andb_prop in H as [[[_ Hsolid]%andb_prop _]%andb_prop _].
      destruct r as [|d t]; [simpl in Hn; lia|].
      rewrite span_cons in Hn.
      destruct (c =? d)%N eqn:E; [|lia]. apply N.eqb_eq in E as <-.
      simpl in Hsolid. by rewrite Hc in Hsolid. }
    simpl. rewrite Hc. simpl.
    apply IH; [rewrite length_drop; simpl; lia|by apply spaced_drop].
  - simpl in *. destruct (is_space c) eqn:Hc.
    + apply andb_prop in H as [[[Heq Hsolid]%andb_prop Hne]%andb_prop _].
      rewrite Heq, sub_repeated_solid, Hsolid. simpl.
      rewrite IH by (simpl; lia || done). rewrite andb_true_r.
      apply negb_true_iff, bool_decide_eq_false. intros E.
      apply sub_repeated_nil in E. subst r. done.
    + apply IH; [simpl; lia|done].
Qed.

Lemma sub_repeated_normalized s :
  normalized s = true -> normalized (Re.sub repeated s) = true.
Proof.
  unfold normalized. intros [Hsolid Hsp]%andb_prop.
  by rewrite sub_repeated_solid, Hsolid, sub_repeated_spaced.
Qed.

(** *** Plain text stays plain *)

Lemma sub_spaces_plain s : plain s -> plain (Re.sub spaces s).
Proof.
  apply scan_Forall. intros t out len _. unfold spaces.
  destruct (span is_space t); [done|]. intros [= <- _].
  constructor; [apply plain_space|constructor].
Qed.

Lemma sub_repeated_plain s : plain s -> plain (Re.sub repeated s).
Proof.
  apply scan_Forall. intros t out len Ht. unfold repeated.
  destruct t as [|c r]; [done|]. destruct (c =? newline)%N; [done|].
  destruct (3 <=? _)%nat; [|done]. intros [= <- _].
  apply Forall_inv in Ht. by apply Forall_cons_2; [|apply Forall_singleton].
Qed.

Lemma lstrip_plain s : plain s -> plain (lstrip s).
Proof.
  induction s as [|c r IH]; [done|]. intros H. simpl.
  destruct (is_space c); [|done]. apply IH. by apply Forall_inv_tail in H.
Qed.

Lemma strip_plain s : plain s -> plain (strip s).
Proof.
  intros H. unfold strip, rstrip, plain.
  apply Forall_rev. apply lstrip_plain. apply Forall_rev. by apply lstrip_plain.
Qed.

(** *** [_clean_text] *)

(** On plain text only the whitespace step and the repeated-character
    step act. *)
Lemma _clean_text_plain s :
  plain s -> _clean_text s = Re.sub repeated (strip (Re.sub spaces s)).
Proof.
  intros H. unfold _clean_text.
  rewrite sub_emote_plain, sub_url_plain by done.
  rewrite sub_special_plain; [done|]. by apply strip_plain, sub_spaces_plain.
Qed.

(** C5, as amended: [_clean_text] is idempotent on every text that holds
    no colon and none of the special characters it removes. *)
Theorem _clean_text_idempotent_on_plain x :
  plain x -> _clean_text (_clean_text x) = _clean_text x.
Proof.
  intros H. rewrite (_clean_text_plain x H).
  set (w := strip (Re.sub spaces x)).
  assert (plain w) as Hw by (by apply strip_plain, sub_spaces_plain).
  assert (normalized w = true) as Hn by apply strip_sub_spaces_normalized.
  rewrite _clean_text_plain by (by apply sub_repeated_plain).
  rewrite strip_sub_spaces_id by (by apply sub_repeated_normalized).
  apply sub_repeated_fixed.
Qed.

Lemma _clean_text_idempotent_on_plain_witness :
  plain (lit "Yaaaaaaaay   yes ") ∧
  _clean_text (_clean_text (lit "Yaaaaaaaay   yes "))
    = _clean_text (lit "Yaaaaaaaay   yes ").
Proof.
  assert (plain (lit "Yaaaaaaaay   yes ")) as H.
  { unfold plain. repeat (apply Forall_cons_2; [by split|]). apply Forall_nil_2. }
  split; [exact H|].
  exact (_clean_text_idempotent_on_plain (lit "Yaaaaaaaay   yes ") H).
Defined.

(** C5, as stated, fails.  Removing a special character between two
    spaces leaves a double space that only a second pass collapses;
    removing one inside [:a<b:] leaves an emote token; and collapsing the
    run of [t] in [htttttp://x] leaves a URL. *)
Lemma _clean_text_not_idempotent :
  _clean_text (_clean_text (lit "a < b")) ≠ _clean_text (lit "a < b") ∧
  _clean_text (_clean_text (lit ":a<b:")) ≠ _clean_text (lit ":a<b:") ∧
  _clean_text (_clean_text (lit "htttttp://x"))
    ≠ _clean_text (lit "htttttp://x").
Proof.
  assert (_clean_text (lit "a < b") = lit "a  b") as -> by (by vm_compute).
  assert (_clean_text (lit "a  b") = lit "a b") as -> by (by vm_compute).
  assert (_clean_text (lit ":a<b:") = lit ":ab:") as -> by (by vm_compute).
  assert (_clean_text (lit ":ab:") = []) as -> by (by vm_compute).
  assert (_clean_text (lit "htttttp://x") = lit "http://x") as ->
    by (by vm_compute).
  assert (_clean_text (lit "http://x") = []) as -> by (by vm_compute).
  split_and!; discriminate.
Qed.

(** C7: the text of scenario S7 is cleaned to [Yaay]; on the way the emote
    token goes first, then the URL, then the whitespace is collapsed and
    trimmed, no special character is found, and the run of [a] is cut to
    two. *)
Theorem _clean_text_S7 :
  let t0 := lit "Yaaaaaaaay https://x.y :Kappa:" in
  let t1 := Re.sub emote t0 in
  let t2 := Re.sub url t1 in
  let t3 := strip (Re.sub spaces t2) in
  let t4 := Re.sub special t3 in
  t1 = lit "Yaaaaaaaay https://x.y " ∧
  t2 = lit "Yaaaaaaaay  " ∧
  t3 = lit "Yaaaaaaaay" ∧
  t4 = lit "Yaaaaaaaay" ∧
  Re.sub repeated t4 = lit "Yaay" ∧
  _clean_text t0 = lit "Yaay".
Proof. by vm_compute. Qed.

(* ===================================================================== *)
(** ** The Super Chat threshold *)
(* ===================================================================== *)

Import PyStr Events.

(** C4 on the code: a Super Chat or Super Sticker of 1.15 against a
    minimum of 115 cents.  The product [1.15 * 100] is the binary64 number
    just below 115; [int] truncates it to 114 and the threshold check
    fails, where rounding gives 115 and lets the event pass; so
    [process_event] returns false and touches neither the synthesizer nor
    the queue, whatever they hold.  The amounts 0.50 and 1.00 of scenario
    S3 against a minimum of 100 fail and pass the check. *)
Theorem superchat_threshold_truncates
    md5 sha256 backend _format_message censor now message_id tts q :
  let self :=
    {| EventProcessor.config := Examples.processor_config 115;
       EventProcessor.tts_service := tts;
       EventProcessor.queue_service := q |} in
  PyFloat.int (PyFloat.mul_100 Examples.amount_1_15) = Some 114 ∧
  PyFloat.round (PyFloat.mul_100 Examples.amount_1_15) = Some 115 ∧
  EventProcessor._meets_threshold (Examples.processor_config 115)
    (Examples.superchat Examples.amount_1_15) = Some false ∧
  EventProcessor._meets_threshold (Examples.processor_config 115)
    (Examples.supersticker Examples.amount_1_15) = Some false ∧
  Spec.amount_meets 115 Examples.amount_1_15 = Some true ∧
  EventProcessor.process_event md5 sha256 backend _format_message censor
    now message_id (Examples.superchat Examples.amount_1_15) self
    = (EventProcessor.Return false, self) ∧
  EventProcessor._meets_threshold (Examples.processor_config 100)
    (Examples.superchat 0.5%float) = Some false ∧
  EventProcessor._meets_threshold (Examples.processor_config 100)
    (Examples.superchat 1%float) = Some true.
Proof.
  intros self. split_and!; by vm_compute.
Qed.

(* ===================================================================== *)
(** ** Audio retrieval *)
(* ===================================================================== *)

Import Layout.

Lemma replace_cons old new c r :
  replace old new (c :: r) =
  match strip_prefix old (c :: r) with
  | Some _ => new ++ replace old new (drop (Nat.pred (length old)) r)
  | None => c :: replace old new r
  end.
Proof.
  unfold replace. rewrite scan_cons. by destruct (strip_prefix old (c :: r)).
Qed.

(** Removing a character leaves none of it. *)
Lemma replace_char_gone c s : Forall (fun x => x ≠ c) (replace [c] [] s).
Proof.
  induction s as [|x r IH]; [done|]. rewrite replace_cons.
  rewrite strip_prefix_cons. destruct (c =? x)%N eqn:E; simpl.
  - by rewrite drop_0.
  - constructor; [|done]. apply N.eqb_neq in E. congruence.
Qed.

(** Removing text adds no character. *)
Lemma replace_Forall (Q : N -> Prop) old s :
  Forall Q s -> Forall Q (replace old [] s).
Proof.
  apply scan_Forall. intros t out len _.
  destruct (strip_prefix old t); [|done]. by intros [= <- _].
Qed.

Lemma replace_dotdot_cons a r :
  replace (lit "..") [] (a :: r) =
  if (a =? dot)%N && match r with b :: _ => (b =? dot)%N | [] => false end
  then replace (lit "..") [] (drop 1 r)
  else a :: replace (lit "..") [] r.
Proof.
  rewrite replace_cons. change (lit "..") with [dot; dot].
  rewrite strip_prefix_cons, (N.eqb_sym dot a).
  destruct (a =? dot)%N; [|done]. destruct r as [|b r]; [done|].
  rewrite strip_prefix_cons, (N.eqb_sym dot b). by destruct (b =? dot)%N.
Qed.

(** What is left does not start with a dot unless the text did. *)
Lemma replace_dotdot_head b r :
  (b =? dot)%N = false ->
  exists t, replace (lit "..") [] (b :: r) = b :: t.
Proof. intros Hb. rewrite replace_dotdot_cons, Hb. by eexists. Qed.

(** Removing [..] in one pass leaves no [..]. *)
Lemma no_dotdot_cons a r :
  no_dotdot (a :: r) =
  negb ((a =? dot)%N && match r with b :: _ => (b =? dot)%N | [] => false end)
  && no_dotdot r.
Proof. reflexivity. Qed.

Lemma replace_dotdot_gone s : no_dotdot (replace (lit "..") [] s) = true.
Proof.
  induction s as [s IH] using length_ind.
  destruct s as [|a r]; [done|]. rewrite replace_dotdot_cons.
  destruct (a =? dot)%N eqn:Ha; cbn [andb].
  - destruct r as [|b r]; [by rewrite no_dotdot_cons, Ha|].
    destruct (b =? dot)%N eqn:Hb.
    + apply IH. simpl. rewrite length_drop. lia.
    + destruct (replace_dotdot_head b r Hb) as [t Ht].
      pose proof (IH (b :: r)) as Hr. rewrite Ht in *.
      rewrite no_dotdot_cons, Ha, Hb. apply Hr. simpl. lia.
  - rewrite no_dotdot_cons, Ha. apply IH. simpl. lia.
Qed.

(** The identifier that [get_audio] resolves holds no separator and no
    [..]. *)
Lemma sanitize_audio_id_safe audio_id :
  let id := Api.sanitize_audio_id audio_id in
  Forall (fun c => c ≠ slash) id ∧ Forall (fun c => c ≠ backslash) id ∧
  no_dotdot id = true.
Proof.
  unfold Api.sanitize_audio_id. split_and!.
  - apply replace_Forall, replace_Forall. apply (replace_char_gone slash).
  - apply replace_Forall. apply (replace_char_gone backslash).
  - apply replace_dotdot_gone.
Qed.

(** *** Paths *)

Lemma split_slash_cons cur c r :
  FS.split_slash cur (c :: r) =
  if (c =? slash)%N then rev cur :: FS.split_slash [] r
  else FS.split_slash (c :: cur) r.
Proof. reflexivity. Qed.

Lemma split_slash_plain cur s :
  Forall (fun c => c ≠ slash) s -> FS.split_slash cur s = [rev cur ++ s].
Proof.
  revert cur. induction s as [|c r IH]; intros cur H.
  - simpl. by rewrite app_nil_r.
  - pose proof (Forall_inv H) as Hc. apply N.eqb_neq in Hc.
    rewrite split_slash_cons, Hc, IH by (by apply Forall_inv_tail in H).
    simpl. by rewrite <-app_assoc.
Qed.

(** A name without a slash that ends in [.wav] is one component. *)
Lemma joinpath_name base id :
  Forall (fun c => c ≠ slash) id ->
  FS.joinpath base (id ++ lit ".wav") = base ++ [id ++ lit ".wav"].
Proof.
  intros Hid.
  assert (Forall (fun c => c ≠ slash) (id ++ lit ".wav")) as Hname.
  { apply Forall_app. split; [done|].
    repeat (apply Forall_cons_2; [done|]). apply Forall_nil_2. }
  unfold FS.joinpath.
  assert (FS.is_absolute (id ++ lit ".wav") = false) as ->.
  { destruct id as [|c r]; [done|]. simpl.
    apply Forall_inv in Hid. by apply N.eqb_neq. }
  f_equal. unfold FS.parts. rewrite split_slash_plain by done. simpl.
  assert (id ++ lit ".wav" ≠ []) as H1 by (by destruct id).
  assert (id ++ lit ".wav" ≠ lit ".") as H2.
  { intros E. apply (f_equal length) in E. rewrite length_app in E.
    simpl in E. lia. }
  by rewrite !bool_decide_eq_false_2.
Qed.

Lemma resolve_from_snoc acc p name :
  name ≠ lit ".." ->
  FS.resolve_from acc (p ++ [name]) = FS.resolve_from acc p ++ [name].
Proof.
  intros Hn. revert acc. induction p as [|c p IH]; intros acc; simpl.
  - by rewrite bool_decide_eq_false_2.
  - destruct (bool_decide _); apply IH.
Qed.

Lemma resolve_name base id :
  FS.resolve (base ++ [id ++ lit ".wav"])
  = FS.resolve base ++ [id ++ lit ".wav"].
Proof.
  apply resolve_from_snoc. intros E. apply (f_equal length) in E.
  rewrite length_app in E. simpl in E. lia.
Qed.

(** *** The handler *)

Lemma get_audio_spec tts audio_id :
  let id := Api.sanitize_audio_id audio_id in
  let target := FS.resolve (TTS.cache_path tts) ++ [id ++ lit ".wav"] in
  Forall (fun p => FS.resolve p = target) (Api.get_audio tts audio_id).2 ∧
  (Api.get_audio tts audio_id).1 =
    match TTS.fs tts !! target with
    | Some f => Api.R200 (FS.content f)
    | None => Api.R404
    end.
Proof.
  intros id target.
  destruct (sanitize_audio_id_safe audio_id) as (Hslash & _ & _).
  fold id in Hslash.
  pose proof (joinpath_name (TTS.cache_path tts) id Hslash) as Hj.
  pose proof (resolve_name (TTS.cache_path tts) id) as Hr. fold target in Hr.
  unfold Api.get_audio, TTS.get_audio_path, FS.exists_, FS.stat.
  change (Api.sanitize_audio_id audio_id) with id.
  rewrite Hj, Hr.
  destruct (TTS.fs tts !! target) as [f|] eqn:Hf.
  - rewrite Hr, Hf. split; [|done]. by repeat constructor.
  - split; [|done]. by repeat constructor.
Qed.

(** C8: the identifier that [get_audio] resolves holds no slash, no
    backslash and no [..]; the only path the handler hands to the file
    system is the file of that name (with [.wav]) directly in the cache
    directory; the answer is the content of that file, and 404 when there
    is none.  [../etc/passwd] is sanitized to [etcpasswd], which names no
    file of a cache directory laid out as the specification says, so the
    answer is 404. *)
Theorem get_audio_confined tts audio_id :
  let id := Api.sanitize_audio_id audio_id in
  let target := FS.resolve (TTS.cache_path tts) ++ [id ++ lit ".wav"] in
  (Forall (fun c => c ≠ slash) id ∧ Forall (fun c => c ≠ backslash) id ∧
   no_dotdot id = true) ∧
  Forall (fun p => FS.resolve p = target) (Api.get_audio tts audio_id).2 ∧
  (Api.get_audio tts audio_id).1 =
    match TTS.fs tts !! target with
    | Some f => Api.R200 (FS.content f)
    | None => Api.R404
    end ∧
  Api.sanitize_audio_id (lit "../etc/passwd") = lit "etcpasswd" ∧
  (cache_layout tts ->
   (Api.get_audio tts (lit "../etc/passwd")).1 = Api.R404).
Proof.
  intros id target.
  split; [apply sanitize_audio_id_safe|].
  destruct (get_audio_spec tts audio_id) as [Hpaths Hresp].
  split; [exact Hpaths|]. split; [exact Hresp|].
  assert (Api.sanitize_audio_id (lit "../etc/passwd") = lit "etcpasswd")
    as Hid by (by vm_compute).
  split; [exact Hid|]. intros Hlayout. clear Hpaths Hresp.
  destruct (get_audio_spec tts (lit "../etc/passwd")) as [_ ->].
  rewrite Hid.
  destruct (TTS.fs tts !! _) as [f|] eqn:Hf; [|done].
  destruct (Hlayout _ _ Hf) as (key & Hkey & Hlen & _).
  apply app_inv_tail in Hkey. subst key. done.
Qed.

Lemma get_audio_confined_witness :
  cache_layout Examples.tts_one ∧
  (Api.get_audio Examples.tts_one (lit "../etc/passwd")).1 = Api.R404 ∧
  (Api.get_audio Examples.tts_one (lit "../0123456789abcdef")).1
    = Api.R200 [Byte.x52; Byte.x49; Byte.x46; Byte.x46].
Proof.
  assert (cache_layout Examples.tts_one) as Hlayout.
  { intros name f H. exists (lit "0123456789abcdef").
    split; [|by split]. unfold Examples.tts_one in H.
    cbn [TTS.fs TTS.cache_path] in H.
    apply lookup_singleton_Some in H as [H _].
    change (FS.resolve Examples.cache_dir) with Examples.cache_dir in H.
    by apply app_inv_head in H as [= <-]. }
  split; [exact Hlayout|].
  destruct (get_audio_confined Examples.tts_one (lit "../etc/passwd"))
    as (_ & _ & _ & _ & H404).
  split; [exact (H404 Hlayout)|].
  destruct (get_audio_confined Examples.tts_one (lit "../0123456789abcdef"))
    as (_ & _ & -> & _).
  by vm_compute.
Defined.

(* ===================================================================== *)
(** ** The synthesizer and its cache *)
(* ===================================================================== *)

Import PyStr TTS.

Section synthesizer.
Variable sha256 : list N -> list N.
Variable backend : nat -> list N -> list N -> option (list Byte.byte).

Lemma _cleanup_cache_frame now s :
  config (_cleanup_cache now s) = config s ∧
  cache_path (_cleanup_cache now s) = cache_path s ∧
  backend_calls (_cleanup_cache now s) = backend_calls s.
Proof. done. Qed.

(** [synthesize] keeps the settings and the cache directory, and calls
    the backend at most once. *)
Lemma synthesize_frame now text cache s :
  let s' := (synthesize sha256 backend now text cache s).2 in
  config s' = config s ∧ cache_path s' = cache_path s ∧
  (length (backend_calls s') <= length (backend_calls s) + 1)%nat.
Proof.
  unfold synthesize. cbv zeta.
  destruct (synthesize_begin sha256 text cache s) as [r|t];
    [cbn [snd]; split_and!; [done..|lia]|].
  unfold call_backend, synthesize_finish.
  destruct (backend _ _ _); cbn [snd]; (split_and!; [done..|]);
    cbn [backend_calls _cleanup_cache with_fs with_call];
    rewrite length_app; simpl; lia.
Qed.

Lemma prepare_config text s s' :
  config s' = config s -> prepare s' text = prepare s text.
Proof. intros H. unfold prepare. by rewrite H. Qed.

Lemma cached_path_of_config text s s' :
  config s' = config s -> cache_path s' = cache_path s ->
  cached_path_of sha256 s' text = cached_path_of sha256 s text.
Proof.
  intros H1 H2. unfold cached_path_of, _get_cache_key. by rewrite H1, H2.
Qed.

(** A successful call returns the path of the artifact of the prepared
    text. *)
Lemma synthesize_Ok now text cache s path :
  (synthesize sha256 backend now text cache s).1 = Ok path ->
  exists t, prepare s text = Some t ∧
            path = FS.to_str (cached_path_of sha256 s t).
Proof.
  unfold synthesize, synthesize_begin.
  destruct (prepare s text) as [t|]; [|done].
  destruct (cache && _).
  - intros [= <-]. by exists t.
  - simpl. unfold synthesize_finish. destruct (backend _ _ _); [|done].
    simpl. intros [= <-]. by exists t.
Qed.

(** A call that finds the artifact returns its path and changes
    nothing. *)
Lemma synthesize_hit now text s t :
  prepare s text = Some t ->
  FS.exists_ (fs s) (cached_path_of sha256 s t) = true ->
  synthesize sha256 backend now text true s
  = (Ok (FS.to_str (cached_path_of sha256 s t)), s).
Proof.
  intros Hp He. unfold synthesize, synthesize_begin. by rewrite Hp, He.
Qed.

(** C3, as amended: when a call of [synthesize] succeeds and the artifact
    of its text is in the cache when a second call for the same text starts
    (under the same voice and speed), the second call returns the same
    path, calls no backend and leaves the service, and so the artifact's
    bytes, as they were; the two calls together call the backend at most
    once. *)
Theorem synthesize_twice now1 now2 text s path :
  let r1 := synthesize sha256 backend now1 text true s in
  let r2 := synthesize sha256 backend now2 text true r1.2 in
  r1.1 = Ok path ->
  (forall t, prepare s text = Some t ->
     FS.exists_ (fs r1.2) (cached_path_of sha256 s t) = true) ->
  r2 = (Ok path, r1.2) ∧
  backend_calls r2.2 = backend_calls r1.2 ∧
  fs r2.2 = fs r1.2 ∧
  (length (backend_calls r2.2) <= length (backend_calls s) + 1)%nat.
Proof.
  intros r1 r2 Hok Hin.
  destruct (synthesize_Ok _ _ _ _ _ Hok) as (t & Hp & ->).
  destruct (synthesize_frame now1 text true s) as (Hc & Hd & Hn).
  fold r1 in Hc, Hd, Hn.
  assert (r2 = (Ok (FS.to_str (cached_path_of sha256 s t)), r1.2)) as Hr2.
  { subst r2. rewrite <-(cached_path_of_config t s r1.2 Hc Hd).
    apply synthesize_hit.
    - by rewrite (prepare_config text s r1.2 Hc).
    - rewrite (cached_path_of_config t s r1.2 Hc Hd). by apply Hin. }
  rewrite Hr2. done.
Qed.
End synthesizer.

Lemma synthesize_twice_witness :
  let s := Examples.tts_empty 100 in
  let r1 := synthesize Examples.hash Examples.backend 0 (lit "hello") true s in
  let r2 :=
    synthesize Examples.hash Examples.backend 1 (lit "hello") true r1.2 in
  r1.1 = Ok (lit "/app/data/audio_cache/hello|en_GB-alan.wav") ∧
  r2 = (Ok (lit "/app/data/audio_cache/hello|en_GB-alan.wav"), r1.2) ∧
  length (backend_calls r2.2) = 1%nat.
Proof.
  intros s r1 r2.
  assert (r1.1 = Ok (lit "/app/data/audio_cache/hello|en_GB-alan.wav")) as H1
    by (by vm_compute).
  destruct (synthesize_twice Examples.hash Examples.backend 0 1 (lit "hello") s
              (lit "/app/data/audio_cache/hello|en_GB-alan.wav") H1)
    as (H2 & _).
  { intros t Ht.
    assert (prepare s (lit "hello") = Some (lit "hello")) as Hp
      by (by vm_compute).
    rewrite Hp in Ht. injection Ht as <-. by vm_compute. }
  split; [exact H1|]. split; [exact H2|]. by vm_compute.
Defined.

(** C3, as stated, fails.  Two calls for the same text that both look
    into the cache before either has written to it both call the backend,
    and the second overwrites the artifact of the first with other bytes.
    One after the other on a cache whose size limit is 0, the first call
    removes its own artifact again, and the second calls the backend a
    second time. *)
Lemma synthesize_is_not_single_flight :
  let hello := lit "hello" in
  (* two calls, interleaved *)
  let s0 := Examples.tts_empty 100 in
  let p := cached_path_of Examples.hash s0 hello in
  synthesize_begin Examples.hash hello true s0 = inr hello ∧
  let '(a1, s1) := call_backend Examples.backend hello s0 in
  let '(a2, s2) := call_backend Examples.backend hello s1 in
  let '(r1, s3) := synthesize_finish Examples.hash 0 hello a1 s2 in
  let '(r2, s4) := synthesize_finish Examples.hash 0 hello a2 s3 in
  r1 = r2 ∧ ¬ (length (backend_calls s4) <= 1)%nat ∧
  FS.stat (fs s3) p ≠ FS.stat (fs s4) p ∧
  (* two calls, one after the other, with a size limit of 0 *)
  let z0 := Examples.tts_empty 0 in
  let '(q1, z1) := synthesize Examples.hash Examples.backend 0 hello true z0 in
  let '(q2, z2) := synthesize Examples.hash Examples.backend 1 hello true z1 in
  q1 = q2 ∧ ¬ (length (backend_calls z2) <= 1)%nat.
Proof.
  vm_compute. split_and!; try done; lia.
Qed.

(* ===================================================================== *)
(** ** The dispatch of messages *)
(* ===================================================================== *)

Import PyStr Events Queue Queue.QueueService HeapOrder Session Heapq Dispatch.

(** *** Polling *)

(** X1: on a queue in heap order, [get_next] on an empty queue returns
    nothing and changes nothing; otherwise it returns a message whose
    priority no queued message exceeds, takes exactly that entry out of the
    queue, makes the message the current one and drops its identifier from
    the registry; the queue it leaves is in heap order again. *)
Theorem get_next_takes_highest_priority s :
  queue_ok (_queue s) ->
  match get_next s with
  | (None, s') => _queue s = [] ∧ s' = s
  | (Some m, s') =>
      (exists item,
         PriorityItem.message item = m ∧ _queue s ≡ₚ item :: _queue s') ∧
      (forall other, other ∈ _queue s ->
         TTSMessage.priority (PriorityItem.message other)
         <= TTSMessage.priority m) ∧
      _current_message s' = Some m ∧
      _messages s' !! TTSMessage.id m = None ∧
      queue_ok (_queue s')
  end.
Proof.
  intros Hok.
  destruct (heappop PriorityItem.lt (_queue s)) as [[item q]|] eqn:Hpop.
  - rewrite (get_next_pop _ _ _ Hpop).
    destruct (queue_ok_pop _ _ _ Hok Hpop) as (Hok' & Hperm & _ & Hmax).
    split_and!; [by exists item|done|done| |done].
    simpl. apply lookup_delete_eq.
  - apply heappop_None in Hpop. by rewrite get_next_empty.
Qed.

Lemma get_next_takes_highest_priority_witness :
  queue_ok (_queue Examples.idle_with_two) ∧
  (get_next Examples.idle_with_two).1 = Some Examples.M3 ∧
  (forall other, other ∈ _queue Examples.idle_with_two ->
     TTSMessage.priority (PriorityItem.message other) <= 3).
Proof.
  assert (queue_ok (_queue Examples.idle_with_two)) as Hok.
  { exact (queue_ok_push _ Examples.M2
             (queue_ok_push _ Examples.M3 queue_ok_nil)). }
  split; [exact Hok|].
  pose proof (get_next_takes_highest_priority Examples.idle_with_two Hok) as H.
  assert (get_next Examples.idle_with_two
          = (Some Examples.M3, (get_next Examples.idle_with_two).2)) as E
    by (by vm_compute).
  rewrite E in H. destruct H as (_ & Hmax & _).
  split; [by rewrite E|exact Hmax].
Defined.

(** X2: messages leave the queue in order of priority: of two successive
    polls of a queue in heap order, the second never returns a message of
    higher priority than the first. *)
Theorem successive_polls_descend s m1 s1 m2 s2 :
  queue_ok (_queue s) ->
  get_next s = (Some m1, s1) ->
  get_next s1 = (Some m2, s2) ->
  TTSMessage.priority m2 <= TTSMessage.priority m1.
Proof.
  intros Hok H1 H2.
  destruct (heappop PriorityItem.lt (_queue s)) as [[item1 q1]|] eqn:Hp1.
  2:{ apply heappop_None in Hp1. rewrite get_next_empty in H1 by done.
      discriminate. }
  rewrite (get_next_pop _ _ _ Hp1) in H1. injection H1 as <- <-.
  destruct (queue_ok_pop _ _ _ Hok Hp1) as (Hok1 & Hperm1 & _ & Hmax1).
  set (s1 := with_current _ _) in H2.
  destruct (heappop PriorityItem.lt (_queue s1)) as [[item2 q2]|] eqn:Hp2.
  2:{ apply heappop_None in Hp2. rewrite get_next_empty in H2 by done.
      discriminate. }
  rewrite (get_next_pop _ _ _ Hp2) in H2. injection H2 as <- _.
  change (_queue s1) with q1 in Hp2.
  apply Hmax1. rewrite Hperm1, (heappop_perm _ _ _ _ Hp2). right. by left.
Qed.

Lemma successive_polls_descend_witness :
  TTSMessage.priority Examples.M2 <= TTSMessage.priority Examples.M3.
Proof.
  apply (successive_polls_descend Examples.idle_with_two Examples.M3
           (get_next Examples.idle_with_two).2 Examples.M2
           (get_next (get_next Examples.idle_with_two).2).2).
  - exact (queue_ok_push _ Examples.M2
             (queue_ok_push _ Examples.M3 queue_ok_nil)).
  - by vm_compute.
  - by vm_compute.
Defined.

(** *** The dispatcher is never idle while messages wait *)

Lemma busy_send_next s : busy (_send_next s).
Proof.
  destruct (heappop PriorityItem.lt (_queue s)) as [[item q]|] eqn:Hpop.
  - destruct (_send_next_pop _ _ _ Hpop) as (_ & Hcur & _).
    intros H. congruence.
  - apply heappop_None in Hpop. rewrite _send_next_empty by done. by intros _.
Qed.

Lemma make_room_empty s : _queue s = [] -> make_room s = inl s.
Proof. intros H. unfold make_room. rewrite H. by destruct (_ <=? _). Qed.

Lemma make_room_current s :
  match make_room s with
  | inl s' | inr s' => _current_message s' = _current_message s
  end.
Proof.
  unfold make_room. destruct (_ <=? _); [|done].
  destruct (heappop PriorityItem.lt (_queue s)) as [[removed q]|]; [|done].
  cbn [with_queue _messages]. by destruct (_messages s !! _).
Qed.

Lemma busy_add_message md5 now m s :
  busy s -> busy (add_message md5 now m s).2.
Proof.
  intros Hb. unfold add_message.
  destruct (DuplicateDetector.is_duplicate _ _ _ _) as [dup dd].
  destruct dup; [done|].
  set (r := match TTSMessage.event m with Some _ => _ | None => _ end).
  assert (busy r.2) as Hb2.
  { subst r. destruct (TTSMessage.event m) as [ev|]; [|done].
    by destruct (RateLimiter.is_allowed _ _ _) as [ok rl]. }
  destruct r as [allowed s2]. cbn [snd] in Hb2. destruct allowed; [|done].
  cbn [negb].
  destruct (_current_message s2) as [c|] eqn:Hcur.
  - pose proof (make_room_current s2) as Hroom. rewrite Hcur in Hroom.
    destruct (make_room s2) as [s3|s3]; cbn [snd].
    + set (s4 := with_messages _ (with_queue _ s3)).
      destruct (_notify_queue_update_frame now s4) as (_ & _ & Hc5 & _).
      change (_current_message s4) with (_current_message s3) in Hc5.
      rewrite Hroom in Hc5. cbv zeta. rewrite Hc5.
      intros Hn. congruence.
    + intros Hn. congruence.
  - rewrite (make_room_empty s2 (Hb2 Hcur)). cbn [snd].
    set (s4 := with_messages _ (with_queue _ s2)).
    destruct (_notify_queue_update_frame now s4) as (_ & _ & Hc5 & _).
    change (_current_message s4) with (_current_message s2) in Hc5.
    rewrite Hcur in Hc5. cbv zeta. rewrite Hc5. apply busy_send_next.
Qed.

Lemma busy_step md5 c s : busy s -> busy (step md5 s c).
Proof.
  intros Hb. destruct c as [now m| |mid| |now|now]; cbn [step].
  - by apply busy_add_message.
  - unfold get_next.
    destruct (heappop PriorityItem.lt (_queue s)) as [[item q]|]; [done|done].
  - apply busy_send_next.
  - apply busy_send_next.
  - by intros _.
  - pose proof (get_queue_status_frame now s) as H.
    destruct (get_queue_status now s) as [st s'].
    destruct H as (_ & _ & Hq & _ & _ & Hc & _).
    change (busy s'). unfold busy. by rewrite Hq, Hc.
Qed.

(** X3: in every state that a sequence of calls reaches from a new
    service, a message is in flight whenever messages are queued: if no
    message is in flight, the queue is empty. *)
Theorem never_idle_with_work md5 cfg calls :
  _current_message (run md5 cfg calls) = None ->
  _queue (run md5 cfg calls) = [].
Proof.
  unfold run.
  assert (busy (init cfg)) as Hb by (by intros _).
  revert Hb. generalize (init cfg).
  induction calls as [|c calls IH]; intros s Hb; [exact Hb|].
  simpl. apply IH. by apply busy_step.
Qed.

Lemma never_idle_with_work_witness :
  _queue (run Examples.hash (Examples.config_of 5)
            [Offer 0 Examples.M1; Complete (lit "M1")]) = [].
Proof.
  apply never_idle_with_work. by vm_compute.
Defined.

(** *** What an offer leaves behind *)

Lemma add_message_cases md5 now m s :
  let s' := (add_message md5 now m s).2 in
  match (add_message md5 now m s).1 with
  | Return true =>
      _current_message s' = Some m ∨ PriorityItem.init m ∈ _queue s'
  | Return false =>
      _queue s' = _queue s ∧ _current_message s' = _current_message s ∧
      _messages s' = _messages s ∧ emitted s' = emitted s
  | KeyError =>
      (exists removed, _queue s ≡ₚ removed :: _queue s') ∧
      _current_message s' = _current_message s ∧ emitted s' = emitted s
  end.
Proof.
  unfold add_message.
  destruct (DuplicateDetector.is_duplicate _ _ _ _) as [dup dd].
  destruct dup; [done|].
  set (r := match TTSMessage.event m with Some _ => _ | None => _ end).
  assert (_queue r.2 = _queue s ∧ _current_message r.2 = _current_message s ∧
          _messages r.2 = _messages s ∧ emitted r.2 = emitted s)
    as (Hq2 & Hc2 & Hm2 & He2).
  { subst r. destruct (TTSMessage.event m) as [ev|]; [|done].
    by destruct (RateLimiter.is_allowed _ _ _) as [ok rl]. }
  destruct r as [allowed s2]. cbn [snd] in Hq2, Hc2, Hm2, He2.
  destruct allowed; [|done]. cbn [negb]. unfold make_room.
  set (push := fun s3 : t =>
         with_messages (<[TTSMessage.id m := m]> (_messages s3))
           (with_queue
              (heappush PriorityItem.lt (_queue s3) (PriorityItem.init m)) s3)).
  assert (forall s3,
            let s5 := _notify_queue_update now (push s3) in
            let s6 := match _current_message s5 with
                      | None => _send_next s5
                      | Some _ => s5
                      end in
            _current_message s6 = Some m ∨ PriorityItem.init m ∈ _queue s6)
    as Hacc.
  { intros s3 s5 s6.
    destruct (_notify_queue_update_frame now (push s3)) as (Hq5 & _).
    fold s5 in Hq5.
    assert (PriorityItem.init m ∈ _queue s5) as Hin.
    { rewrite Hq5. cbn [push with_messages with_queue _queue].
      rewrite heappush_perm. by left. }
    subst s6. destruct (_current_message s5); [by right|].
    destruct (heappop PriorityItem.lt (_queue s5)) as [[item q]|] eqn:Hpop.
    - destruct (_send_next_pop _ _ _ Hpop) as (Hq6 & Hc6 & _).
      rewrite (heappop_perm _ _ _ _ Hpop) in Hin.
      apply elem_of_cons in Hin as [<-|Hin].
      + left. by rewrite Hc6.
      + right. by rewrite Hq6.
    - apply heappop_None in Hpop. rewrite Hpop in Hin.
      by apply elem_of_nil in Hin. }
  destruct (_ <=? _); [|exact (Hacc s2)].
  destruct (heappop PriorityItem.lt (_queue s2)) as [[removed q]|] eqn:Hpop;
    [|exact (Hacc s2)].
  cbn [with_queue _messages].
  destruct (_messages s2 !! _); [apply Hacc|].
  cbn [fst snd with_queue _queue _current_message emitted].
  rewrite <-Hq2. split_and!; [|done..].
  exists removed. by apply heappop_perm in Hpop.
Qed.

(** X4: what [add_message] leaves behind, by its outcome.  After it
    returns true the offered message is in flight or in the queue.  After
    it returns false (a duplicate, or over the rate limit) the queue, the
    message in flight, the registry and what was emitted are as before.
    When the [del] raises, an entry has left the queue and nothing was
    emitted. *)
Theorem add_message_outcome md5 now m s :
  let s' := (add_message md5 now m s).2 in
  match (add_message md5 now m s).1 with
  | Return true =>
      _current_message s' = Some m ∨ PriorityItem.init m ∈ _queue s'
  | Return false =>
      _queue s' = _queue s ∧ _current_message s' = _current_message s ∧
      _messages s' = _messages s ∧ emitted s' = emitted s
  | KeyError =>
      (exists removed, _queue s ≡ₚ removed :: _queue s') ∧
      _current_message s' = _current_message s ∧ emitted s' = emitted s
  end.
Proof. apply add_message_cases. Qed.

(** *** The registry of queued messages *)

Lemma registry_pop s item q :
  registry_ok s ->
  heappop PriorityItem.lt (_queue s) = Some (item, q) ->
  _messages s !! item_id item = Some (PriorityItem.message item) ∧
  registry_ok
    (with_messages (delete (item_id item) (_messages s)) (with_queue q s)).
Proof.
  intros (Hnd & Hin & Hout) Hpop.
  pose proof (heappop_perm _ _ _ _ Hpop) as Hperm.
  assert (item ∈ _queue s) as Hitem by (rewrite Hperm; by left).
  split; [by apply Hin|].
  unfold ids in Hnd. rewrite Hperm in Hnd. cbn [map] in Hnd.
  apply NoDup_cons in Hnd as [Hfresh Hnd'].
  assert (forall other, other ∈ q -> item_id other ≠ item_id item) as Hne.
  { intros other Ho E. apply Hfresh. rewrite <-E.
    apply list_elem_of_fmap. by exists other. }
  split_and!; cbn [with_messages with_queue _queue _messages].
  - exact Hnd'.
  - intros other Ho. rewrite lookup_delete_ne by (symmetry; by apply Hne).
    apply Hin. rewrite Hperm. by right.
  - intros k mm Hk. apply lookup_delete_Some in Hk as [Hkne Hk].
    destruct (Hout _ _ Hk) as (other & Ho & Hm & Hid).
    exists other. split_and!; [|done..].
    rewrite Hperm in Ho. apply elem_of_cons in Ho as [->|Ho]; [|done].
    unfold item_id in Hkne. congruence.
Qed.

Lemma registry_ok_ext s s' :
  _queue s' = _queue s -> _messages s' = _messages s ->
  registry_ok s -> registry_ok s'.
Proof. unfold registry_ok. by intros -> ->. Qed.

Lemma registry_push s m :
  registry_ok s -> TTSMessage.id m ∉ ids (_queue s) ->
  registry_ok
    (with_messages (<[TTSMessage.id m := m]> (_messages s))
       (with_queue
          (heappush PriorityItem.lt (_queue s) (PriorityItem.init m)) s)).
Proof.
  intros (Hnd & Hin & Hout) Hfresh.
  assert (forall other, other ∈ _queue s -> TTSMessage.id m ≠ item_id other)
    as Hne.
  { intros other Ho E. apply Hfresh. rewrite E.
    apply list_elem_of_fmap. by exists other. }
  split_and!; cbn [with_messages with_queue _queue _messages].
  - unfold ids. rewrite heappush_perm. cbn [map]. by apply NoDup_cons.
  - intros item Hi. rewrite heappush_perm in Hi.
    apply elem_of_cons in Hi as [->|Hi].
    + apply lookup_insert_eq.
    + rewrite lookup_insert_ne by (by apply Hne). by apply Hin.
  - intros k mm Hk. apply lookup_insert_Some in Hk as [[<- <-]|[Hkne Hk]].
    + exists (PriorityItem.init m). rewrite heappush_perm.
      split_and!; [by left|done..].
    + destruct (Hout _ _ Hk) as (other & Ho & Hm & Hid).
      exists other. rewrite heappush_perm. split_and!; [by right|done..].
Qed.

Lemma registry_send_next s :
  registry_ok s ->
  registry_ok (_send_next s) ∧
  forall item, item ∈ _queue (_send_next s) -> item ∈ _queue s.
Proof.
  intros Hok.
  destruct (heappop PriorityItem.lt (_queue s)) as [[item q]|] eqn:Hpop.
  - destruct (_send_next_pop _ _ _ Hpop) as (Hq & _ & Hm & _).
    destruct (registry_pop _ _ _ Hok Hpop) as [_ Hok'].
    split.
    + revert Hok'. by apply registry_ok_ext.
    + intros other Ho. rewrite Hq in Ho.
      rewrite (heappop_perm _ _ _ _ Hpop). by right.
  - apply heappop_None in Hpop. by rewrite _send_next_empty.
Qed.

Lemma registry_add_message md5 now m s :
  registry_ok s -> TTSMessage.id m ∉ ids (_queue s) ->
  (add_message md5 now m s).1 ≠ KeyError ∧
  registry_ok (add_message md5 now m s).2 ∧
  forall item, item ∈ _queue (add_message md5 now m s).2 ->
    item ∈ _queue s ∨ item = PriorityItem.init m.
Proof.
  intros Hok Hfresh. unfold add_message.
  destruct (DuplicateDetector.is_duplicate _ _ _ _) as [dup dd].
  destruct dup; [split_and!; [done|done|by left]|].
  set (r := match TTSMessage.event m with Some _ => _ | None => _ end).
  assert (_queue r.2 = _queue s ∧ _messages r.2 = _messages s) as [Hq2 Hm2].
  { subst r. destruct (TTSMessage.event m) as [ev|]; [|done].
    by destruct (RateLimiter.is_allowed _ _ _) as [ok rl]. }
  destruct r as [allowed s2]. cbn [snd] in Hq2, Hm2.
  apply (registry_ok_ext _ s2 Hq2 Hm2) in Hok. rewrite <-Hq2 in *.
  clear Hq2 Hm2.
  destruct allowed; [|split_and!; [done|done|by left]]. cbn [negb].
  assert (exists s3,
            make_room s2 = inl s3 ∧ registry_ok s3 ∧
            forall item, item ∈ _queue s3 -> item ∈ _queue s2)
    as (s3 & -> & Hok3 & Hsub3).
  { unfold make_room. destruct (_ <=? _); [|by exists s2].
    destruct (heappop PriorityItem.lt (_queue s2)) as [[removed q]|] eqn:Hpop;
      [|by exists s2].
    destruct (registry_pop _ _ _ Hok Hpop) as [Hreg Hok3].
    cbn [with_queue _messages]. fold (item_id removed). rewrite Hreg.
    eexists. split_and!; [done|exact Hok3|].
    intros item Hi. rewrite (heappop_perm _ _ _ _ Hpop). by right. }
  assert (TTSMessage.id m ∉ ids (_queue s3)) as Hfresh3.
  { intros Hin. apply Hfresh. apply list_elem_of_fmap in Hin as (i & -> & Hi).
    apply list_elem_of_fmap. exists i. split; [done|by apply Hsub3]. }
  pose proof (registry_push s3 m Hok3 Hfresh3) as Hok4.
  set (s4 := with_messages _ (with_queue _ s3)) in *.
  destruct (_notify_queue_update_frame now s4) as (Hq5 & _ & _ & Hm5 & _).
  apply (registry_ok_ext _ _ Hq5 Hm5) in Hok4.
  assert (forall item, item ∈ _queue (_notify_queue_update now s4) ->
            item ∈ _queue s2 ∨ item = PriorityItem.init m) as Hsub5.
  { intros item Hi. rewrite Hq5 in Hi.
    cbn [s4 with_messages with_queue _queue] in Hi.
    rewrite heappush_perm in Hi.
    apply elem_of_cons in Hi as [->|Hi]; [by right|left; by apply Hsub3]. }
  cbv zeta. cbn [fst snd].
  destruct (_current_message (_notify_queue_update now s4)).
  - done.
  - destruct (registry_send_next _ Hok4) as [Hok6 Hsub6].
    split_and!; [done|done|]. intros item Hi. apply Hsub5, Hsub6, Hi.
Qed.

Lemma registry_step md5 c s :
  registry_ok s ->
  (forall now m, c = Offer now m -> TTSMessage.id m ∉ ids (_queue s)) ->
  raises md5 s c = false ∧
  registry_ok (step md5 s c) ∧
  forall item, item ∈ _queue (step md5 s c) ->
    item ∈ _queue s ∨
    exists now m, c = Offer now m ∧ item = PriorityItem.init m.
Proof.
  intros Hok Hfresh. destruct c as [now m| |mid| |now|now]; cbn [step raises].
  6:{ pose proof (get_queue_status_frame now s) as H.
      destruct (get_queue_status now s) as [st s'].
      destruct H as (_ & _ & Hq & _ & _ & _ & Hm & _). cbn [snd].
      split_and!; [done|by apply (registry_ok_ext s)|].
      intros item. rewrite Hq. by left. }
  - destruct (registry_add_message md5 now m s Hok) as (Hr & Hok' & Hsub);
      [by eapply Hfresh|].
    split_and!; [by destruct (add_message md5 now m s).1|done|].
    intros item Hi. destruct (Hsub _ Hi) as [?|E]; [by left|right; eauto].
  - unfold get_next.
    destruct (heappop PriorityItem.lt (_queue s)) as [[item q]|] eqn:Hpop.
    + destruct (registry_pop _ _ _ Hok Hpop) as [_ Hok'].
      split_and!; [done|revert Hok'; by apply registry_ok_ext|].
      intros other Ho. left. rewrite (heappop_perm _ _ _ _ Hpop). by right.
    + split_and!; [done|done|by left].
  - unfold mark_complete.
    set (s1 := match _current_message s with Some _ => _ | None => _ end).
    assert (_queue s1 = _queue s ∧ _messages s1 = _messages s) as [Hq Hm].
    { subst s1. by repeat case_match. }
    destruct (registry_send_next s1) as [Hok' Hsub];
      [by apply (registry_ok_ext s)|].
    split_and!; [done|done|]. intros item Hi. left. rewrite <-Hq. by apply Hsub.
  - unfold skip_current.
    set (s1 := emit _ _).
    assert (_queue s1 = _queue s ∧ _messages s1 = _messages s) as [Hq Hm].
    { subst s1. by repeat case_match. }
    destruct (registry_send_next s1) as [Hok' Hsub];
      [by apply (registry_ok_ext s)|].
    split_and!; [done|done|]. intros item Hi. left. rewrite <-Hq. by apply Hsub.
  - unfold clear_queue.
    set (s1 := with_messages ∅ (with_queue [] s)).
    destruct (_notify_queue_update_frame now s1) as (Hq & _ & _ & Hm & _).
    assert (registry_ok s1) as Hok1.
    { split_and!; cbn.
      - constructor.
      - intros item Hi. by apply elem_of_nil in Hi.
      - intros k m Hk. by rewrite lookup_empty in Hk. }
    split_and!; [done|by apply (registry_ok_ext s1)|].
    intros item. rewrite Hq. cbn. intros Hi. by apply elem_of_nil in Hi.
Qed.

Lemma registry_steps md5 calls s :
  registry_ok s ->
  NoDup (offered calls) ->
  (forall k, k ∈ ids (_queue s) -> k ∉ offered calls) ->
  any_raises md5 s calls = false ∧
  registry_ok (fold_left (step md5) calls s).
Proof.
  revert s. induction calls as [|c calls IH]; intros s Hok Hnd Hq; [done|].
  cbn [any_raises fold_left].
  assert (forall now m, c = Offer now m -> TTSMessage.id m ∉ ids (_queue s))
    as Hfresh.
  { intros now m -> Hin. apply (Hq _ Hin). cbn. by left. }
  destruct (registry_step md5 c s Hok Hfresh) as (-> & Hok' & Hsub).
  apply IH; [done|..].
  - destruct c; cbn in Hnd; try done. by apply NoDup_cons in Hnd as [_ ?].
  - intros k Hk. apply list_elem_of_fmap in Hk as (item & -> & Hi).
    destruct (Hsub _ Hi) as [Hi'|(now & m & -> & ->)].
    + assert (item_id item ∉ offered (c :: calls)) as Hn.
      { apply Hq. apply list_elem_of_fmap. by exists item. }
      intros Hin. apply Hn. destruct c; cbn; try done. by right.
    + cbn in Hnd. by apply NoDup_cons in Hnd as [? _].
Qed.

(** X5: when the messages offered to a new service carry pairwise distinct
    identifiers, no call of any sequence of offers, polls, completions,
    skips, clears and status requests raises, and afterwards the registry
    [_messages] holds exactly the queued messages, each under its own
    identifier, with no identifier queued twice. *)
Theorem distinct_ids_never_raise md5 cfg calls :
  NoDup (offered calls) ->
  any_raises md5 (init cfg) calls = false ∧
  registry_ok (run md5 cfg calls).
Proof.
  intros Hnd. apply registry_steps; [|done|].
  - split_and!; cbn.
    + constructor.
    + intros item Hi. by apply elem_of_nil in Hi.
    + intros k m Hk. by rewrite lookup_empty in Hk.
  - intros k Hk. by apply elem_of_nil in Hk.
Qed.

Lemma distinct_ids_never_raise_witness :
  any_raises Examples.hash (init (Examples.config_of 2))
    [Offer 0 Examples.M1; Offer 0 Examples.M3; Offer 0 Examples.M2; Poll;
     Offer 0 Examples.M4] = false.
Proof.
  apply (distinct_ids_never_raise Examples.hash (Examples.config_of 2)
           [Offer 0 Examples.M1; Offer 0 Examples.M3; Offer 0 Examples.M2;
            Poll; Offer 0 Examples.M4]).
  apply (bool_decide_unpack (NoDup _)). by vm_compute.
Defined.

(** *** What is announced *)

Lemma announced_emit e s :
  announced (emit e s)
  = announced s ++ match e with
                   | tts_ready id _ _ _ _ => [id]
                   | _ => []
                   end.
Proof.
  unfold announced. cbn [emit emitted]. rewrite omap_app.
  by destruct e.
Qed.

Lemma announced_ext s s' : emitted s' = emitted s -> announced s' = announced s.
Proof. unfold announced. by intros ->. Qed.

Lemma announced_send_next s :
  announced (_send_next s) ++ ids (_queue (_send_next s))
  ⊆+ announced s ++ ids (_queue s).
Proof.
  destruct (heappop PriorityItem.lt (_queue s)) as [[item q]|] eqn:Hpop.
  - destruct (_send_next_pop _ _ _ Hpop) as (Hq & _ & _ & He & _).
    unfold announced. rewrite Hq, He, omap_app.
    unfold ids at 2. rewrite (heappop_perm _ _ _ _ Hpop). cbn [map].
    rewrite <-app_assoc. apply submseteq_app; [done|].
    fold (ids q). unfold ready_of, item_id.
    destruct (TTSMessage.audio_path _) as [p|]; [destruct (truthy p)|];
      cbn [omap app]; try done; by apply submseteq_cons.
  - apply heappop_None in Hpop. by rewrite _send_next_empty.
Qed.

Lemma announced_add_message md5 now m s :
  announced (add_message md5 now m s).2 ++ ids (_queue (add_message md5 now m s).2)
  ⊆+ TTSMessage.id m :: (announced s ++ ids (_queue s)).
Proof.
  unfold add_message.
  destruct (DuplicateDetector.is_duplicate _ _ _ _) as [dup dd].
  destruct dup; [by apply submseteq_cons|].
  set (r := match TTSMessage.event m with Some _ => _ | None => _ end).
  assert (_queue r.2 = _queue s ∧ emitted r.2 = emitted s) as [Hq2 He2].
  { subst r. destruct (TTSMessage.event m) as [ev|]; [|done].
    by destruct (RateLimiter.is_allowed _ _ _) as [ok rl]. }
  destruct r as [allowed s2]. cbn [snd] in Hq2, He2.
  rewrite <-Hq2, <-(announced_ext s s2 He2). clear Hq2 He2.
  destruct allowed; [|by apply submseteq_cons]. cbn [negb].
  assert (forall s3, (make_room s2 = inl s3 ∨ make_room s2 = inr s3) ->
            emitted s3 = emitted s2 ∧ _queue s3 ⊆+ _queue s2) as Hroom.
  { intros s3. unfold make_room. destruct (_ <=? _).
    - destruct (heappop PriorityItem.lt (_queue s2)) as [[removed q]|]
        eqn:Hpop.
      + cbn [with_queue _messages]. destruct (_ !! _).
        * intros [[= <-]|[=]]. cbn. split; [done|].
          rewrite (heappop_perm _ _ _ _ Hpop). by apply submseteq_cons.
        * intros [[=]|[= <-]]. cbn. split; [done|].
          rewrite (heappop_perm _ _ _ _ Hpop). by apply submseteq_cons.
      + by intros [[= <-]|[=]].
    - by intros [[= <-]|[=]]. }
  destruct (make_room s2) as [s3|s3] eqn:Hmr.
  - destruct (Hroom s3) as [He3 Hq3]; [by left|].
    set (s4 := with_messages _ (with_queue _ s3)).
    destruct (_notify_queue_update_frame now s4)
      as (Hq5 & _ & _ & _ & _ & st & He5 & _).
    set (s5 := _notify_queue_update now s4) in *.
    assert (announced s5 ++ ids (_queue s5)
            ⊆+ TTSMessage.id m :: (announced s2 ++ ids (_queue s2))) as H5.
    { unfold announced. rewrite Hq5, He5, omap_app. cbn [omap].
      rewrite app_nil_r.
      cbn [s4 with_messages with_queue _queue emitted]. rewrite He3.
      unfold ids. rewrite heappush_perm. cbn [map].
      rewrite <-Permutation_middle. apply submseteq_skip.
      apply submseteq_app; [done|]. by apply fmap_submseteq. }
    cbv zeta. cbn [snd]. destruct (_current_message s5); [done|].
    etrans; [apply announced_send_next|done].
  - destruct (Hroom s3) as [He3 Hq3]; [by right|]. cbn [snd].
    apply submseteq_cons. rewrite (announced_ext s2 s3 He3).
    apply submseteq_app; [done|]. by apply fmap_submseteq.
Qed.

Lemma announced_step md5 c s :
  announced (step md5 s c) ++ ids (_queue (step md5 s c))
  ⊆+ offered [c] ++ (announced s ++ ids (_queue s)).
Proof.
  destruct c as [now m| |mid| |now|now]; cbn [step];
    [change (offered [Offer now m]) with [TTSMessage.id m]
    |change (offered [_]) with (@nil (list N))..]; cbn [app].
  6:{ pose proof (get_queue_status_frame now s) as H.
      destruct (get_queue_status now s) as [st s'].
      destruct H as (_ & _ & Hq & _ & He & _). cbn [snd].
      by rewrite Hq, (announced_ext s s' He). }
  - apply announced_add_message.
  - unfold get_next.
    destruct (heappop PriorityItem.lt (_queue s)) as [[item q]|] eqn:Hpop;
      [|done].
    cbn [snd]. apply submseteq_app; [done|].
    cbn [_queue with_current with_messages with_queue]. unfold ids.
    rewrite (heappop_perm _ _ _ _ Hpop). by apply submseteq_cons.
  - unfold mark_complete.
    set (s1 := match _current_message s with Some _ => _ | None => _ end).
    assert (_queue s1 = _queue s ∧ emitted s1 = emitted s) as [Hq He].
    { subst s1. by repeat case_match. }
    rewrite <-Hq, <-(announced_ext s s1 He). apply announced_send_next.
  - unfold skip_current.
    set (s1 := match _current_message s with Some _ => _ | None => _ end).
    assert (_queue s1 = _queue s ∧ emitted s1 = emitted s) as [Hq He].
    { subst s1. by repeat case_match. }
    etrans; [apply announced_send_next|].
    rewrite announced_emit, app_nil_r. cbn [emit _queue].
    by rewrite Hq, (announced_ext s s1 He).
  - unfold clear_queue.
    destruct (_notify_queue_update_frame now
                (with_messages ∅ (with_queue [] s)))
      as (Hq & _ & _ & _ & _ & st & He & _).
    unfold announced. rewrite Hq, He, omap_app. cbn.
    rewrite !app_nil_r. apply submseteq_inserts_r. done.
Qed.

Lemma announced_steps md5 calls s :
  announced (fold_left (step md5) calls s)
    ++ ids (_queue (fold_left (step md5) calls s))
  ⊆+ (announced s ++ ids (_queue s)) ++ offered calls.
Proof.
  revert s. induction calls as [|c calls IH]; intros s.
  - cbn. by rewrite app_nil_r.
  - cbn [fold_left]. etrans; [apply IH|].
    change (offered (c :: calls)) with (offered ([c] ++ calls)).
    unfold offered at 2. rewrite omap_app. fold (offered [c]) (offered calls).
    rewrite app_assoc. apply submseteq_app; [|done].
    etrans; [apply announced_step|].
    by rewrite (comm (++) (offered [c])).
Qed.

(** X10: nothing is announced that was not offered.  After any sequence
    of calls on a new service, the identifiers announced with [tts_ready]
    together with those still queued are, counted with multiplicity, among
    the identifiers offered: a message offered once is announced at most
    once, and never while it is still in the queue. *)
Theorem announced_were_offered md5 cfg calls :
  announced (run md5 cfg calls) ++ ids (_queue (run md5 cfg calls))
  ⊆+ offered calls.
Proof. apply (announced_steps md5 calls (init cfg)). Qed.

(** *** Looking a message up *)

(** X11: while the registry is consistent, [get_message] finds exactly
    the message in flight, under its identifier, and the queued messages,
    under theirs; the message in flight hides a queued one of the same
    identifier. *)
Theorem get_message_finds k m s :
  registry_ok s ->
  get_message k s = Some m <->
  (_current_message s = Some m ∧ TTSMessage.id m = k) ∨
  ((forall c, _current_message s = Some c -> TTSMessage.id c ≠ k) ∧
   exists item,
     item ∈ _queue s ∧ PriorityItem.message item = m ∧ TTSMessage.id m = k).
Proof.
  intros (_ & Hin & Hout). unfold get_message.
  assert (_messages s !! k = Some m <->
          exists item, item ∈ _queue s ∧ PriorityItem.message item = m ∧
                       TTSMessage.id m = k) as Hreg.
  { split; [apply Hout|]. intros (item & Hi & <- & <-). by apply Hin. }
  destruct (_current_message s) as [c|].
  - case_bool_decide as Hc.
    + split; [intros [= <-]; by left|].
      intros [[[= <-] _]|[Hne _]]; [done|]. by destruct (Hne c).
    + rewrite Hreg. split.
      * intros H. right. split; [|done]. by intros ? [= <-].
      * intros [[[= <-] ?]|[_ H]]; done.
  - rewrite Hreg. split; [intros H; right; by split|].
    by intros [[[=] _]|[_ H]].
Qed.

Lemma get_message_finds_witness :
  get_message (lit "M3") Examples.pending_M1 = Some Examples.M3.
Proof.
  apply (get_message_finds (lit "M3") Examples.M3 Examples.pending_M1).
  - apply (registry_steps Examples.hash
             [Offer 0 Examples.M1; Offer 0 Examples.M3]
             (init (Examples.config_of 5))).
    + split_and!; cbn.
      * constructor.
      * intros item Hi. by apply elem_of_nil in Hi.
      * intros k m Hk. by rewrite lookup_empty in Hk.
    + apply (bool_decide_unpack (NoDup _)). by vm_compute.
    + intros k Hk. by apply elem_of_nil in Hk.
  - right. split.
    { assert (_current_message Examples.pending_M1 = Some Examples.M1)
        as -> by (by vm_compute).
      intros c [= <-]. discriminate. }
    exists (PriorityItem.init Examples.M3). split_and!; [|done..].
    assert (_queue Examples.pending_M1 = [PriorityItem.init Examples.M3])
      as -> by (by vm_compute).
    by left.
Defined.

(* ===================================================================== *)
(** ** The rate limiter and the duplicate detector *)
(* ===================================================================== *)

Import Queue Limits.

Lemma filter_filter_cutoff (c1 c2 : Z) (l : list Z) :
  c1 <= c2 ->
  filter (fun t => c2 < t) (filter (fun t => c1 < t) l)
  = filter (fun t => c2 < t) l.
Proof.
  intros Hc. induction l as [|a l IH]; [done|].
  rewrite !filter_cons. destruct (decide (c1 < a)) as [H1|H1].
  - rewrite filter_cons. destruct (decide (c2 < a)); by rewrite IH.
  - rewrite IH. destruct (decide (c2 < a)); [lia|done].
Qed.

Lemma last_cons_default (a b : Z) (l : list Z) (d : Z) :
  List.last (a :: b :: l) d = List.last (b :: l) a.
Proof.
  change (List.last (a :: b :: l) d) with (List.last (b :: l) d).
  revert b. induction l as [|c l IH]; intros b; [done|].
  change (List.last (b :: c :: l) d) with (List.last (c :: l) d).
  change (List.last (b :: c :: l) a) with (List.last (c :: l) a).
  apply IH.
Qed.

Lemma prune_tokens now key r :
  RateLimiter.tokens (RateLimiter.prune now key r) !! key
  = Some (recent (RateLimiter.window r) now
            (default [] (RateLimiter.tokens r !! key))).
Proof. unfold RateLimiter.prune. simpl. by rewrite lookup_insert_eq. Qed.

(** What one call of [is_allowed] does to the list of [key]. *)
Lemma is_allowed_tokens now key r :
  let l := recent (RateLimiter.window r) now
             (default [] (RateLimiter.tokens r !! key)) in
  let r' := (RateLimiter.is_allowed now key r).2 in
  RateLimiter.rate r' = RateLimiter.rate r ∧
  RateLimiter.window r' = RateLimiter.window r ∧
  (RateLimiter.is_allowed now key r).1
  = (Z.of_nat (length l) <? RateLimiter.rate r) ∧
  default [] (RateLimiter.tokens r' !! key)
  = if (RateLimiter.is_allowed now key r).1 then l ++ [now] else l.
Proof.
  intros l r'. subst r'. unfold RateLimiter.is_allowed.
  pose proof (prune_tokens now key r) as Hp. fold l in Hp.
  assert (RateLimiter.rate (RateLimiter.prune now key r) = RateLimiter.rate r)
    as Hr by done.
  assert (RateLimiter.window (RateLimiter.prune now key r)
          = RateLimiter.window r) as Hw by done.
  set (r1 := RateLimiter.prune now key r) in *. clearbody r1 l.
  cbv zeta. rewrite Hp, Hr. change (default [] (Some l)) with l.
  destruct (Z.of_nat (length l) <? RateLimiter.rate r) eqn:E;
    cbn [fst snd RateLimiter.with_tokens RateLimiter.rate RateLimiter.window
         RateLimiter.tokens].
  - by rewrite lookup_insert_eq.
  - by rewrite Hp.
Qed.

Lemma asks_window key times r g :
  RateLimiter.window (fold_left (ask key) times (r, g)).1
  = RateLimiter.window r.
Proof.
  revert r g. induction times as [|now times IH]; intros r g; [done|].
  cbn [fold_left]. unfold ask at 2. cbn [fst snd].
  destruct (is_allowed_tokens now key r) as (_ & Hw & _).
  destruct (RateLimiter.is_allowed now key r) as [ok r'].
  by rewrite IH.
Qed.

Lemma asks_sliding key times : forall r g t0,
  0 < RateLimiter.window r ->
  Sorted Z.le (t0 :: times) ->
  default [] (RateLimiter.tokens r !! key)
  = recent (RateLimiter.window r) t0 g ->
  Z.of_nat (length (default [] (RateLimiter.tokens r !! key)))
  <= Z.max 0 (RateLimiter.rate r) ->
  let st := fold_left (ask key) times (r, g) in
  let now := List.last times t0 in
  default [] (RateLimiter.tokens st.1 !! key)
  = recent (RateLimiter.window r) now st.2 ∧
  Z.of_nat (length (recent (RateLimiter.window r) now st.2))
  <= Z.max 0 (RateLimiter.rate r).
Proof.
  induction times as [|now times IH]; intros r g t0 Hw Hs Hl Hn.
  - cbn [fold_left List.last fst snd]. split; [done|]. by rewrite <-Hl.
  - cbn [fold_left].
    assert (ask key (r, g) now
            = ((RateLimiter.is_allowed now key r).2,
               if (RateLimiter.is_allowed now key r).1 then g ++ [now] else g))
      as -> by (unfold ask; cbn [fst snd];
                by destruct (RateLimiter.is_allowed now key r)).
    apply Sorted_inv in Hs as [Hs Hhd]. apply HdRel_inv in Hhd.
    destruct (is_allowed_tokens now key r) as (Hr & Hw' & Hok & Htk).
    cbv zeta in Hok, Htk.
    assert (recent (RateLimiter.window r) now
              (recent (RateLimiter.window r) t0 g)
            = recent (RateLimiter.window r) now g) as Hrec
      by (apply filter_filter_cutoff; lia).
    rewrite Hl, Hrec in Hok, Htk.
    destruct (RateLimiter.is_allowed now key r) as [ok r'].
    cbn [fst snd] in *.
    assert (List.last (now :: times) t0 = List.last times now) as ->.
    { destruct times as [|b l]; [done|]. apply last_cons_default. }
    rewrite <-Hw', <-Hr. apply IH; [by rewrite Hw'|done|..].
    + rewrite Htk, Hw'. destruct ok; [|done].
      unfold recent. rewrite filter_app, filter_cons, filter_nil.
      by destruct (decide (now - RateLimiter.window r < now)); [|lia].
    + rewrite Htk, Hr. destruct ok.
      * symmetry in Hok. apply Z.ltb_lt in Hok.
        rewrite length_app. cbn [length]. lia.
      * rewrite <-Hrec. etrans; [|exact Hn]. rewrite Hl.
        apply Nat2Z.inj_le, length_filter.
Qed.

(** X6: the limiter is a sliding window.  When a new limiter is asked for
    one key at clock readings that never go back, then at every call the
    calls it has allowed within the last 60 seconds, the present one
    included, are no more than [rate]. *)
Theorem rate_limiter_sliding_window rate key times now :
  Sorted Z.le (times ++ [now]) ->
  Z.of_nat (length (recent 60 now (asks rate key (times ++ [now])).2))
  <= Z.max 0 rate.
Proof.
  intros Hs. unfold asks.
  destruct (times ++ [now]) as [|t1 rest] eqn:E;
    [by destruct times|].
  assert (List.last (t1 :: rest) t1 = now) as Hlast.
  { rewrite <-E. apply last_last. }
  destruct (asks_sliding key (t1 :: rest) (RateLimiter.init rate) [] t1)
    as [_ H].
  - done.
  - constructor; [done|]. by constructor.
  - done.
  - cbn [RateLimiter.init RateLimiter.tokens RateLimiter.rate].
    rewrite lookup_empty. change (0 <= Z.max 0 rate). lia.
  - by rewrite Hlast in H.
Qed.

Lemma rate_limiter_sliding_window_witness :
  Z.of_nat (length (recent 60 61 (asks 2 (PyStr.lit "twitch") [0; 1; 2; 61]).2))
  <= Z.max 0 2.
Proof.
  apply (rate_limiter_sliding_window 2 (PyStr.lit "twitch") [0; 1; 2] 61).
  repeat (constructor; try lia).
Defined.

(** X7: [get_remaining] reports a positive number exactly when
    [is_allowed] would allow a call at the same clock reading, and looking
    at the remaining allowance does not change what a later [is_allowed]
    answers or leaves behind. *)
Theorem get_remaining_agrees now now' key r :
  now <= now' ->
  (0 <? (RateLimiter.get_remaining now key r).1)
  = (RateLimiter.is_allowed now key r).1 ∧
  RateLimiter.is_allowed now' key (RateLimiter.get_remaining now key r).2
  = RateLimiter.is_allowed now' key r.
Proof.
  intros Hle. split.
  - unfold RateLimiter.get_remaining, RateLimiter.is_allowed. cbv zeta.
    cbn [fst]. set (l := default [] _).
    assert (RateLimiter.rate (RateLimiter.prune now key r) = RateLimiter.rate r)
      as -> by done.
    destruct (Z.of_nat (length l) <? RateLimiter.rate r) eqn:E; cbn [fst].
    + apply Z.ltb_lt in E. apply Z.ltb_lt. lia.
    + apply Z.ltb_ge in E. apply Z.ltb_ge. lia.
  - assert (RateLimiter.prune now' key (RateLimiter.get_remaining now key r).2
            = RateLimiter.prune now' key r) as Hp.
    { unfold RateLimiter.get_remaining, RateLimiter.prune,
        RateLimiter.with_tokens.
      cbn [snd RateLimiter.tokens RateLimiter.rate RateLimiter.window].
      rewrite lookup_insert_eq, insert_insert_eq.
      change (default [] (Some ?x)) with x.
      by rewrite filter_filter_cutoff by lia. }
    unfold RateLimiter.is_allowed. cbv zeta. by rewrite Hp.
Qed.

Lemma get_remaining_agrees_witness :
  (RateLimiter.is_allowed 61 (PyStr.lit "twitch")
     (RateLimiter.get_remaining 59 (PyStr.lit "twitch")
        (asks 1 (PyStr.lit "twitch") [0]).1).2).1 = true.
Proof.
  destruct (get_remaining_agrees 59 61 (PyStr.lit "twitch")
              (asks 1 (PyStr.lit "twitch") [0]).1) as [_ ->]; [lia|].
  by vm_compute.
Defined.

(** X8: [is_duplicate] answers true exactly when the hash of the text
    was recorded less than [window] seconds ago.  It then leaves the
    recorded time as it is; otherwise it records the present time. *)
Theorem is_duplicate_iff md5 now text d :
  let r := DuplicateDetector.is_duplicate md5 now text d in
  (r.1 = true <->
   exists v, DuplicateDetector.seen d !! md5 text = Some v ∧
             now - v < DuplicateDetector.window d) ∧
  DuplicateDetector.seen r.2 !! md5 text
  = (if r.1 then DuplicateDetector.seen d !! md5 text else Some now).
Proof.
  cbv zeta. unfold DuplicateDetector.is_duplicate.
  destruct (filter _ (DuplicateDetector.seen d) !! md5 text) as [v|] eqn:Hf.
  - apply map_lookup_filter_Some in Hf as [Hv Hfresh]. cbn [fst snd].
    split; [split; [intros _; by exists v|done]|].
    cbn [DuplicateDetector.seen].
    rewrite Hv. by apply map_lookup_filter_Some.
  - cbn [fst snd DuplicateDetector.seen]. rewrite lookup_insert_eq.
    split; [|done]. split; [done|]. intros (v & Hv & Hfresh).
    by rewrite (map_lookup_filter_Some_2 _ _ _ v Hv) in Hf.
Qed.

Lemma is_duplicate_true_inv md5 now text d :
  (DuplicateDetector.is_duplicate md5 now text d).1 = true ->
  exists v, DuplicateDetector.seen d !! md5 text = Some v ∧
            now - v < DuplicateDetector.window d.
Proof.
  unfold DuplicateDetector.is_duplicate.
  destruct (filter _ (DuplicateDetector.seen d) !! md5 text) as [v|] eqn:Hf;
    [|done].
  intros _. apply map_lookup_filter_Some in Hf as [Hv Hfresh]. by exists v.
Qed.

Lemma is_duplicate_keeps md5 now text d h t0 :
  DuplicateDetector.seen d !! h = Some t0 ->
  now - t0 < DuplicateDetector.window d ->
  DuplicateDetector.seen (DuplicateDetector.is_duplicate md5 now text d).2 !! h
  = Some t0 ∧
  DuplicateDetector.window (DuplicateDetector.is_duplicate md5 now text d).2
  = DuplicateDetector.window d.
Proof.
  intros Hh Hfresh. unfold DuplicateDetector.is_duplicate.
  assert (filter (fun kv : list N * Z => now - kv.2 < DuplicateDetector.window d)
            (DuplicateDetector.seen d) !! h = Some t0) as Hf
    by (by apply map_lookup_filter_Some).
  destruct (filter _ (DuplicateDetector.seen d) !! md5 text) as [v|] eqn:E;
    cbn [snd DuplicateDetector.seen DuplicateDetector.window]; [done|].
  split; [|done]. rewrite lookup_insert_ne; [done|]. congruence.
Qed.

(** X9: a duplicate does not extend the window.  After a text was let
    through at [t0] and refused as a duplicate at [t1], a third offer of
    it at [t2] is refused exactly when [t2] is less than [window] seconds
    after [t0], however late [t1] was. *)
Theorem duplicate_window_is_not_extended md5 t0 t1 t2 text d :
  let r0 := DuplicateDetector.is_duplicate md5 t0 text d in
  let r1 := DuplicateDetector.is_duplicate md5 t1 text r0.2 in
  let r2 := DuplicateDetector.is_duplicate md5 t2 text r1.2 in
  r0.1 = false -> r1.1 = true ->
  r2.1 = bool_decide (t2 - t0 < DuplicateDetector.window d).
Proof.
  intros r0 r1 r2 H0 H1.
  destruct (is_duplicate_false_records md5 t0 text d H0) as (Hs0 & Hw0 & _).
  fold r0 in Hs0, Hw0.
  destruct (is_duplicate_true_inv md5 t1 text r0.2 H1) as (v & Hv & Hfresh).
  rewrite Hs0 in Hv. injection Hv as <-.
  destruct (is_duplicate_keeps md5 t1 text r0.2 _ _ Hs0 Hfresh) as [Hs1 Hw1].
  fold r1 in Hs1, Hw1. rewrite Hw0 in Hfresh, Hw1.
  case_bool_decide as Hd.
  - apply (is_duplicate_fresh md5 t2 text r1.2 t0 Hs1). by rewrite Hw1.
  - destruct r2.1 eqn:E; [|done].
    destruct (is_duplicate_true_inv md5 t2 text r1.2 E) as (v & Hv & Hf2).
    rewrite Hs1 in Hv. injection Hv as <-. by rewrite Hw1 in Hf2.
Qed.

Lemma duplicate_window_is_not_extended_witness :
  (DuplicateDetector.is_duplicate Examples.hash 5 (PyStr.lit "hello")
     (DuplicateDetector.is_duplicate Examples.hash 4 (PyStr.lit "hello")
        (DuplicateDetector.is_duplicate Examples.hash 0 (PyStr.lit "hello")
           (DuplicateDetector.init 5)).2).2).1 = false.
Proof.
  rewrite (duplicate_window_is_not_extended Examples.hash 0 4 5
             (PyStr.lit "hello") (DuplicateDetector.init 5));
    by vm_compute.
Defined.

(* ===================================================================== *)
(** ** What [_clean_text] returns, for any text *)
(* ===================================================================== *)

Import PyStr Re Text EventProcessor.

Lemma lstrip_Forall (Q : N -> Prop) s : Forall Q s -> Forall Q (lstrip s).
Proof.
  induction s as [|c r IH]; [done|]. intros H. simpl.
  destruct (is_space c); [|done]. apply IH. by apply Forall_inv_tail in H.
Qed.

Lemma strip_Forall (Q : N -> Prop) s : Forall Q s -> Forall Q (strip s).
Proof.
  intros H. unfold strip, rstrip.
  apply Forall_rev, lstrip_Forall, Forall_rev. by apply lstrip_Forall.
Qed.

Lemma collapsed_space_only s :
  collapsed s = true -> Forall (fun c => is_space c = true -> c = space) s.
Proof.
  induction s as [|c r IH]; [done|]. intros H.
  pose proof (collapsed_tail _ _ H) as Hr.
  apply Forall_cons_2; [|by apply IH]. intros Hc.
  simpl in H. rewrite Hc in H.
  apply andb_prop in H as [[Heq _]%andb_prop _]. by apply N.eqb_eq in Heq.
Qed.

Lemma sub_special_cons c r :
  Re.sub special (c :: r) =
  if is_special c then Re.sub special r else c :: Re.sub special r.
Proof.
  unfold Re.sub. rewrite scan_cons. unfold special.
  by destruct (is_special c).
Qed.

Lemma sub_special_Forall (Q : N -> Prop) s :
  Forall Q s ->
  Forall (fun c => Q c ∧ is_special c = false) (Re.sub special s).
Proof.
  induction s as [|c r IH]; [done|]. intros H.
  pose proof (Forall_inv H) as Hc. apply Forall_inv_tail in H.
  rewrite sub_special_cons. destruct (is_special c) eqn:E; [by apply IH|].
  apply Forall_cons_2; [done|by apply IH].
Qed.

Lemma sub_repeated_Forall (Q : N -> Prop) s :
  Forall Q s -> Forall Q (Re.sub repeated s).
Proof.
  apply scan_Forall. intros t out len Ht. unfold repeated.
  destruct t as [|c r]; [done|]. destruct (c =? newline)%N; [done|].
  destruct (3 <=? _)%nat; [|done]. intros [= <- _].
  apply Forall_inv in Ht. by apply Forall_cons_2; [|apply Forall_singleton].
Qed.

(** X12: whatever the text, [_clean_text] returns a text with none of the
    special characters [<>{}[]|\^~`], whose only whitespace is the space
    U+0020, and in which no character stands four or more times in a
    row. *)
Theorem _clean_text_shape s :
  Forall (fun c => (is_space c = true -> c = space) ∧ is_special c = false)
    (_clean_text s) ∧
  unmatched repeated (_clean_text s).
Proof.
  unfold _clean_text. split; [|apply sub_repeated_unmatched].
  apply sub_repeated_Forall, sub_special_Forall, strip_Forall.
  apply collapsed_space_only, sub_spaces_collapsed.
Qed.

(** *** The length of the cleaned text *)

Lemma scan_length m s :
  (forall t out len, m t = Some (out, len) ->
     (length out <= len)%nat ∧ (length out <= length t)%nat) ->
  (length (scan m 0 s) <= length s)%nat.
Proof.
  intros Hm. induction s as [s IH] using length_ind.
  destruct s as [|c r]; [done|]. rewrite scan_cons.
  destruct (m (c :: r)) as [[out len]|] eqn:E.
  - destruct (Hm _ _ _ E) as [H1 H2]. rewrite length_app.
    assert (length (scan m 0 (drop (Nat.pred len) r))
            <= length (drop (Nat.pred len) r))%nat as H3.
    { apply IH. rewrite length_drop. cbn [length]. lia. }
    rewrite length_drop in H3. cbn [length] in *. lia.
  - cbn [length]. specialize (IH r). cbn [length] in IH. lia.
Qed.

Lemma lstrip_length s : (length (lstrip s) <= length s)%nat.
Proof.
  induction s as [|c r IH]; [done|]. simpl.
  destruct (is_space c); cbn [length]; lia.
Qed.

Lemma strip_length s : (length (strip s) <= length s)%nat.
Proof.
  unfold strip, rstrip. rewrite length_rev.
  etrans; [apply lstrip_length|]. rewrite length_rev. apply lstrip_length.
Qed.

Lemma emote_length t out len :
  emote t = Some (out, len) ->
  (length out <= len)%nat ∧ (length out <= length t)%nat.
Proof.
  unfold emote. destruct t as [|c r]; [done|].
  destruct (c =? colon)%N; [|done].
  destruct (span is_word r); [done|].
  destruct (drop _ r) as [|d ?]; [done|].
  destruct (d =? colon)%N; [|done]. intros [= <- <-]. cbn. lia.
Qed.

Lemma url_tail_length k t out len :
  url_tail k t = Some (out, len) -> out = [].
Proof.
  unfold url_tail. destruct (strip_prefix _ t); [|done].
  destruct (span _ _); [done|]. by intros [= <- _].
Qed.

Lemma url_length t out len :
  url t = Some (out, len) ->
  (length out <= len)%nat ∧ (length out <= length t)%nat.
Proof.
  intros H. assert (out = []) as ->; [|cbn; lia].
  unfold url in H. destruct (strip_prefix (lit "http") t) as [r|]; [|done].
  destruct (strip_prefix (lit "s") r) as [r'|].
  - destruct (url_tail 5 r') as [[o l]|] eqn:E.
    + injection H as <- <-. by eapply url_tail_length.
    + by eapply url_tail_length.
  - by eapply url_tail_length.
Qed.

Lemma spaces_length t out len :
  spaces t = Some (out, len) ->
  (length out <= len)%nat ∧ (length out <= length t)%nat.
Proof.
  unfold spaces. destruct t as [|c r]; [done|].
  destruct (span is_space (c :: r)); [done|]. intros [= <- <-]. cbn. lia.
Qed.

Lemma special_length t out len :
  special t = Some (out, len) ->
  (length out <= len)%nat ∧ (length out <= length t)%nat.
Proof.
  unfold special. destruct t as [|c r]; [done|].
  destruct (is_special c); [|done]. intros [= <- <-]. cbn. lia.
Qed.

Lemma repeated_length t out len :
  repeated t = Some (out, len) ->
  (length out <= len)%nat ∧ (length out <= length t)%nat.
Proof.
  destruct t as [|c r]; [done|]. rewrite repeated_cons.
  destruct (c =? newline)%N; [done|].
  destruct (3 <=? span (N.eqb c) r)%nat eqn:E; [|done].
  apply Nat.leb_le in E. pose proof (span_le (N.eqb c) r).
  intros [= <- <-]. cbn [length]. lia.
Qed.

(** X13: [_clean_text] never returns a text longer than the one it is
    given. *)
Theorem _clean_text_shrinks s :
  (length (_clean_text s) <= length s)%nat.
Proof.
  unfold _clean_text, Re.sub.
  etrans; [apply scan_length, repeated_length|].
  etrans; [apply scan_length, special_length|].
  etrans; [apply strip_length|].
  etrans; [apply scan_length, spaces_length|].
  etrans; [apply scan_length, url_length|].
  apply scan_length, emote_length.
Qed.

(* ===================================================================== *)
(** ** More on the synthesizer *)
(* ===================================================================== *)

Import PyStr Text TTS.

(** *** Blank text *)





Section synthesizer_more.
Variable sha256 : list N -> list N.
Variable backend : nat -> list N -> list N -> option (list Byte.byte).


(** X15: with a non-negative [TTS_MAX_MESSAGE_LENGTH], one call of
    [synthesize] makes at most one request to the backend, for the
    configured voice and for the text itself or, when the text is longer
    than the maximum, for its first [TTS_MAX_MESSAGE_LENGTH] characters
    followed by three dots: the backend is never asked for more than
    [TTS_MAX_MESSAGE_LENGTH + 3] characters. *)
Theorem synthesize_backend_text now text cache s :
  0 <= TTS_MAX_MESSAGE_LENGTH (config s) ->
  let s' := (synthesize sha256 backend now text cache s).2 in
  backend_calls s' = backend_calls s ∨
  exists t,
    backend_calls s' = backend_calls s ++ [(t, TTS_VOICE (config s))] ∧
    Z.of_nat (length t) <= TTS_MAX_MESSAGE_LENGTH (config s) + 3 ∧
    (t = text ∨
     TTS_MAX_MESSAGE_LENGTH (config s) < Z.of_nat (length text) ∧
     t = take (Z.to_nat (TTS_MAX_MESSAGE_LENGTH (config s))) text ++ lit "...").
Proof.
  intros Hmax. cbv zeta. unfold synthesize, synthesize_begin.
  destruct (prepare s text) as [t|] eqn:Hp; [|by left].
  destruct (cache && _); [by left|]. right. exists t.
  assert (backend_calls
            (synthesize_finish sha256 now t
               (backend (length (backend_calls s)) t (TTS_VOICE (config s)))
               (with_call (t, TTS_VOICE (config s)) s)).2
          = backend_calls s ++ [(t, TTS_VOICE (config s))]) as Hcalls.
  { unfold synthesize_finish. by destruct (backend _ _ _). }
  split; [exact Hcalls|]. clear Hcalls.
  unfold prepare in Hp. destruct (_ || _); [done|].
  destruct (TTS_MAX_MESSAGE_LENGTH (config s) <? Z.of_nat (length text))
    eqn:Hlen; injection Hp as <-.
  - apply Z.ltb_lt in Hlen. unfold slice_to.
    destruct (0 <=? TTS_MAX_MESSAGE_LENGTH (config s)) eqn:E;
      [|apply Z.leb_gt in E; lia].
    split; [|right; by split].
    rewrite length_app, length_take. cbn [length lit]. lia.
  - apply Z.ltb_ge in Hlen. split; [lia|by left].
Qed.

(** X16: [synthesize] changes the files only when it misses the cache
    and the backend answers; then it returns a path.  A [ValueError], a
    cache hit and a failure of the backend leave every file as it was. *)
Theorem synthesize_writes_only_on_answered_miss now text cache s :
  let r := synthesize sha256 backend now text cache s in
  fs r.2 = fs s ∨
  exists t data,
    prepare s text = Some t ∧
    (cache && FS.exists_ (fs s) (cached_path_of sha256 s t)) = false ∧
    backend (length (backend_calls s)) t (TTS_VOICE (config s)) = Some data ∧
    r.1 = Ok (FS.to_str (cached_path_of sha256 s t)).
Proof.
  cbv zeta. unfold synthesize, synthesize_begin.
  destruct (prepare s text) as [t|] eqn:Hp; [|by left].
  destruct (cache && _) eqn:Hhit; [by left|].
  unfold call_backend, synthesize_finish.
  destruct (backend _ _ _) as [data|] eqn:Hb; [|by left].
  right. by exists t, data.
Qed.

End synthesizer_more.

Lemma synthesize_backend_text_witness :
  backend_calls
    (synthesize Examples.hash Examples.backend 0 (lit "hello") true
       (Examples.tts_empty 100)).2
  = [(lit "hello", lit "en_GB-alan-medium")].
Proof.
  destruct (synthesize_backend_text Examples.hash Examples.backend 0
              (lit "hello") true (Examples.tts_empty 100))
    as [H|(t & H & _)].
  - by vm_compute.
  - exfalso. revert H. by vm_compute.
  - rewrite H. revert H. vm_compute. by intros [= <-].
Defined.

(* ===================================================================== *)
(** ** From the announced identifier back to the artifact *)
(* ===================================================================== *)

Import PyStr Layout.

Lemma last_segment_from_plain sep cur s :
  Forall (fun c => c ≠ sep) s -> last_segment_from sep cur s = rev cur ++ s.
Proof.
  revert cur. induction s as [|c r IH]; intros cur H.
  - simpl. by rewrite app_nil_r.
  - pose proof (Forall_inv H) as Hc. apply N.eqb_neq in Hc.
    apply Forall_inv_tail in H. simpl. rewrite Hc, IH by done.
    simpl. by rewrite <-app_assoc.
Qed.

Lemma last_segment_from_app sep cur a name :
  Forall (fun c => c ≠ sep) name ->
  last_segment_from sep cur (a ++ sep :: name) = name.
Proof.
  intros Hn. revert cur. induction a as [|c r IH]; intros cur; simpl.
  - rewrite N.eqb_refl. by apply last_segment_from_plain.
  - destruct (c =? sep)%N; apply IH.
Qed.

Lemma to_str_snoc base name :
  FS.to_str (base ++ [name])
  = concat (map (fun c => slash :: c) base) ++ slash :: name.
Proof.
  unfold FS.to_str. destruct (base ++ [name]) eqn:E; [by destruct base|].
  rewrite <-E, map_app, concat_app. simpl. by rewrite app_nil_r.
Qed.

Lemma replace_absent a old new s :
  Forall (fun c => c ≠ a) s -> replace (a :: old) new s = s.
Proof.
  induction s as [|c r IH]; [done|]. intros H.
  pose proof (Forall_inv H) as Hc. apply Forall_inv_tail in H.
  rewrite replace_cons, strip_prefix_cons.
  assert ((a =? c)%N = false) as -> by (apply N.eqb_neq; congruence).
  by rewrite IH.
Qed.

Lemma replace_suffix a old s :
  Forall (fun c => c ≠ a) s -> replace (a :: old) [] (s ++ a :: old) = s.
Proof.
  induction s as [|c r IH]; intros H.
  - simpl. rewrite replace_cons.
    assert (strip_prefix (a :: old) (a :: old) = Some []) as ->.
    { generalize (a :: old). intros l. induction l as [|x l IHl]; [done|].
      simpl. by rewrite N.eqb_refl. }
    simpl. unfold replace. rewrite scan_skip.
    by rewrite drop_all.
  - pose proof (Forall_inv H) as Hc. apply Forall_inv_tail in H.
    simpl. rewrite replace_cons, strip_prefix_cons.
    assert ((a =? c)%N = false) as -> by (apply N.eqb_neq; congruence).
    by rewrite IH.
Qed.

Lemma is_hex_plain c :
  is_hex c = true -> c ≠ slash ∧ c ≠ backslash ∧ c ≠ dot.
Proof.
  unfold is_hex, slash, backslash, dot, chr. intros H.
  apply orb_prop in H as [[H1 H2]%andb_prop|[H1 H2]%andb_prop];
    apply N.leb_le in H1, H2; simpl; split_and!; lia.
Qed.

Lemma hex_key_plain key :
  forallb is_hex key = true ->
  Forall (fun c => c ≠ slash) key ∧ Forall (fun c => c ≠ backslash) key ∧
  Forall (fun c => c ≠ dot) key.
Proof.
  intros H. rewrite forallb_forall in H.
  split_and!; apply Forall_forall; intros c Hc;
    apply list_elem_of_In in Hc; by apply H, is_hex_plain in Hc as (?&?&?).
Qed.

Section roundtrip.
Variable sha256 : list N -> list N.

(** X17: the identifier that [_send_next] announces for an artifact of
    [synthesize] leads back to it.  When the cache key is hexadecimal, as
    a [hexdigest] is, the [audio_id] cut out of the artifact's path is
    the cache key, and [GET /api/audio/<audio_id>] answers with the bytes
    of that artifact when it is in the cache and with 404 when it is
    not. *)
Theorem announced_audio_id_is_served tts t :
  forallb is_hex (TTS._get_cache_key sha256 tts t) = true ->
  let artifact := TTS.cached_path_of sha256 tts t in
  let audio_id := Queue.QueueService.audio_id_of (FS.to_str artifact) in
  audio_id = TTS._get_cache_key sha256 tts t ∧
  (Api.get_audio tts audio_id).1 =
    match FS.stat (TTS.fs tts) artifact with
    | Some f => Api.R200 (FS.content f)
    | None => Api.R404
    end.
Proof.
  intros Hhex artifact audio_id.
  destruct (hex_key_plain _ Hhex) as (Hslash & Hback & Hdot).
  set (key := TTS._get_cache_key sha256 tts t) in *.
  assert (artifact = TTS.cache_path tts ++ [key ++ lit ".wav"]) as Hart
    by (by apply joinpath_name).
  assert (audio_id = key) as Hid.
  { subst audio_id. unfold Queue.QueueService.audio_id_of, last_segment.
    rewrite Hart, to_str_snoc.
    rewrite (last_segment_from_app slash).
    - by apply (replace_suffix dot (lit "wav")).
    - apply Forall_app. split; [done|].
      repeat (apply Forall_cons_2; [done|]). apply Forall_nil_2. }
  split; [done|]. rewrite Hid.
  destruct (get_audio_spec tts key) as [_ ->].
  assert (Api.sanitize_audio_id key = key) as ->.
  { unfold Api.sanitize_audio_id.
    rewrite (replace_absent slash []), (replace_absent backslash []) by done.
    by apply (replace_absent dot [dot]). }
  unfold FS.stat. by rewrite Hart, resolve_name.
Qed.

End roundtrip.

Lemma announced_audio_id_is_served_witness :
  Queue.QueueService.audio_id_of
    (FS.to_str
       (TTS.cached_path_of Examples.hash Examples.tts_one
          (lit "0123456789abcdef")))
  = lit "0123456789abcdef" ∧
  (Api.get_audio Examples.tts_one (lit "0123456789abcdef")).1
  = Api.R200 [Byte.x52; Byte.x49; Byte.x46; Byte.x46].
Proof.
  destruct (announced_audio_id_is_served Examples.hash Examples.tts_one
              (lit "0123456789abcdef")) as [H1 H2]; [by vm_compute|].
  split; [exact H1|].
  rewrite H1 in H2.
  assert (TTS._get_cache_key Examples.hash Examples.tts_one
            (lit "0123456789abcdef") = lit "0123456789abcdef") as E
    by (by vm_compute).
  rewrite E in H2. rewrite H2. by vm_compute.
Defined.

(* ===================================================================== *)
(** ** The cleanup of the audio cache *)
(* ===================================================================== *)

Import PyStr TTS Cache.

(** *** Paths of artifacts *)

Lemma resolve_from_clean acc p :
  Forall (fun c => c ≠ lit "..") acc ->
  Forall (fun c => c ≠ lit "..") (FS.resolve_from acc p).
Proof.
  revert acc. induction p as [|c p IH]; intros acc H; simpl.
  - by apply Forall_rev.
  - case_bool_decide as Hc; apply IH.
    + destruct acc; [done|]. by apply Forall_inv_tail in H.
    + by apply Forall_cons_2.
Qed.

Lemma resolve_from_id acc p :
  Forall (fun c => c ≠ lit "..") p -> FS.resolve_from acc p = rev acc ++ p.
Proof.
  revert acc. induction p as [|c p IH]; intros acc H; simpl.
  - by rewrite app_nil_r.
  - pose proof (Forall_inv H) as Hc. apply Forall_inv_tail in H.
    rewrite bool_decide_eq_false_2, IH by done. simpl.
    by rewrite <-app_assoc.
Qed.

Lemma resolve_idem d : FS.resolve (FS.resolve d) = FS.resolve d.
Proof.
  unfold FS.resolve at 1. rewrite resolve_from_id; [done|].
  by apply resolve_from_clean.
Qed.

Lemma is_artifact_spec dir p :
  is_artifact dir p = true <->
  exists name, p = FS.resolve dir ++ [name] ∧
               FS.endswith (lit ".wav") name = true.
Proof.
  unfold is_artifact. split.
  - destruct (reverse p) as [|name parent] eqn:E; [done|].
    intros [Hp Hn]%andb_prop. apply bool_decide_eq_true in Hp.
    exists name. split; [|done].
    rewrite <-Hp, <-reverse_cons, <-E. by rewrite reverse_involutive.
  - intros (name & -> & Hn). rewrite reverse_app, reverse_singleton.
    cbn [app]. rewrite reverse_involutive, Hn.
    by rewrite bool_decide_eq_true_2.
Qed.

Lemma artifact_resolved dir p : is_artifact dir p = true -> FS.resolve p = p.
Proof.
  intros (name & -> & Hn)%is_artifact_spec. unfold FS.resolve at 1.
  rewrite resolve_from_snoc.
  - fold (FS.resolve (FS.resolve dir)). by rewrite resolve_idem.
  - intros ->.
    assert (FS.endswith (lit ".wav") (lit "..") = false) by reflexivity.
    congruence.
Qed.

(** *** The listing of the cache directory *)

Lemma glob_wav_filter dir f :
  FS.glob_wav dir f = List.filter (is_artifact dir) (map fst (map_to_list f)).
Proof. reflexivity. Qed.

Lemma glob_wav_spec dir f p :
  p ∈ FS.glob_wav dir f <-> is_artifact dir p = true ∧ is_Some (f !! p).
Proof.
  rewrite glob_wav_filter, list_elem_of_In, filter_In, <-list_elem_of_In.
  rewrite list_elem_of_fmap. split.
  - intros [([q x] & -> & Hx) Ha]. apply elem_of_map_to_list in Hx.
    split; [done|by exists x].
  - intros [Ha [x Hx]]. split; [|done]. exists (p, x).
    split; [done|by apply elem_of_map_to_list].
Qed.





Lemma listing_spec dir f p x :
  (p, x) ∈ listing dir f <-> is_artifact dir p = true ∧ f !! p = Some x.
Proof.
  unfold listing, with_stat. rewrite list_elem_of_omap. split.
  - intros (q & [Ha Hs]%glob_wav_spec & Hq). unfold FS.stat in Hq.
    rewrite (artifact_resolved dir q Ha) in Hq.
    destruct (f !! q) as [y|] eqn:E; [|done]. by injection Hq as -> ->.
  - intros [Ha Hx]. exists p. split; [by apply glob_wav_spec|].
    unfold FS.stat. by rewrite (artifact_resolved dir p Ha), Hx.
Qed.

(** *** Sizes *)

Lemma sizes_cons pf l : sizes (pf :: l) = FS.st_size pf.2 + sizes l.
Proof. reflexivity. Qed.

Lemma sizes_app a b : sizes (a ++ b) = sizes a + sizes b.
Proof.
  induction a as [|pf a IH]; [done|].
  cbn [app]. rewrite !sizes_cons, IH. lia.
Qed.

Lemma sizes_nonneg l : 0 <= sizes l.
Proof.
  induction l as [|pf l IH]; [done|]. rewrite sizes_cons.
  unfold FS.st_size. lia.
Qed.

Lemma sizes_perm l l' : l ≡ₚ l' -> sizes l = sizes l'.
Proof.
  induction 1 as [|x l l' _ IH|x y l|l l' l'' _ IH1 _ IH2];
    [done|rewrite !sizes_cons; lia..|congruence].
Qed.

(** *** Removing files *)

Lemma unlink_all_lookup ps f p :
  Forall (fun q => FS.resolve q = q) ps ->
  unlink_all ps f !! p = if bool_decide (p ∈ ps) then None else f !! p.
Proof.
  revert f. induction ps as [|q ps IH]; intros f H.
  - by rewrite bool_decide_eq_false_2 by apply not_elem_of_nil.
  - pose proof (Forall_inv H) as Hq. apply Forall_inv_tail in H.
    unfold unlink_all. cbn [fold_left]. fold (unlink_all ps (FS.unlink q f)).
    rewrite IH by done. unfold FS.unlink. rewrite Hq.
    destruct (decide (p = q)) as [->|Hne].
    + rewrite lookup_delete_eq. rewrite (bool_decide_eq_true_2 (q ∈ q :: ps))
        by (by left). by case_bool_decide.
    + rewrite lookup_delete_ne by done.
      case_bool_decide as H1; case_bool_decide as H2; try done.
      * destruct H2. by right.
      * apply elem_of_cons in H2 as [?|?]; done.
Qed.

Lemma expire_fold (ttl now : Z) l f :
  fold_left
    (fun f (pf : FS.Path * FS.File) =>
       if ttl <? now - FS.st_mtime pf.2 then FS.unlink pf.1 f else f) l f
  = unlink_all
      (map fst (List.filter (fun pf => ttl <? now - FS.st_mtime pf.2) l)) f.
Proof.
  revert f. induction l as [|pf l IH]; intros f; [done|].
  cbn [fold_left List.filter]. rewrite IH.
  by destruct (ttl <? now - FS.st_mtime pf.2).
Qed.

Lemma remove_oldest_spec total max_size sorted_files f :
  exists removed kept,
    sorted_files = removed ++ kept ∧
    remove_oldest total max_size sorted_files f
    = unlink_all (map fst removed) f ∧
    (total - sizes removed <= max_size ∨ kept = []) ∧
    forall before x after,
      removed = before ++ x :: after -> max_size < total - sizes before.
Proof.
  revert total f. induction sorted_files as [|oldest rest IH]; intros total f.
  - exists [], []. split_and!; [done|done|by right|].
    intros before x after H. by destruct before.
  - cbn [remove_oldest]. destruct (max_size <? total) eqn:E.
    + apply Z.ltb_lt in E.
      destruct (IH (total - FS.st_size oldest.2) (FS.unlink oldest.1 f))
        as (removed & kept & -> & -> & Hstop & Hwhy).
      exists (oldest :: removed), kept. split_and!; [done|done|..].
      * rewrite sizes_cons.
        destruct Hstop as [?|?]; [left; lia|by right].
      * intros before x after H. destruct before as [|b before].
        -- change (sizes []) with 0. lia.
        -- injection H as <- H. rewrite sizes_cons.
           specialize (Hwhy _ _ _ H). lia.
    + apply Z.ltb_ge in E. exists [], (oldest :: rest).
      split_and!; [done|done|left; change (sizes []) with 0; lia|].
      intros before x after H. by destruct before.
Qed.

(** *** The order in which files are removed *)

Lemma insert_by_mtime_perm x l : insert_by_mtime x l ≡ₚ x :: l.
Proof.
  induction l as [|y l IH]; [done|]. cbn [insert_by_mtime].
  destruct (_ <? _); [done|]. rewrite IH. apply Permutation_swap.
Qed.

Lemma sorted_by_mtime_perm l : sorted_by_mtime l ≡ₚ l.
Proof.
  unfold sorted_by_mtime.
  assert (forall acc, fold_left (fun acc x => insert_by_mtime x acc) l acc
                      ≡ₚ acc ++ l) as H.
  { induction l as [|x l IH]; intros acc; cbn [fold_left].
    - by rewrite app_nil_r.
    - rewrite IH, insert_by_mtime_perm. by rewrite <-Permutation_middle. }
  apply (H []).
Qed.

(** *** What [_cleanup_cache] leaves *)

Lemma unlink_all_app a b f : unlink_all (a ++ b) f = unlink_all b (unlink_all a f).
Proof. apply fold_left_app. Qed.

(** The file system after the first pass of [_cleanup_cache], which
    removes the expired artifacts. *)
Lemma expired_pass_lookup now s p :
  let dir := cache_path s in
  unlink_all
    (map fst (List.filter (fun pf => expired s now pf.2) (listing dir (fs s))))
    (fs s) !! p
  = match fs s !! p with
    | Some x => if is_artifact dir p && expired s now x then None else Some x
    | None => None
    end.
Proof.
  intros dir. rewrite unlink_all_lookup.
  2:{ apply Forall_forall. intros q Hq.
      apply list_elem_of_fmap in Hq as ([q' x] & -> & Hx).
      apply list_elem_of_In, filter_In in Hx as [Hx _].
      apply list_elem_of_In, listing_spec in Hx as [Ha _].
      by apply (artifact_resolved dir). }
  case_bool_decide as Hin.
  - apply list_elem_of_fmap in Hin as ([q x] & -> & Hx).
    apply list_elem_of_In, filter_In in Hx as [Hx He].
    apply list_elem_of_In, listing_spec in Hx as [Ha Hx].
    cbn [fst snd] in *. by rewrite Hx, Ha, He.
  - destruct (fs s !! p) as [x|] eqn:Hx; [|done].
    destruct (is_artifact dir p) eqn:Ha; [|done].
    destruct (expired s now x) eqn:He; [|done].
    destruct Hin. apply list_elem_of_fmap. exists (p, x). split; [done|].
    apply list_elem_of_In, filter_In. split; [|done].
    by apply list_elem_of_In, listing_spec.
Qed.

Lemma _cleanup_cache_spec now s :
  let dir := cache_path s in
  let f1 :=
    unlink_all
      (map fst
         (List.filter (fun pf => expired s now pf.2) (listing dir (fs s))))
      (fs s) in
  exists removed kept,
    sorted_by_mtime (listing dir f1) = removed ++ kept ∧
    fs (_cleanup_cache now s) = unlink_all (map fst removed) f1 ∧
    (sizes kept <= max_size s ∨ kept = []) ∧
    forall before x after,
      removed = before ++ x :: after ->
      max_size s < sizes (x :: after ++ kept).
Proof.
  intros dir f1.
  assert (fs (_cleanup_cache now s)
          = if max_size s <? sizes (listing dir f1)
            then remove_oldest (sizes (listing dir f1)) (max_size s)
                   (sorted_by_mtime (listing dir f1)) f1
            else f1) as ->.
  { unfold _cleanup_cache. rewrite expire_fold. reflexivity. }
  pose proof (sizes_perm _ _ (sorted_by_mtime_perm (listing dir f1))) as Htotal.
  destruct (max_size s <? sizes (listing dir f1)) eqn:E.
  - destruct (remove_oldest_spec (sizes (listing dir f1)) (max_size s)
                (sorted_by_mtime (listing dir f1)) f1)
      as (removed & kept & HS & -> & Hstop & Hwhy).
    exists removed, kept. rewrite HS, sizes_app in Htotal.
    split_and!; [done|done|..].
    + destruct Hstop as [?|?]; [left; lia|by right].
    + intros before x after ->. specialize (Hwhy before x after eq_refl).
      rewrite sizes_app in Htotal.
      change (x :: after ++ kept) with ((x :: after) ++ kept).
      rewrite sizes_app. lia.
  - apply Z.ltb_ge in E. exists [], (sorted_by_mtime (listing dir f1)).
    split_and!; [done|done|left; lia|].
    intros before x after H. by destruct before.
Qed.


(** X18: [_cleanup_cache] creates and changes no file, and the only
    files it removes are files directly in the cache directory whose name
    ends in [.wav]. *)
Theorem _cleanup_cache_only_removes_artifacts now s p :
  fs (_cleanup_cache now s) !! p = fs s !! p ∨
  fs (_cleanup_cache now s) !! p = None ∧
  p ∈ FS.glob_wav (cache_path s) (fs s).
Proof.
  destruct (_cleanup_cache_spec now s) as (removed & kept & HS & -> & _).
  pose proof (sorted_by_mtime_perm
                (listing (cache_path s)
                   (unlink_all
                      (map fst
                         (List.filter (fun pf => expired s now pf.2)
                            (listing (cache_path s) (fs s))))
                      (fs s)))) as Hperm.
  set (f1 := unlink_all _ (fs s)) in *.
  assert (forall q x, (q, x) ∈ removed ->
            is_artifact (cache_path s) q = true ∧ f1 !! q = Some x) as Hrem.
  { intros q x Hq. apply listing_spec. rewrite <-Hperm, HS.
    apply elem_of_app. by left. }
  pose proof (expired_pass_lookup now s p) as Hp. cbv zeta in Hp. fold f1 in Hp.
  rewrite unlink_all_lookup.
  2:{ apply Forall_forall. intros q Hq.
      apply list_elem_of_fmap in Hq as ([q' x] & -> & Hx).
      destruct (Hrem _ _ Hx) as [Ha _]. by apply (artifact_resolved (cache_path s)). }
  case_bool_decide as Hin.
  - apply list_elem_of_fmap in Hin as ([q x] & -> & Hx).
    destruct (Hrem _ _ Hx) as [Ha Hf]. cbn [fst] in *. right. split; [done|].
    apply glob_wav_spec. split; [done|].
    rewrite Hf in Hp. by destruct (fs s !! q).
  - rewrite Hp. destruct (fs s !! p) as [x|] eqn:Hx; [|by left].
    destruct (is_artifact (cache_path s) p) eqn:Ha; [|by left].
    destruct (expired s now x); [|by left].
    right. split; [done|]. apply glob_wav_spec. split; [done|by exists x].
Qed.


(** *** A new artifact survives the cleanup *)






Section stores.
Variable sha256 : list N -> list N.
Variable backend : nat -> list N -> list N -> option (list Byte.byte).


End stores.


(* ===================================================================== *)
(** ** The event processor *)
(* ===================================================================== *)

Import PyStr Events Queue Queue.QueueService Session Dispatch EventProcessor.

Section processor.
Variable md5 sha256 : list N -> list N.
Variable backend : nat -> list N -> list N -> option (list Byte.byte).
Variable _format_message : Config -> StreamEvent.t -> option (list N).
Variable censor : list N -> list N.

Local Abbreviation process_event' :=
  (process_event md5 sha256 backend _format_message censor).

(** X21: when [process_event] returns true, the event is enabled and
    meets its threshold, its formatted text is not empty, the synthesizer
    returned a path for the cleaned (and, if configured, censored) text,
    and a message with that text, that path, the event and the priority
    of the event's type is in flight or in the queue. *)
Theorem process_event_true now message_id event self s' :
  process_event' now message_id event self = (Return true, s') ->
  _is_event_enabled (config self) event = true ∧
  _meets_threshold (config self) event = Some true ∧
  exists raw path,
    _format_message (config self) event = Some raw ∧ truthy raw = true ∧
    let text :=
      _clean_text
        (if TTS_PROFANITY_FILTER (config self) then censor raw else raw) in
    let m :=
      {| TTSMessage.id := message_id;
         TTSMessage.text := text;
         TTSMessage.display_text := text;
         TTSMessage.priority := get_priority (config self) event;
         TTSMessage.event := Some event;
         TTSMessage.audio_path := Some path;
         TTSMessage.created_at := now |} in
    TTS.synthesize sha256 backend now text true (tts_service self)
    = (TTS.Ok path, tts_service s') ∧
    (_current_message (queue_service s') = Some m ∨
     PriorityItem.init m ∈ _queue (queue_service s')).
Proof.
  unfold process_event.
  destruct (_is_event_enabled (config self) event); [|done]. cbn [negb].
  destruct (_meets_threshold (config self) event) as [[|]|]; [|done..].
  destruct (_format_message (config self) event) as [raw|]; [|done].
  destruct (truthy raw) eqn:Hraw; [|done]. cbn [negb].
  set (text := _clean_text _).
  destruct (TTS.synthesize sha256 backend now text true (tts_service self))
    as [[path| |] tts] eqn:Hs; [|done..].
  set (m := {| TTSMessage.id := message_id |}).
  pose proof (add_message_cases md5 now m (queue_service self)) as Hadd.
  destruct (add_message md5 now m (queue_service self)) as [[[|]|] q];
    [|done..].
  intros [= <-]. split_and!; [done..|]. exists raw, path.
  split_and!; done.
Qed.

(** X22: a disabled event, an event below its threshold and an event
    whose text cannot be formatted change neither the synthesizer nor the
    queue. *)
Theorem process_event_filters_first now message_id event self :
  (process_event' now message_id event self).2 = self ∨
  _is_event_enabled (config self) event = true ∧
  _meets_threshold (config self) event = Some true ∧
  exists raw, _format_message (config self) event = Some raw ∧
              truthy raw = true.
Proof.
  unfold process_event.
  destruct (_is_event_enabled (config self) event); [|by left]. cbn [negb].
  destruct (_meets_threshold (config self) event) as [[|]|]; [|by left..].
  destruct (_format_message (config self) event) as [raw|]; [|by left].
  destruct (truthy raw) eqn:Hraw; [|by left].
  right. split_and!; [done..|]. by exists raw.
Qed.


End processor.

Lemma process_event_true_witness :
  _is_event_enabled (config Samples.processor) (Examples.bits_event "T0")
  = true.
Proof.
  assert ((process_event Examples.hash Examples.hash Examples.backend
             Samples.format_event Samples.censor 0 (lit "m1")
             (Examples.bits_event "T0") Samples.processor).1 = Return true)
    as H by (by vm_compute).
  destruct (process_event Examples.hash Examples.hash Examples.backend
              Samples.format_event Samples.censor 0 (lit "m1")
              (Examples.bits_event "T0") Samples.processor)
    as [o s'] eqn:E.
  cbn [fst] in H. subst o.
  apply (process_event_true Examples.hash Examples.hash Examples.backend
           Samples.format_event Samples.censor 0 (lit "m1")
           (Examples.bits_event "T0") Samples.processor s' E).
Defined.


(* ===================================================================== *)
(** ** More on the dispatch of messages *)
(* ===================================================================== *)

Import PyStr Events Queue Queue.QueueService HeapOrder Session Heapq Dispatch.

(** X24: an event that the classes of [events.py] construct with their
    defaults carries the platform of its event type: the value of its
    [event_type] starts with the value of its [platform], which is the
    key of the rate limiter that [add_message] asks. *)
Theorem constructed_event_platform id username timestamp d :
  let e := new_event id username timestamp d in
  exists rest,
    strip_prefix (Platform_value (StreamEvent.platform e))
      (EventType_value (StreamEvent.event_type e)) = Some rest.
Proof.
  destruct d as [amount message anon|tier months message is_resub
                |tier count recipient total anon|rid rname cost input
                |amount currency message|amount currency sticker
                |level months is_milestone|];
    cbn [new_event StreamEvent.platform StreamEvent.event_type
         default_platform default_event_type];
    try destruct is_resub; try destruct (1 <? count);
    try destruct is_milestone; by eexists.
Qed.

(** X25: [mark_complete] dispatches the next message whatever identifier
    it is given and whatever is in flight.  On a non-empty queue in heap
    order it takes out a message whose priority no queued message
    exceeds, makes it the current message and emits its [tts_ready]. *)
Theorem mark_complete_always_advances message_id s :
  queue_ok (_queue s) ->
  _queue s ≠ [] ->
  exists item,
    (forall other, other ∈ _queue s ->
       TTSMessage.priority (PriorityItem.message other)
       <= TTSMessage.priority (PriorityItem.message item)) ∧
    _queue s ≡ₚ item :: _queue (mark_complete message_id s) ∧
    _current_message (mark_complete message_id s)
    = Some (PriorityItem.message item) ∧
    emitted (mark_complete message_id s)
    = emitted s ++ ready_of (PriorityItem.message item).
Proof.
  intros Hok Hne. unfold mark_complete.
  set (s1 := match _current_message s with Some _ => _ | None => _ end).
  assert (_queue s1 = _queue s ∧ emitted s1 = emitted s) as [Hq He].
  { subst s1. by repeat case_match. }
  destruct (heappop PriorityItem.lt (_queue s1)) as [[item q]|] eqn:Hpop.
  2:{ apply heappop_None in Hpop. congruence. }
  destruct (_send_next_pop _ _ _ Hpop) as (Hq' & Hcur & _ & Hem & _).
  rewrite Hq in Hpop.
  destruct (queue_ok_pop _ _ _ Hok Hpop) as (_ & Hperm & _ & Hmax).
  exists item. rewrite Hq', Hcur, Hem, He. done.
Qed.

Lemma mark_complete_always_advances_witness :
  exists item,
    _current_message
      (mark_complete (lit "no such message") Examples.idle_with_two)
    = Some (PriorityItem.message item).
Proof.
  destruct (mark_complete_always_advances (lit "no such message")
              Examples.idle_with_two) as (item & _ & _ & Hcur & _).
  - exact (queue_ok_push _ Examples.M2
             (queue_ok_push _ Examples.M3 queue_ok_nil)).
  - discriminate.
  - by exists item.
Defined.

(** The checks of [add_message] that an accepted message passes leave
    the queue as it is. *)
Lemma add_message_checks md5 now m s :
  (DuplicateDetector.is_duplicate md5 now (TTSMessage.text m)
     (_duplicate_detector s)).1 = false ->
  rate_check_passes now m s ->
  exists s2,
    _queue s2 = _queue s ∧ _messages s2 = _messages s ∧
    _current_message s2 = _current_message s ∧ config s2 = config s ∧
    emitted s2 = emitted s ∧
    add_message md5 now m s =
      match make_room s2 with
      | inr s3 => (KeyError, s3)
      | inl s3 =>
          let s4 :=
            with_messages (<[TTSMessage.id m := m]> (_messages s3))
              (with_queue
                 (heappush PriorityItem.lt (_queue s3) (PriorityItem.init m))
                 s3) in
          let s5 := _notify_queue_update now s4 in
          (Return true,
           match _current_message s5 with
           | None => _send_next s5
           | Some _ => s5
           end)
      end.
Proof.
  intros Hdup Hrate. unfold add_message.
  destruct (DuplicateDetector.is_duplicate _ _ _ _) as [dup dd].
  simpl in Hdup. subst dup.
  set (r := match TTSMessage.event m with Some _ => _ | None => _ end).
  assert (r.1 = true ∧ _queue r.2 = _queue s ∧ _messages r.2 = _messages s ∧
          _current_message r.2 = _current_message s ∧ config r.2 = config s ∧
          emitted r.2 = emitted s)
    as (Hok & Hq2 & Hm2 & Hc2 & Hcfg2 & He2).
  { subst r. unfold rate_check_passes in Hrate.
    destruct (TTSMessage.event m) as [ev|]; [|done].
    replace (_rate_limiters (StreamEvent.platform ev)
               (with_duplicate_detector dd s))
      with (_rate_limiters (StreamEvent.platform ev) s)
      by (by destruct (StreamEvent.platform ev)).
    destruct (RateLimiter.is_allowed _ _ _) as [ok rl]. simpl in Hrate.
    by subst ok. }
  destruct r as [allowed s2]. cbn [fst snd] in *. subst allowed.
  exists s2. cbn [negb]. split_and!; done.
Qed.

(** X26: the entry that a full queue gives up is one of highest
    priority.  When a message is in flight, the queue is full and in heap
    order, and an offered message passes the duplicate and rate checks,
    [add_message] returns true and the entry that leaves the queue is one
    whose priority no queued message exceeds. *)
Theorem full_queue_evicts_highest_priority md5 now m s c :
  _current_message s = Some c ->
  QUEUE_MAX_SIZE (config s) <= Z.of_nat (length (_queue s)) ->
  _queue s ≠ [] ->
  queue_ok (_queue s) ->
  (forall item, item ∈ _queue s ->
     is_Some (_messages s !! TTSMessage.id (PriorityItem.message item))) ->
  (DuplicateDetector.is_duplicate md5 now (TTSMessage.text m)
     (_duplicate_detector s)).1 = false ->
  rate_check_passes now m s ->
  exists removed rest,
    _queue s ≡ₚ removed :: rest ∧
    (forall other, other ∈ _queue s ->
       TTSMessage.priority (PriorityItem.message other)
       <= TTSMessage.priority (PriorityItem.message removed)) ∧
    (add_message md5 now m s).1 = Return true ∧
    _queue (add_message md5 now m s).2 ≡ₚ PriorityItem.init m :: rest.
Proof.
  intros Hcur Hfull Hne Hok Hreg Hdup Hrate.
  destruct (add_message_checks md5 now m s Hdup Hrate)
    as (s2 & Hq2 & Hm2 & Hc2 & Hcfg2 & He2 & ->).
  destruct (make_room_full s2) as (removed & rest & Hpop & ->).
  { by rewrite Hcfg2, Hq2. }
  { by rewrite Hq2, Hm2. }
  { by rewrite Hq2. }
  rewrite Hq2 in Hpop.
  destruct (queue_ok_pop _ _ _ Hok Hpop) as (_ & Hperm & _ & Hmax).
  exists removed, rest. split_and!; [done|done|done|].
  cbv zeta. cbn [snd].
  set (s4 := with_messages _ (with_queue _ _)).
  destruct (_notify_queue_update_frame now s4) as (Hq5 & _ & Hc5 & _).
  rewrite Hc5. cbn [s4 with_messages with_queue _current_message].
  rewrite Hc2, Hcur, Hq5. cbn [s4 with_messages with_queue _queue].
  apply heappush_perm.
Qed.

Lemma full_queue_evicts_highest_priority_witness :
  exists removed rest,
    _queue Examples.after_S5 ≡ₚ removed :: rest ∧
    (forall other, other ∈ _queue Examples.after_S5 ->
       TTSMessage.priority (PriorityItem.message other)
       <= TTSMessage.priority (PriorityItem.message removed)).
Proof.
  destruct (full_queue_evicts_highest_priority Examples.hash 0 Examples.M4
              Examples.after_S5 Examples.M1)
    as (removed & rest & Hperm & Hmax & _).
  - by vm_compute.
  - by vm_compute.
  - by vm_compute.
  - apply queue_ok_run.
  - assert (_queue Examples.after_S5
            = [PriorityItem.init Examples.M3; PriorityItem.init Examples.M2])
      as -> by (vm_compute; reflexivity).
    intros item Hin.
    repeat (apply elem_of_cons in Hin as [->|Hin]);
      try (vm_compute; eexists; reflexivity).
    by apply elem_of_nil in Hin.
  - by vm_compute.
  - exact I.
  - by exists removed, rest.
Defined.

(** X27: the status that [add_message] announces is taken before the
    dispatch.  When nothing is in flight and nothing is queued, an
    accepted message is announced as a queue of size 1 with no current
    message, and only then dispatched: afterwards it is in flight and the
    queue is empty, which no [queue_update] reports. *)
Theorem add_message_reports_before_dispatch md5 now m s :
  _current_message s = None ->
  _queue s = [] ->
  (DuplicateDetector.is_duplicate md5 now (TTSMessage.text m)
     (_duplicate_detector s)).1 = false ->
  rate_check_passes now m s ->
  (add_message md5 now m s).1 = Return true ∧
  _current_message (add_message md5 now m s).2 = Some m ∧
  _queue (add_message md5 now m s).2 = [] ∧
  exists st,
    emitted (add_message md5 now m s).2
    = emitted s ++ queue_update st :: ready_of m ∧
    size st = 1%nat ∧ current st = None.
Proof.
  intros Hcur Hq Hdup Hrate.
  destruct (add_message_checks md5 now m s Hdup Hrate)
    as (s2 & Hq2 & Hm2 & Hc2 & Hcfg2 & He2 & ->).
  rewrite make_room_empty by congruence. cbv zeta.
  set (s4 := with_messages _ (with_queue _ _)).
  assert (_queue s4 = [PriorityItem.init m]) as Hq4.
  { cbn [s4 with_messages with_queue _queue]. rewrite Hq2, Hq. reflexivity. }
  assert (exists st,
            _notify_queue_update now s4
            = emit (queue_update st) (get_queue_status now s4).2 ∧
            size st = 1%nat ∧ current st = None) as (st & Hn & Hsz & Hst).
  { unfold _notify_queue_update, get_queue_status.
    destruct (RateLimiter.get_remaining now (lit "twitch") _) as [tw rl_tw].
    destruct (RateLimiter.get_remaining now (lit "youtube") _) as [yt rl_yt].
    eexists. split; [reflexivity|]. cbn [size current].
    rewrite Hq4. cbn [s4 with_messages with_queue _current_message].
    by rewrite Hc2, Hcur. }
  pose proof (get_queue_status_frame now s4) as Hf.
  destruct (get_queue_status now s4) as [st' s5].
  destruct Hf as (_ & _ & Hq5 & _ & He5 & Hc5 & _). cbn [snd] in Hn.
  rewrite Hn. cbn [emit _current_message]. rewrite Hc5.
  cbn [s4 with_messages with_queue _current_message]. rewrite Hc2, Hcur.
  assert (heappop PriorityItem.lt (_queue (emit (queue_update st) s5))
          = Some (PriorityItem.init m, [])) as Hpop.
  { cbn [emit _queue]. rewrite Hq5, Hq4. reflexivity. }
  destruct (_send_next_pop _ _ _ Hpop) as (Hq6 & Hc6 & _ & He6 & _).
  cbn [fst snd]. split_and!; [done|done|done|].
  exists st. split; [|done].
  rewrite He6. cbn [emit emitted PriorityItem.init PriorityItem.message].
  rewrite He5. cbn [s4 with_messages with_queue emitted]. rewrite He2.
  by rewrite <-app_assoc.
Qed.

Lemma add_message_reports_before_dispatch_witness :
  _queue
    (add_message Examples.hash 0 Examples.M1 (init (Examples.config_of 5))).2
  = [].
Proof.
  apply (add_message_reports_before_dispatch Examples.hash 0 Examples.M1
           (init (Examples.config_of 5))).
  - reflexivity.
  - reflexivity.
  - by vm_compute.
  - exact I.
Defined.

(* ===================================================================== *)
(** ** The checks of [add_message] over a run *)
(* ===================================================================== *)

Import PyStr Events Queue Queue.QueueService Session Limits Guards.

(** *** The duplicate detector and the limiters across the calls *)

Lemma _rate_limiters_get_queue_status p now s :
  _rate_limiters p (get_queue_status now s).2
  = (RateLimiter.get_remaining now (Platform_value p) (_rate_limiters p s)).2.
Proof.
  unfold get_queue_status.
  change (lit "twitch") with (Platform_value TWITCH).
  change (lit "youtube") with (Platform_value YOUTUBE).
  destruct (RateLimiter.get_remaining now (Platform_value TWITCH) _)
    as [tw rl_tw] eqn:Etw.
  destruct (RateLimiter.get_remaining now (Platform_value YOUTUBE) _)
    as [yt rl_yt] eqn:Eyt.
  destruct p; cbn [snd _rate_limiters with_rate_limiter _rate_limiter_twitch
                   _rate_limiter_youtube].
  - by rewrite Etw.
  - cbn [with_rate_limiter _rate_limiter_youtube] in Eyt. by rewrite Eyt.
Qed.

Lemma _rate_limiters_notify p now s :
  _rate_limiters p (_notify_queue_update now s)
  = (RateLimiter.get_remaining now (Platform_value p) (_rate_limiters p s)).2.
Proof.
  rewrite <-_rate_limiters_get_queue_status. unfold _notify_queue_update.
  destruct (get_queue_status now s) as [st s']. by destruct p.
Qed.

Lemma _send_next_guards s :
  _duplicate_detector (_send_next s) = _duplicate_detector s ∧
  forall p, _rate_limiters p (_send_next s) = _rate_limiters p s.
Proof.
  destruct (Heapq.heappop PriorityItem.lt (_queue s)) as [[item q]|] eqn:Hpop.
  - destruct (_send_next_pop _ _ _ Hpop) as (_ & _ & _ & _ & _ & Hd & Ht & Hy).
    split; [done|]. by intros [].
  - apply heappop_None in Hpop. by rewrite _send_next_empty.
Qed.

Lemma make_room_guards s s3 :
  make_room s = inl s3 ∨ make_room s = inr s3 ->
  _duplicate_detector s3 = _duplicate_detector s ∧
  forall p, _rate_limiters p s3 = _rate_limiters p s.
Proof.
  unfold make_room. destruct (_ <=? _).
  - destruct (Heapq.heappop PriorityItem.lt (_queue s)) as [[removed q]|].
    + cbn [with_queue _messages]. destruct (_ !! _).
      * intros [[= <-]|[=]]. split; [done|]. by intros [].
      * intros [[=]|[= <-]]. split; [done|]. by intros [].
    + intros [[= <-]|[=]]. done.
  - intros [[= <-]|[=]]. done.
Qed.

(** [add_message] from the point where the checks have passed. *)
Lemma add_message_tail_guards now m s :
  let r :=
    match make_room s with
    | inr s3 => (KeyError, s3)
    | inl s3 =>
        let s4 :=
          with_messages (<[TTSMessage.id m := m]> (_messages s3))
            (with_queue
               (Heapq.heappush PriorityItem.lt (_queue s3) (PriorityItem.init m))
               s3) in
        let s5 := _notify_queue_update now s4 in
        (Return true,
         match _current_message s5 with
         | None => _send_next s5
         | Some _ => s5
         end)
    end in
  _duplicate_detector r.2 = _duplicate_detector s ∧
  r.1 ≠ Return false ∧
  forall p,
    _rate_limiters p r.2
    = match r.1 with
      | Return true =>
          (RateLimiter.get_remaining now (Platform_value p)
             (_rate_limiters p s)).2
      | _ => _rate_limiters p s
      end.
Proof.
  cbv zeta. destruct (make_room s) as [s3|s3] eqn:Hmr.
  - destruct (make_room_guards s s3) as [Hd3 Hr3]; [by left|].
    set (s4 := with_messages _ (with_queue _ s3)).
    destruct (_notify_queue_update_frame now s4) as (_ & _ & _ & _ & Hd5 & _).
    cbn [fst snd].
    assert (forall p, _rate_limiters p (_notify_queue_update now s4)
                      = (RateLimiter.get_remaining now (Platform_value p)
                           (_rate_limiters p s)).2) as Hr5.
    { intros p. rewrite _rate_limiters_notify, <-Hr3. by destruct p. }
    destruct (_current_message (_notify_queue_update now s4)).
    + split_and!; [by rewrite Hd5|done|done].
    + destruct (_send_next_guards (_notify_queue_update now s4)) as [Hd6 Hr6].
      split_and!; [by rewrite Hd6, Hd5|done|].
      intros p. by rewrite Hr6.
  - destruct (make_room_guards s s3) as [Hd3 Hr3]; [by right|].
    cbn [fst snd]. done.
Qed.

Lemma add_message_dd md5 now m s :
  _duplicate_detector (add_message md5 now m s).2
  = (DuplicateDetector.is_duplicate md5 now (TTSMessage.text m)
       (_duplicate_detector s)).2.
Proof.
  unfold add_message.
  destruct (DuplicateDetector.is_duplicate _ _ _ _) as [dup dd].
  destruct dup; [done|]. cbn [snd].
  set (r := match TTSMessage.event m with Some _ => _ | None => _ end).
  assert (_duplicate_detector r.2 = dd) as Hd.
  { subst r. destruct (TTSMessage.event m) as [ev|]; [|done].
    by destruct (RateLimiter.is_allowed _ _ _) as [ok rl]. }
  destruct r as [allowed s2]. cbn [snd] in Hd.
  destruct allowed; [|done]. cbn [negb].
  destruct (add_message_tail_guards now m s2) as (Hd' & _).
  transitivity (_duplicate_detector s2); [exact Hd'|exact Hd].
Qed.

(** *** A repeated text *)

Lemma step_dd md5 c s :
  _duplicate_detector (step md5 s c)
  = match c with
    | Offer now m =>
        (DuplicateDetector.is_duplicate md5 now (TTSMessage.text m)
           (_duplicate_detector s)).2
    | _ => _duplicate_detector s
    end.
Proof.
  destruct c as [now m| |mid| |now|now]; cbn [step].
  - apply add_message_dd.
  - unfold get_next. by destruct (Heapq.heappop _ _) as [[item q]|].
  - unfold mark_complete. destruct (_send_next_guards
      (match _current_message s with
       | Some m0 =>
           if bool_decide (TTSMessage.id m0 = mid)
           then with_current None s else s
       | None => s
       end)) as [-> _]. by repeat case_match.
  - unfold skip_current. destruct (_send_next_guards
      (emit skip
         (match _current_message s with
          | Some _ => with_current None s
          | None => s
          end))) as [-> _]. by repeat case_match.
  - unfold clear_queue.
    by destruct (_notify_queue_update_frame now
                   (with_messages ∅ (with_queue [] s)))
      as (_ & _ & _ & _ & -> & _).
  - pose proof (get_queue_status_frame now s) as H.
    destruct (get_queue_status now s) as [st s'].
    by destruct H as (_ & _ & _ & _ & _ & _ & _ & H).
Qed.

(** X28: within the window a repeated text is always refused.  After a
    text has passed the duplicate check at [t0], an offer of the same
    text is refused, whatever calls were made in between, as long as it
    and the offers in between come less than [QUEUE_DUPLICATE_WINDOW]
    seconds after [t0]. *)
Theorem repeated_text_is_refused md5 t0 m0 s calls now m :
  (DuplicateDetector.is_duplicate md5 t0 (TTSMessage.text m0)
     (_duplicate_detector s)).1 = false ->
  Forall (fun t => t - t0 < DuplicateDetector.window (_duplicate_detector s))
    (offer_clocks calls) ->
  now - t0 < DuplicateDetector.window (_duplicate_detector s) ->
  TTSMessage.text m = TTSMessage.text m0 ->
  (add_message md5 now m
     (fold_left (step md5) calls (add_message md5 t0 m0 s).2)).1
  = Return false.
Proof.
  intros Hdup Hcalls Hnow Htext.
  destruct (is_duplicate_false_records md5 t0 (TTSMessage.text m0)
              (_duplicate_detector s) Hdup) as (Hseen & Hw & _).
  rewrite <-add_message_dd in Hseen, Hw.
  set (s1 := (add_message md5 t0 m0 s).2) in *.
  set (w := DuplicateDetector.window (_duplicate_detector s)) in *.
  assert (DuplicateDetector.seen
            (_duplicate_detector (fold_left (step md5) calls s1))
            !! md5 (TTSMessage.text m0) = Some t0 ∧
          DuplicateDetector.window
            (_duplicate_detector (fold_left (step md5) calls s1)) = w)
    as [Hs Hw'].
  { clearbody s1. clear Hdup. revert s1 Hseen Hw Hcalls.
    induction calls as [|c calls IH]; intros s1 Hseen Hw Hcalls; [done|].
    cbn [fold_left].
    assert (DuplicateDetector.seen (_duplicate_detector (step md5 s1 c))
              !! md5 (TTSMessage.text m0) = Some t0 ∧
            DuplicateDetector.window (_duplicate_detector (step md5 s1 c)) = w)
      as [Hseen' Hw1].
    { rewrite step_dd. destruct c; try done.
      rewrite <-Hw. apply is_duplicate_keeps; [done|]. rewrite Hw.
      by apply Forall_inv in Hcalls. }
    apply IH; [done..|].
    destruct c; try done. by apply Forall_inv_tail in Hcalls. }
  rewrite add_message_duplicate; [done|].
  rewrite Htext. eapply is_duplicate_fresh; [done|]. by rewrite Hw'.
Qed.

Lemma repeated_text_is_refused_witness :
  (add_message Examples.hash 4 Examples.T1_again
     (fold_left (step Examples.hash) [Offer 1 Examples.M1; Skip; Status 3]
        (add_message Examples.hash 0 Examples.T1
           (init (Examples.config_of 5))).2)).1
  = Return false.
Proof.
  apply repeated_text_is_refused.
  - by vm_compute.
  - apply Forall_cons_2; [by vm_compute|apply Forall_nil_2].
  - by vm_compute.
  - reflexivity.
Defined.

(** *** The rate limit over a run *)

Lemma filter_sublist_mono (c : Z) (l1 l2 : list Z) :
  l1 `sublist_of` l2 -> recent 60 c l1 `sublist_of` recent 60 c l2.
Proof.
  unfold recent. induction 1 as [|x l1 l2 _ IH|x l1 l2 _ IH].
  - done.
  - rewrite !filter_cons. destruct (decide (c - 60 < x)); [|done].
    by apply sublist_skip.
  - rewrite filter_cons. destruct (decide (c - 60 < x)); [|done].
    by apply sublist_cons.
Qed.

Lemma recent_recent c c' l :
  c <= c' -> recent 60 c' (recent 60 c l) = recent 60 c' l.
Proof. intros H. apply filter_filter_cutoff. lia. Qed.

Lemma covers_mono R c c' key a rl :
  c <= c' -> covers R c key a rl -> covers R c' key a rl.
Proof.
  intros Hc (Hw & Hr & Hsub & Hlen). split_and!; [done..| |done].
  rewrite <-(recent_recent c c') by done.
  etrans; [apply sublist_filter|done].
Qed.

Lemma covers_sub R c key a a' rl :
  a' `sublist_of` a -> covers R c key a rl -> covers R c key a' rl.
Proof.
  intros Ha (Hw & Hr & Hsub & Hlen). split_and!; [done..| |done].
  etrans; [by apply filter_sublist_mono|done].
Qed.

Lemma covers_get_remaining R c now key a rl :
  c <= now -> covers R c key a rl ->
  covers R now key a (RateLimiter.get_remaining now key rl).2.
Proof.
  intros Hc (Hw & Hr & Hsub & Hlen).
  unfold RateLimiter.get_remaining. cbn [snd].
  split_and!; [done..| |]; rewrite prune_tokens, Hw;
    change (default [] (Some ?x)) with x.
  - rewrite <-(recent_recent c now) by done. by apply filter_sublist_mono.
  - etrans; [|exact Hlen]. apply Nat2Z.inj_le, length_filter.
Qed.

Lemma covers_is_allowed R c now key a rl :
  c <= now -> covers R c key a rl ->
  covers R now key
    (a ++ if (RateLimiter.is_allowed now key rl).1 then [now] else [])
    (RateLimiter.is_allowed now key rl).2.
Proof.
  intros Hc (Hw & Hr & Hsub & Hlen).
  destruct (is_allowed_tokens now key rl) as (Hr' & Hw' & Hok & Htk).
  cbv zeta in Hok, Htk. rewrite Hw in Hok, Htk.
  split_and!; [congruence..| |]; rewrite Htk.
  - assert (recent 60 now a `sublist_of`
              recent 60 now (default [] (RateLimiter.tokens rl !! key))) as H.
    { rewrite <-(recent_recent c now) by done. by apply filter_sublist_mono. }
    destruct (RateLimiter.is_allowed now key rl).1.
    + unfold recent at 1. rewrite filter_app, filter_cons, filter_nil.
      destruct (decide (now - 60 < now)); [|lia]. by apply sublist_app.
    + by rewrite app_nil_r.
  - destruct (RateLimiter.is_allowed now key rl).1.
    + symmetry in Hok. apply Z.ltb_lt in Hok.
      rewrite length_app. cbn [length]. lia.
    + etrans; [|exact Hlen]. apply Nat2Z.inj_le, length_filter.
Qed.

Lemma _rate_limiters_with_rate_limiter p q rl s :
  _rate_limiters p (with_rate_limiter q rl s)
  = if same_platform q p then rl else _rate_limiters p s.
Proof. by destruct p, q. Qed.

Lemma accepted_here_refused p now m o :
  o ≠ Return true -> accepted_here p now m o = [].
Proof.
  intros Ho. unfold accepted_here. destruct (TTSMessage.event m); [|done].
  by destruct o as [[|]|].
Qed.

Lemma same_platform_eq a b : same_platform a b = true -> a = b.
Proof. by destruct a, b. Qed.

Lemma covers_add_message md5 p now m s R c a :
  c <= now ->
  covers R c (Platform_value p) a (_rate_limiters p s) ->
  covers R now (Platform_value p)
    (a ++ accepted_here p now m (add_message md5 now m s).1)
    (_rate_limiters p (add_message md5 now m s).2).
Proof.
  intros Hc Hcov. unfold add_message.
  destruct (DuplicateDetector.is_duplicate _ _ _ _) as [dup dd].
  assert (_rate_limiters p (with_duplicate_detector dd s) = _rate_limiters p s)
    as Hrl1 by (by destruct p).
  destruct dup.
  { cbn [fst snd]. rewrite accepted_here_refused, app_nil_r, Hrl1 by done.
    by apply (covers_mono R c). }
  set (s1 := with_duplicate_detector dd s) in *.
  (* the state after the rate check, and whether [p] was asked *)
  set (r := match TTSMessage.event m with Some _ => _ | None => _ end).
  assert (exists granted,
            covers R now (Platform_value p) (a ++ granted)
              (_rate_limiters p r.2) ∧
            (r.1 = false -> granted = []) ∧
            (accepted_here p now m (Return true) = granted ∨ r.1 = false))
    as (granted & Hcov2 & Hrefused & Hacc).
  { subst r. destruct (TTSMessage.event m) as [ev|] eqn:Hev.
    - cbv zeta.
      destruct (same_platform (StreamEvent.platform ev) p) eqn:Hsame.
      + apply same_platform_eq in Hsame. rewrite Hsame.
        pose proof (covers_is_allowed R c now (Platform_value p) a
                      (_rate_limiters p s1)) as H.
        rewrite Hrl1 in H |- *. specialize (H Hc Hcov).
        destruct (RateLimiter.is_allowed now (Platform_value p)
                    (_rate_limiters p s)) as [ok rl].
        cbn [fst snd] in *.
        exists (if ok then [now] else []).
        rewrite _rate_limiters_with_rate_limiter.
        assert (same_platform p p = true) as Hpp by (by destruct p).
        rewrite Hpp. split_and!; [done|by intros ->|].
        unfold accepted_here. rewrite Hev, Hsame, Hpp.
        destruct ok; [by left|by right].
      + destruct (RateLimiter.is_allowed now _ _) as [ok rl].
        cbn [fst snd]. exists [].
        rewrite _rate_limiters_with_rate_limiter, Hsame, Hrl1, app_nil_r.
        split_and!; [by apply (covers_mono R c)|done|].
        left. unfold accepted_here. by rewrite Hev, Hsame.
    - exists []. cbn [fst snd]. rewrite Hrl1, app_nil_r.
      split_and!; [by apply (covers_mono R c)|done|].
      left. unfold accepted_here. by rewrite Hev. }
  destruct r as [allowed s2]. cbn [fst snd] in Hcov2, Hrefused, Hacc.
  destruct allowed; cbn [negb].
  2:{ cbn [fst snd]. rewrite accepted_here_refused, app_nil_r by done.
      rewrite Hrefused in Hcov2 by done. by rewrite app_nil_r in Hcov2. }
  destruct Hacc as [Hacc|?]; [|done].
  destruct (add_message_tail_guards now m s2) as (_ & Hne & Hrl).
  cbv zeta in Hne, Hrl.
  set (r := match make_room s2 with inl _ => _ | inr _ => _ end) in *.
  change (covers R now (Platform_value p)
            (a ++ accepted_here p now m r.1) (_rate_limiters p r.2)).
  rewrite Hrl. destruct r.1 as [[|]|] eqn:Ho; [|done|].
  - rewrite Hacc. apply (covers_get_remaining R now now); [lia|done].
  - rewrite accepted_here_refused, app_nil_r by done.
    apply (covers_sub R now _ (a ++ granted)); [|done].
    by apply sublist_inserts_r.
Qed.

Lemma covers_step md5 p c s R c0 a :
  Forall (fun t => c0 <= t) (clocks [c]) ->
  covers R c0 (Platform_value p) a (_rate_limiters p s) ->
  covers R (default c0 (clock c)) (Platform_value p)
    (a ++ accepted md5 p s [c])
    (_rate_limiters p (step md5 s c)).
Proof.
  intros Hc Hcov.
  destruct c as [now m| |mid| |now|now];
    cbn [step accepted clock default app]; rewrite ?app_nil_r.
  - apply (covers_add_message md5 p now m s R c0 a); [|done].
    by apply Forall_inv in Hc.
  - unfold get_next.
    destruct (Heapq.heappop _ _) as [[item q]|]; [|done].
    cbn [snd]. by destruct p.
  - unfold mark_complete. destruct (_send_next_guards
      (match _current_message s with
       | Some m0 =>
           if bool_decide (TTSMessage.id m0 = mid)
           then with_current None s else s
       | None => s
       end)) as [_ ->]. destruct p; by repeat case_match.
  - unfold skip_current. destruct (_send_next_guards
      (emit skip
         (match _current_message s with
          | Some _ => with_current None s
          | None => s
          end))) as [_ ->]. destruct p; by repeat case_match.
  - unfold clear_queue. rewrite _rate_limiters_notify.
    assert (_rate_limiters p (with_messages ∅ (with_queue [] s))
            = _rate_limiters p s) as -> by (by destruct p).
    apply (covers_get_remaining R c0); [|done]. by apply Forall_inv in Hc.
  - rewrite _rate_limiters_get_queue_status.
    apply (covers_get_remaining R c0); [|done]. by apply Forall_inv in Hc.
Qed.

Lemma accepted_cons md5 p s c calls :
  accepted md5 p s (c :: calls)
  = accepted md5 p s [c] ++ accepted md5 p (step md5 s c) calls.
Proof. cbn [accepted]. by rewrite app_nil_r. Qed.

Lemma covers_steps md5 p R now calls : forall s c0 a,
  Sorted Z.le (c0 :: clocks calls ++ [now]) ->
  covers R c0 (Platform_value p) a (_rate_limiters p s) ->
  Z.of_nat (length (recent 60 now (a ++ accepted md5 p s calls)))
  <= Z.max 0 R.
Proof.
  induction calls as [|c calls IH]; intros s c0 a Hs Hcov.
  - cbn [accepted clocks omap list_omap app] in *. rewrite app_nil_r.
    apply Sorted_inv in Hs as [_ Hhd]. apply HdRel_inv in Hhd.
    destruct (covers_mono R c0 now _ a _ Hhd Hcov) as (_ & _ & Hsub & Hlen).
    etrans; [|exact Hlen]. by apply Nat2Z.inj_le, sublist_length.
  - rewrite accepted_cons, app_assoc.
    assert (clocks (c :: calls)
            = match clock c with Some t => [t] | None => [] end ++ clocks calls)
      as Hclk by (unfold clocks; cbn [omap list_omap]; by destruct (clock c)).
    rewrite Hclk in Hs.
    apply (IH (step md5 s c) (default c0 (clock c))).
    + destruct (clock c) as [t|]; cbn [default app] in *; [|done].
      by apply Sorted_inv in Hs as [? _].
    + apply covers_step; [|done]. unfold clocks. cbn [omap list_omap].
      destruct (clock c) as [t|]; cbn [app] in *; [|done].
      apply Forall_singleton. apply Sorted_inv in Hs as [_ Hhd].
      by apply HdRel_inv in Hhd.
Qed.

(** X29: the rate limit holds for the service.  When the clock readings
    of a sequence of calls on a new service never go back, then at any
    time [now] that is not before them, the alerts of a platform that
    [add_message] accepted within the last 60 seconds are no more than
    the rate limit of the platform. *)
Theorem accepted_within_rate_limit md5 cfg p calls now :
  Sorted Z.le (clocks calls ++ [now]) ->
  Z.of_nat (length (recent 60 now (accepted md5 p (init cfg) calls)))
  <= Z.max 0 (rate_limit p cfg).
Proof.
  intros Hs.
  destruct (clocks calls ++ [now]) as [|t1 rest] eqn:E;
    [by destruct (clocks calls)|].
  apply (covers_steps md5 p (rate_limit p cfg) now calls (init cfg) t1 []).
  - rewrite E. constructor; [done|]. by constructor.
  - assert (RateLimiter.tokens (_rate_limiters p (init cfg)) = ∅) as Htk
      by (by destruct p).
    unfold covers. rewrite Htk, lookup_empty. change (default [] None) with (@nil Z).
    split_and!; [by destruct p|by destruct p|apply sublist_nil_l|].
    cbn [length]. lia.
Qed.

Lemma accepted_within_rate_limit_witness :
  Z.of_nat
    (length
       (recent 60 61
          (accepted Examples.hash TWITCH (init (Examples.config_of 5))
             [Offer 0 Examples.T0; Offer 59 Examples.T1; Status 60])))
  <= Z.max 0 1.
Proof.
  apply (accepted_within_rate_limit Examples.hash (Examples.config_of 5)
           TWITCH [Offer 0 Examples.T0; Offer 59 Examples.T1; Status 60] 61).
  repeat (constructor; try lia).
Defined.

(** *** Offers that spend no allowance *)

(** X30: a duplicate, a message without an event and an alert of another
    platform spend nothing of the allowance of a platform: what its
    limiter holds after [add_message] is part of what it held before. *)
Theorem unrelated_offer_spends_no_token md5 p now m s :
  (DuplicateDetector.is_duplicate md5 now (TTSMessage.text m)
     (_duplicate_detector s)).1 = true ∨
  (forall ev, TTSMessage.event m = Some ev -> StreamEvent.platform ev ≠ p) ->
  default []
    (RateLimiter.tokens (_rate_limiters p (add_message md5 now m s).2)
       !! Platform_value p)
  `sublist_of`
  default [] (RateLimiter.tokens (_rate_limiters p s) !! Platform_value p).
Proof.
  intros H.
  assert (_rate_limiters p (add_message md5 now m s).2 = _rate_limiters p s ∨
          _rate_limiters p (add_message md5 now m s).2
          = (RateLimiter.get_remaining now (Platform_value p)
               (_rate_limiters p s)).2) as [->| ->]; [|done|].
  2:{ unfold RateLimiter.get_remaining. cbn [snd]. rewrite prune_tokens.
      change (default [] (Some ?x)) with x. apply sublist_filter. }
  unfold add_message.
  destruct (DuplicateDetector.is_duplicate _ _ _ _) as [dup dd].
  assert (_rate_limiters p (with_duplicate_detector dd s) = _rate_limiters p s)
    as Hrl1 by (by destruct p).
  destruct dup; [by left|]. destruct H as [[=]|H].
  set (r := match TTSMessage.event m with Some _ => _ | None => _ end).
  assert (_rate_limiters p r.2 = _rate_limiters p s) as Hrl2.
  { subst r. destruct (TTSMessage.event m) as [ev|]; [|done]. cbv zeta.
    destruct (RateLimiter.is_allowed now _ _) as [ok rl]. cbn [snd].
    rewrite _rate_limiters_with_rate_limiter, Hrl1.
    destruct (same_platform (StreamEvent.platform ev) p) eqn:E; [|done].
    apply same_platform_eq in E. by destruct (H ev). }
  destruct r as [allowed s2]. cbn [snd] in Hrl2.
  destruct allowed; cbn [negb]; [|by left].
  destruct (add_message_tail_guards now m s2) as (_ & _ & Hrl).
  cbv zeta in Hrl.
  set (r := match make_room s2 with inl _ => _ | inr _ => _ end) in *.
  change (_rate_limiters p r.2 = _rate_limiters p s ∨
          _rate_limiters p r.2
          = (RateLimiter.get_remaining now (Platform_value p)
               (_rate_limiters p s)).2).
  rewrite Hrl, Hrl2. destruct r.1 as [[|]|]; [by right|by left..].
Qed.

Lemma unrelated_offer_spends_no_token_witness :
  default []
    (RateLimiter.tokens
       (_rate_limiters TWITCH
          (add_message Examples.hash 1 Examples.M1 Examples.after_T0).2)
       !! Platform_value TWITCH)
  `sublist_of`
  default []
    (RateLimiter.tokens (_rate_limiters TWITCH Examples.after_T0)
       !! Platform_value TWITCH).
Proof.
  apply unrelated_offer_spends_no_token. right. intros ev. discriminate.
Defined.
